(** * rsyslog: the ruleset object (runtime/ruleset.c) and the TCP input
      module facade (plugins/imtcp/imtcp.c)

    A shallow embedding of the two C files.  Pointers to ruleset objects are
    addresses into a finite map of objects, [NULL] is [None]; every C
    function that reports an [rsRetVal] returns one here, together with the
    objects it may have changed.  A failed [assert] or the dereference of a
    pointer that names no object is the outcome [Fault]. *)

From Stdlib Require Import ZArith Lia Ascii String.
From stdpp Require Import base option list sorting strings gmap.

Open Scope string_scope.
Open Scope list_scope.

(** ** Return codes (rsyslog.h) *)

(** The codes the two files mention, [RS_RET_OUT_OF_MEMORY] (the code of
    [CHKmalloc]) and [RS_RET_NOT_FOUND] (what a failed list search
    reports). *)
Inductive rsRetVal : Set :=
  | RS_RET_OK
  | RS_RET_OUT_OF_MEMORY
  | RS_RET_NOT_FOUND
  | RS_RET_NO_CURR_RULESET
  | RS_RET_RULES_QUEUE_EXISTS
  | RS_RET_PARSER_NOT_FOUND
  | RS_RET_INTERFACE_NOT_SUPPORTED
  | RS_RET_NO_LISTNERS
  | RS_RET_NO_RUN.

#[global] Instance rsRetVal_eq_dec : EqDecision rsRetVal.
Proof. solve_decision. Defined.

(** The error-code argument of [errmsg.LogError]: [NO_ERRCODE] or a return
    code. *)
Inductive errcode : Set :=
  | NO_ERRCODE
  | ErrCode (iRet : rsRetVal).

#[global] Instance errcode_eq_dec : EqDecision errcode.
Proof. solve_decision. Defined.

(** One call of [errmsg.LogError(iErrno, iErrCode, fmt, ...)]. *)
Record logmsg_t : Type := LogMsg {
  lm_errno : Z;
  lm_code : errcode;
  lm_fmt : string;
  lm_args : list string
}.

(** What a call of a modelled function comes to. *)
Inductive outcome (A : Type) : Type :=
  | Ret (a : A)      (* the function returned *)
  | Fault            (* failed assertion, NULL or dangling dereference *)
  | OutOfFuel.       (* the bound on loop passes or call depth was hit *)
Arguments Ret {A} a.
Arguments Fault {A}.
Arguments OutOfFuel {A}.

Definition returns {A : Type} (o : outcome A) : Prop := ∃ a, o = Ret a.

(** ** The generic linked list (linkedlist.c) *)

Module LinkedList.

(** Modelled from the spec: linkedlist.c is not among the sources.  The spec
    (sections 3, 4.6 and 9) describes the container as an ordered sequence
    with an optional key per element, appended to at the end, searched by
    key with the list's comparison function, and walked in insertion
    order; no operation of it is described as failing for lack of
    memory. *)
Definition linkedList_t (D : Type) : Type := list (option string * D).

(** Modelled from the spec: [llAppend] (linkedlist.c) puts the element at the
    end of the sequence. *)
Definition llAppend {D : Type} (pThis : linkedList_t D)
    (pKey : option string) (pData : D) : rsRetVal * linkedList_t D :=
  (RS_RET_OK, pThis ++ [(pKey, pData)]).

(** Modelled from the spec: [llGetNumElts] (linkedlist.c) yields the number
    of elements. *)
Definition llGetNumElts {D : Type} (pThis : linkedList_t D) : rsRetVal * nat :=
  (RS_RET_OK, length pThis).

(** Modelled from the spec: [llFind] (linkedlist.c) yields the first element
    whose key compares equal (comparison result [0]) to [pKey]; elements
    without a key never match, and a search without a match reports
    [RS_RET_NOT_FOUND]. *)
Fixpoint llFind {D : Type} (cmpOp : string → string → Z)
    (pThis : linkedList_t D) (pKey : string) : rsRetVal * option D :=
  match pThis with
  | [] => (RS_RET_NOT_FOUND, None)
  | (Some k, d) :: rest =>
      if (cmpOp pKey k =? 0)%Z then (RS_RET_OK, Some d)
      else llFind cmpOp rest pKey
  | (None, _) :: rest => llFind cmpOp rest pKey
  end.

(** Modelled from the spec: [llExecFunc] (linkedlist.c) is the walk: [pFunc]
    is called on every element in insertion order with the one parameter
    object [pParam], which it may change, and the surroundings [s].
    Section 7 of the spec: errors surface per rule but do not abort the
    batch; the walk reports the first code that was not [RS_RET_OK]. *)
Fixpoint llExecFunc {D P S : Type} (pThis : linkedList_t D)
    (pFunc : D → P → S → rsRetVal * P * S) (pParam : P) (s : S)
    : rsRetVal * P * S :=
  match pThis with
  | [] => (RS_RET_OK, pParam, s)
  | (_, pData) :: rest =>
      let '(iRet, pParam1, s1) := pFunc pData pParam s in
      let '(iRetRest, pParam2, s2) := llExecFunc rest pFunc pParam1 s1 in
      (if decide (iRet = RS_RET_OK) then iRetRest else iRet, pParam2, s2)
  end.

End LinkedList.
Export LinkedList.

(** ** strcasecmp, the comparison function of the ruleset list *)

Definition tolower (c : ascii) : ascii :=
  let n := nat_of_ascii c in
  if ((65 <=? n)%nat && (n <=? 90)%nat)%bool then ascii_of_nat (n + 32) else c.

(** On strings without an embedded NUL, as C strings are. *)
Fixpoint strcasecmp (s1 s2 : string) : Z :=
  match s1, s2 with
  | EmptyString, EmptyString => 0
  | EmptyString, String c2 _ => - Z.of_nat (nat_of_ascii (tolower c2))
  | String c1 _, EmptyString => Z.of_nat (nat_of_ascii (tolower c1))
  | String c1 r1, String c2 r2 =>
      let d := (Z.of_nat (nat_of_ascii (tolower c1))
                - Z.of_nat (nat_of_ascii (tolower c2)))%Z in
      if (d =? 0)%Z then strcasecmp r1 r2 else d
  end.

(** ** Objects of the ruleset engine *)

(** Address of a ruleset object. *)
Abbreviation loc := nat.

Record action_t : Type := Action { actionName : string }.

(** rule.h: a rule holds its list of actions. *)
Record rule_t : Type := Rule { llActList : linkedList_t action_t }.

Record parser_t : Type := Parser { pName : string }.

(** Modelled from the spec: the queue object and [createMainQueue] (dirty.h)
    are not among the sources; attach_queue "constructs a ruleset-private
    queue".  The queue remembers the name it was created for. *)
Record qqueue_t : Type := Queue { qName : string }.

(** Modelled from the spec: [createMainQueue] (dirty.h), see above. *)
Definition createMainQueue (rsname : string) : rsRetVal * option qqueue_t :=
  (RS_RET_OK, Some (Queue rsname)).

(** ruleset.h: the fields ruleset.c reads and writes.  [pParserLst = None]
    means the default parser list, [pQueue = None] the main message queue. *)
Record ruleset_t : Type := Ruleset {
  pszName : option string;
  llRules : linkedList_t rule_t;
  pQueue : option qqueue_t;
  pParserLst : option (list parser_t)
}.

Definition set_llRules (r : ruleset_t) (l : linkedList_t rule_t) : ruleset_t :=
  Ruleset (pszName r) l (pQueue r) (pParserLst r).
Definition set_pQueue (r : ruleset_t) (q : option qqueue_t) : ruleset_t :=
  Ruleset (pszName r) (llRules r) q (pParserLst r).
Definition set_pParserLst (r : ruleset_t) (l : option (list parser_t)) : ruleset_t :=
  Ruleset (pszName r) (llRules r) (pQueue r) l.

(** conf->rulesets: the list of all rulesets (key: name, data: the object's
    address), the current and the default ruleset. *)
Record rulesets_t : Type := Rulesets {
  llRulesets : linkedList_t loc;
  pCurr : option loc;
  pDflt : option loc
}.

Definition set_llRulesets (c : rulesets_t) (l : linkedList_t loc) : rulesets_t :=
  Rulesets l (pCurr c) (pDflt c).
Definition set_pCurr (c : rulesets_t) (p : option loc) : rulesets_t :=
  Rulesets (llRulesets c) p (pDflt c).
Definition set_pDflt (c : rulesets_t) (p : option loc) : rulesets_t :=
  Rulesets (llRulesets c) (pCurr c) p.

(** What the functions of ruleset.c work on: the config object they are
    handed as [conf] (the directive handlers pass [ourConf]), the ruleset
    objects by address, the parsers known to the parser class and the
    messages handed to [errmsg.LogError], oldest first. *)
Record runtime_t : Type := Runtime {
  conf : rulesets_t;
  objs : gmap loc ruleset_t;
  parserRoot : list parser_t;
  errlog : list logmsg_t
}.

Definition set_conf (rt : runtime_t) (c : rulesets_t) : runtime_t :=
  Runtime c (objs rt) (parserRoot rt) (errlog rt).
Definition set_objs (rt : runtime_t) (h : gmap loc ruleset_t) : runtime_t :=
  Runtime (conf rt) h (parserRoot rt) (errlog rt).
Definition LogError (iErrno : Z) (iErrCode : errcode) (fmt : string)
    (args : list string) (rt : runtime_t) : runtime_t :=
  Runtime (conf rt) (objs rt) (parserRoot rt)
          (errlog rt ++ [LogMsg iErrno iErrCode fmt args]).

(** ** ruleset.c: the registry *)

(** Modelled from the spec: the parser class (parser.c) is not among the
    sources.  [FindParser] looks a parser up by its name and reports
    [RS_RET_PARSER_NOT_FOUND] when none is registered under it (the code
    ruleset.c tests for); [AddParserToList] appends to a ruleset's parser
    list, the first addition replacing the inherited default list
    (section 4.6). *)
Fixpoint FindParser (root : list parser_t) (name : string)
    : rsRetVal * option parser_t :=
  match root with
  | [] => (RS_RET_PARSER_NOT_FOUND, None)
  | p :: rest =>
      if decide (pName p = name) then (RS_RET_OK, Some p)
      else FindParser rest name
  end.

(** Modelled from the spec: [AddParserToList] (parser.c), see above. *)
Definition AddParserToList (lst : option (list parser_t)) (p : parser_t)
    : rsRetVal * option (list parser_t) :=
  match lst with
  | None => (RS_RET_OK, Some [p])
  | Some l => (RS_RET_OK, Some (l ++ [p]))
  end.

(** Modelled from the spec: [objUse(parser, CORE_COMPONENT)] (obj.c) is the
    object loader handing out the parser interface; the spec has no
    failure of it. *)
Definition objUse_parser : rsRetVal := RS_RET_OK.

(** Modelled from the spec: [ustrdup] (unicode-helper.h) copies a name;
    [None] is [strdup(NULL)]. *)
Definition ustrdup (s : option string) : option string := s.

(** Add a new rule to the end of the rule set [pThis]; a rule without
    actions is discarded with a warning.  The second component of the result
    is [*ppRule] afterwards ([None] once the rule was destructed). *)
Definition addRule (pThis : loc) (pRule : rule_t) (rt : runtime_t)
    : outcome (rsRetVal * option rule_t * runtime_t) :=
  match objs rt !! pThis with
  | None => Fault                         (* ISOBJ_TYPE_assert(pThis, ruleset) *)
  | Some this =>
      match llGetNumElts (llActList pRule) with
      | (RS_RET_OK, iActionCnt) =>
          if decide (iActionCnt = 0) then
            let rt1 := LogError 0 NO_ERRCODE
                 "warning: selector line without actions will be discarded" [] rt in
            Ret (RS_RET_OK, None, rt1)    (* rule.Destruct(ppRule) *)
          else
            match llAppend (llRules this) None pRule with
            | (RS_RET_OK, l) =>
                Ret (RS_RET_OK, Some pRule,
                     set_objs rt (<[pThis := set_llRules this l]> (objs rt)))
            | (iRet, _) => Ret (iRet, Some pRule, rt)
            end
      | (iRet, _) => Ret (iRet, Some pRule, rt)
      end
  end.

(** Get current ruleset. *)
Definition GetCurrent (rt : runtime_t) : option loc := pCurr (conf rt).

(** Find the ruleset with the given name.  The list of rulesets compares
    keys with [strcasecmp]: [destructAllActions] initialises it anew with
    that function, and the spec has the registry keyed case-insensitively. *)
Definition rulesetGetRuleset (rt : runtime_t) (pszName : string)
    : rsRetVal * option loc :=
  llFind strcasecmp (llRulesets (conf rt)) pszName.

(** Set a new default rule set.  If the default can not be found, no change
    happens. *)
Definition SetDefaultRuleset (pszName : string) (rt : runtime_t)
    : rsRetVal * runtime_t :=
  match rulesetGetRuleset rt pszName with
  | (RS_RET_OK, pRuleset) => (RS_RET_OK, set_conf rt (set_pDflt (conf rt) pRuleset))
  | (iRet, _) => (iRet, rt)
  end.

(** Set a new current rule set.  If the ruleset can not be found, no change
    happens. *)
Definition SetCurrRuleset (pszName : string) (rt : runtime_t)
    : rsRetVal * runtime_t :=
  match rulesetGetRuleset rt pszName with
  | (RS_RET_OK, pRuleset) => (RS_RET_OK, set_conf rt (set_pCurr (conf rt) pRuleset))
  | (iRet, _) => (iRet, rt)
  end.

(** The construction finalizer: this also adds the rule set to the list of
    all known rulesets. *)
Definition rulesetConstructFinalize (pThis : loc) (rt : runtime_t)
    : outcome (rsRetVal * runtime_t) :=
  match objs rt !! pThis with
  | None => Fault                         (* ISOBJ_TYPE_assert(pThis, ruleset) *)
  | Some this =>
      match ustrdup (pszName this) with
      | None => Fault                     (* strdup(NULL) *)
      | Some keyName =>
          match llAppend (llRulesets (conf rt)) (Some keyName) pThis with
          | (RS_RET_OK, l) =>
              let c1 := set_llRulesets (conf rt) l in
              (* this now also is the new current ruleset *)
              let c2 := set_pCurr c1 (Some pThis) in
              (* and also the default, if so far none has been set *)
              let c3 := match pDflt c2 with
                        | None => set_pDflt c2 (Some pThis)
                        | Some _ => c2
                        end in
              Ret (RS_RET_OK, set_conf rt c3)
          | (iRet, _) => Ret (iRet, rt)
          end
      end
  end.

(** Create a ruleset-specific main queue for the current ruleset.  [pNewVal]
    is the value the handler of a binary directive hands over; the function
    compares the argument itself with [0]. *)
Definition doRulesetCreateQueue (pNewVal : Z) (rt : runtime_t)
    : outcome (rsRetVal * runtime_t) :=
  match pCurr (conf rt) with
  | None =>
      Ret (RS_RET_NO_CURR_RULESET,
           LogError 0 (ErrCode RS_RET_NO_CURR_RULESET)
             "error: currently no specific ruleset specified, thus a queue can not be added to it"
             [] rt)
  | Some p =>
      match objs rt !! p with
      | None => Fault
      | Some cur =>
          match pQueue cur with
          | Some _ =>
              Ret (RS_RET_RULES_QUEUE_EXISTS,
                   LogError 0 (ErrCode RS_RET_RULES_QUEUE_EXISTS)
                     "error: ruleset already has a main queue, can not add another one"
                     [] rt)
          | None =>
              if decide (pNewVal = 0%Z) then
                Ret (RS_RET_OK, rt)  (* turned off: nothing to change *)
              else
                let rsname := default "[ruleset]" (pszName cur) in
                match createMainQueue rsname with
                | (RS_RET_OK, q) =>
                    Ret (RS_RET_OK,
                         set_objs rt (<[p := set_pQueue cur q]> (objs rt)))
                | (iRet, _) => Ret (iRet, rt)
                end
          end
      end
  end.

Definition rulesetCreateQueue (pNewVal : Z) (rt : runtime_t)
    : outcome (rsRetVal * runtime_t) :=
  doRulesetCreateQueue pNewVal rt.

(** Add a ruleset specific parser to the current ruleset. *)
Definition doRulesetAddParser (name : string) (rt : runtime_t)
    : outcome (rsRetVal * runtime_t) :=
  match pCurr (conf rt) with
  | None => Fault                         (* assert(conf->rulesets.pCurr != NULL) *)
  | Some p =>
      match objUse_parser with
      | RS_RET_OK =>
          match FindParser (parserRoot rt) name with
          | (RS_RET_PARSER_NOT_FOUND, _) =>
              Ret (RS_RET_NO_CURR_RULESET,   (* ABORT_FINALIZE(RS_RET_NO_CURR_RULESET) *)
                   LogError 0 (ErrCode RS_RET_PARSER_NOT_FOUND)
                     "error: parser '%s' unknown at this time (maybe defined too late in rsyslog.conf?)"
                     [name] rt)
          | (RS_RET_OK, Some pParser) =>
              match objs rt !! p with
              | None => Fault
              | Some cur =>
                  match AddParserToList (pParserLst cur) pParser with
                  | (RS_RET_OK, l) =>
                      Ret (RS_RET_OK,
                           set_objs rt (<[p := set_pParserLst cur l]> (objs rt)))
                  | (iRet, _) => Ret (iRet, rt)
                  end
              end
          | (RS_RET_OK, None) => Fault
          | (iRet, _) =>
              Ret (iRet,
                   LogError 0 (ErrCode iRet) "error trying to find parser '%s'\n" [name] rt)
          end
      | iRet => Ret (iRet, rt)
      end
  end.

Definition rulesetAddParser (name : string) (rt : runtime_t)
    : outcome (rsRetVal * runtime_t) :=
  doRulesetAddParser name rt.

(** ** batch.h *)

(** Modelled from the spec: batch.h is not among the sources.  Section 3 has a
    batch as a bounded array of elements, each a user pointer and a state in
    {READY, DISCARDED}, with the element count, the single-ruleset flag and
    the shared shutdown flag; section 4.7 speaks of "that element's ruleset",
    which is the ruleset its message is bound to ([pMsg->pRuleset], as
    [GetParserList] reads it). *)
Inductive batch_state_t : Set :=
  | BATCH_STATE_RDY
  | BATCH_STATE_DISC.

#[global] Instance batch_state_eq_dec : EqDecision batch_state_t.
Proof. solve_decision. Defined.

(** Modelled from the spec: msg.h is not among the sources.  The message a
    batch element points to; [pRuleset] is the ruleset it is bound to,
    [msgId] tells messages apart. *)
Record msg_t : Type := Msg { msgId : nat; pRuleset : option loc }.

(** Modelled from the spec: the batch element (batch.h), the two members
    ruleset.c copies. *)
Record batch_obj_t : Type := BatchObj { pUsrp : msg_t; state : batch_state_t }.

(** Modelled from the spec: the batch (batch.h).  [pElem] holds the slots in
    use, so [nElem] is its length; [maxElem] is the number of slots
    allocated.  [pbShutdownImmediate] is the address of the shared flag. *)
Record batch_t : Type := Batch {
  maxElem : nat;
  pElem : list batch_obj_t;
  bSingleRuleset : bool;
  pbShutdownImmediate : option nat
}.

Definition nElem (b : batch_t) : nat := length (pElem b).

Definition set_pElem (b : batch_t) (l : list batch_obj_t) : batch_t :=
  Batch (maxElem b) l (bSingleRuleset b) (pbShutdownImmediate b).
Definition set_pbShutdownImmediate (b : batch_t) (p : option nat) : batch_t :=
  Batch (maxElem b) (pElem b) (bSingleRuleset b) p.

(** Modelled from the spec: [batchInit] (batch.h) allocates the sub-batch "of
    capacity = original n_elem": a batch with room for [maxElem] elements and
    none in use.  The spec has no failure of it. *)
Definition batchInit (maxElem : nat) : rsRetVal * batch_t :=
  (RS_RET_OK, Batch maxElem [] false None).

(** Modelled from the spec: [batchSetSingleRuleset] (batch.h) sets the
    single-ruleset flag. *)
Definition batchSetSingleRuleset (b : batch_t) (val : bool) : batch_t :=
  Batch (maxElem b) (pElem b) val (pbShutdownImmediate b).

(** Modelled from the spec: [batchElemGetRuleset] (batch.h) yields the
    ruleset of element [i]: that of its message.  The index is not verified,
    [None] is the access outside the slots in use. *)
Definition batchElemGetRuleset (b : batch_t) (i : nat) : option (option loc) :=
  e ← pElem b !! i; Some (pRuleset (pUsrp e)).

(** ** ruleset.c: the batch router *)

Section Router.

(** What lies beyond ruleset.c: the state [W] the actions work on, the
    rule class's [ProcessBatch] (rule.c), which may change the batch it is
    handed (mark elements DISCARDED) and that state, and the batch's own
    ruleset pointer as [batchGetRuleset] (batch.h) yields it. *)
Context {W : Type}.
Variable rule_ProcessBatch : rule_t → batch_t → W → rsRetVal * batch_t * W.
Variable batchGetRuleset : batch_t → option loc.

(** helper to processBatch(), executed from within llExecFunc() of the
    rule list. *)
Definition processBatchDoRules (pData : rule_t) (pParam : batch_t) (w : W)
    : rsRetVal * batch_t * W :=
  rule_ProcessBatch pData pParam w.

Section MultiRuleset.

(** The forward definition of [processBatch]. *)
Variable processBatch : batch_t → W → outcome (rsRetVal * batch_t * W).

(** [for(iStart = 0 ; iStart < nElem && pElem[iStart].state == DISC ; ++iStart)]:
    slot [iStart] exists exactly when [iStart < nElem]; [n] bounds the
    passes left. *)
Fixpoint searchUnprocessed (n : nat) (pBatch : batch_t) (iStart : nat) : nat :=
  match n with
  | 0 => iStart
  | S n' =>
      match pElem pBatch !! iStart with
      | Some e =>
          if decide (state e = BATCH_STATE_DISC)
          then searchUnprocessed n' pBatch (S iStart)
          else iStart
      | None => iStart
      end
  end.

(** [for(i = iStart ; i < nElem ; ++i)]: the elements of [currRuleset]
    are copied (user pointer and state) to the next free slot of the
    temporary batch and marked done in the batch itself. *)
Fixpoint partitionLoop (n : nat) (currRuleset : option loc) (i : nat)
    (pBatch snglRuleBatch : batch_t) (bHaveUnprocessed : bool)
    : outcome (batch_t * batch_t * bool) :=
  match n with
  | 0 => Ret (pBatch, snglRuleBatch, bHaveUnprocessed)
  | S n' =>
      match pElem pBatch !! i with
      | None => Ret (pBatch, snglRuleBatch, bHaveUnprocessed)  (* i = nElem *)
      | Some e =>
          match batchElemGetRuleset pBatch i with
          | None => Fault
          | Some r =>
              if decide (r = currRuleset) then
                let sngl1 := set_pElem snglRuleBatch
                    (pElem snglRuleBatch ++ [BatchObj (pUsrp e) (state e)]) in
                let pBatch1 := set_pElem pBatch
                    (<[i := BatchObj (pUsrp e) BATCH_STATE_DISC]> (pElem pBatch)) in
                partitionLoop n' currRuleset (S i) pBatch1 sngl1 bHaveUnprocessed
              else
                partitionLoop n' currRuleset (S i) pBatch snglRuleBatch true
          end
      end
  end.

(** The do-while loop; [fuel] bounds its passes. *)
Fixpoint multiRulesetLoop (fuel : nat) (pBatch : batch_t) (w : W)
    : outcome (rsRetVal * batch_t * W) :=
  match fuel with
  | 0 => OutOfFuel
  | S fuel' =>
      (* search for first unprocessed element *)
      let iStart := searchUnprocessed (nElem pBatch) pBatch 0 in
      if decide (iStart = nElem pBatch) then
        Ret (RS_RET_OK, pBatch, w)     (* everything processed *)
      else
        (* prepare temporary batch *)
        match batchInit (nElem pBatch) with
        | (RS_RET_OK, snglRuleBatch) =>
            let sngl0 := set_pbShutdownImmediate snglRuleBatch
                           (pbShutdownImmediate pBatch) in
            match batchElemGetRuleset pBatch iStart with
            | None => Fault
            | Some currRuleset =>
                match partitionLoop (nElem pBatch) currRuleset iStart
                                    pBatch sngl0 false with
                | Ret (pBatch1, sngl1, bHaveUnprocessed) =>
                    let sngl2 := batchSetSingleRuleset sngl1 true in
                    (* process temp batch; its return code is not looked
                       at, and the temporary batch is freed *)
                    match processBatch sngl2 w with
                    | Ret (_, _, w1) =>
                        if bHaveUnprocessed
                        then multiRulesetLoop fuel' pBatch1 w1
                        else Ret (RS_RET_OK, pBatch1, w1)
                    | Fault => Fault
                    | OutOfFuel => OutOfFuel
                    end
                | Fault => Fault
                | OutOfFuel => OutOfFuel
                end
            end
        | (iRet, _) => Ret (iRet, pBatch, w)
        end
  end.

(** A pass that goes on to the next one has discarded at least one
    element that was not yet, so [nElem + 1] passes are enough (lemma
    [multiRulesetLoop_fuel]). *)
Definition processBatchMultiRuleset (pBatch : batch_t) (w : W)
    : outcome (rsRetVal * batch_t * W) :=
  multiRulesetLoop (S (nElem pBatch)) pBatch w.

End MultiRuleset.

(** Process (consume) a batch of messages.  [depth] bounds the nesting of
    calls: the multi-ruleset path calls back with single-ruleset batches
    only, so [2] is enough (lemma [processBatch_depth]). *)
Fixpoint processBatch (depth : nat) (rt : runtime_t) (pBatch : batch_t) (w : W)
    : outcome (rsRetVal * batch_t * W) :=
  match depth with
  | 0 => OutOfFuel
  | S d =>
      if bSingleRuleset pBatch then
        let pThis := match batchGetRuleset pBatch with
                     | None => pDflt (conf rt)
                     | Some p => Some p
                     end in
        match pThis with
        | None => Fault                    (* ISOBJ_TYPE_assert(pThis, ruleset) *)
        | Some a =>
            match objs rt !! a with
            | None => Fault
            | Some this => Ret (llExecFunc (llRules this) processBatchDoRules pBatch w)
            end
        end
      else
        processBatchMultiRuleset (processBatch d rt) pBatch w
  end.

End Router.

(** Modelled from the spec: [batchGetRuleset] (batch.h) is not among the
    sources.  The batch of section 3 carries no ruleset pointer of its own, and
    [processBatchMultiRuleset] sets none in the batches it builds: the
    ruleset of a single-ruleset batch is that of its first element, [NULL]
    for the empty batch. *)
Definition batchGetRuleset_first (b : batch_t) : option loc :=
  match pElem b with
  | e :: _ => pRuleset (pUsrp e)
  | [] => None
  end.

(** ** ruleset.c: further functions *)

Definition set_pszName (r : ruleset_t) (n : option string) : ruleset_t :=
  Ruleset n (llRules r) (pQueue r) (pParserLst r).

(** set name for ruleset: the old name is freed, the new one a copy of
    [pszName]. *)
Definition setName (pThis : loc) (pszName : string) (rt : runtime_t)
    : outcome (rsRetVal * runtime_t) :=
  match objs rt !! pThis with
  | None => Fault
  | Some this =>
      let n := ustrdup (Some pszName) in
      let rt1 := set_objs rt (<[pThis := set_pszName this n]> (objs rt)) in
      match n with
      | Some _ => Ret (RS_RET_OK, rt1)
      | None => Ret (RS_RET_OUT_OF_MEMORY, rt1)     (* CHKmalloc *)
      end
  end.

(** get main queue associated with ruleset.  If no ruleset-specific main
    queue is set, the primary main message queue [pMsgQueue] (a global of
    the daemon, dirty.h) is returned. *)
Definition GetRulesetQueue (pMsgQueue : option qqueue_t) (pThis : loc)
    (rt : runtime_t) : outcome (option qqueue_t) :=
  match objs rt !! pThis with
  | None => Fault                         (* ISOBJ_TYPE_assert(pThis, ruleset) *)
  | Some this =>
      Ret (match pQueue this with
           | None => pMsgQueue
           | Some q => Some q
           end)
  end.

(** return the ruleset-assigned parser list.  NULL means use the default
    parser list. *)
Definition GetParserList (rt : runtime_t) (pMsg : msg_t)
    : outcome (option (list parser_t)) :=
  match pRuleset pMsg with
  | None =>
      match pDflt (conf rt) with
      | None => Fault
      | Some d =>
          match objs rt !! d with
          | None => Fault
          | Some dflt => Ret (pParserLst dflt)
          end
      end
  | Some p =>
      match objs rt !! p with
      | None => Fault
      | Some this => Ret (pParserLst this)
      end
  end.

Section IterateAllActions.

(** What lies beyond ruleset.c: the function [pFunc] to call on every
    action, of some type [F], its parameter [pParam] of type [P], the state
    [W] it works on, and the rule class's [IterateAllActions] (rule.c). *)
Context {F P W : Type}.
Variable rule_IterateAllActions : rule_t → F → P → W → rsRetVal * W.

(** driver to iterate over all of this ruleset actions; [pMyParam] is the
    [iterateAllActions_t] with the function and its parameter. *)
Definition doIterateRulesetActions (pData : rule_t) (pMyParam : F * P) (w : W)
    : rsRetVal * (F * P) * W :=
  let '(iRet, w1) := rule_IterateAllActions pData pMyParam.1 pMyParam.2 w in
  (iRet, pMyParam, w1).

(** iterate over all actions of THIS rule set. *)
Definition iterateRulesetAllActions (pThis : loc) (pFunc : F) (pParam : P)
    (rt : runtime_t) (w : W) : outcome (rsRetVal * W) :=
  match objs rt !! pThis with
  | None => Fault
  | Some this =>
      let '(iRet, _, w1) :=
        llExecFunc (llRules this) doIterateRulesetActions (pFunc, pParam) w in
      Ret (iRet, w1)
  end.

(** driver to iterate over all actions.  The state the walk threads is the
    outcome so far: once a call has not returned, the later ones do
    nothing. *)
Definition doIterateAllActions (rt : runtime_t) (pData : loc)
    (pMyParam : F * P) (s : outcome W) : rsRetVal * (F * P) * outcome W :=
  match s with
  | Ret w =>
      match iterateRulesetAllActions pData pMyParam.1 pMyParam.2 rt w with
      | Ret (iRet, w1) => (iRet, pMyParam, Ret w1)
      | Fault => (RS_RET_OK, pMyParam, Fault)
      | OutOfFuel => (RS_RET_OK, pMyParam, OutOfFuel)
      end
  | _ => (RS_RET_OK, pMyParam, s)
  end.

(** iterate over ALL actions present in the WHOLE system. *)
Definition iterateAllActions (pFunc : F) (pParam : P) (rt : runtime_t) (w : W)
    : outcome (rsRetVal * W) :=
  match llExecFunc (llRulesets (conf rt)) (doIterateAllActions rt)
                   (pFunc, pParam) (Ret w) with
  | (iRet, _, Ret w1) => Ret (iRet, w1)
  | (_, _, Fault) => Fault
  | (_, _, OutOfFuel) => OutOfFuel
  end.

End IterateAllActions.

(** destructor for the ruleset object: the queue, the parser list, the rules
    and the name go with the object. *)
Definition rulesetDestruct (pThis : loc) (rt : runtime_t)
    : outcome (rsRetVal * runtime_t) :=
  match objs rt !! pThis with
  | None => Fault
  | Some _ => Ret (RS_RET_OK, set_objs rt (delete pThis (objs rt)))
  end.

(** the special destructor for the linkedList class. *)
Definition rulesetDestructForLinkedList (pData : loc) (rt : runtime_t)
    : outcome (rsRetVal * runtime_t) :=
  rulesetDestruct pData rt.

(** Modelled from the spec: [llDestroy] (linkedlist.c) tears the list down:
    the element destructor is called on the data of every element, from the
    first to the last, and the list is left without elements. *)
Fixpoint llDestroy {D S : Type} (pThis : linkedList_t D)
    (pEltDestruct : D → S → outcome (rsRetVal * S)) (s : S)
    : outcome (rsRetVal * linkedList_t D * S) :=
  match pThis with
  | [] => Ret (RS_RET_OK, [], s)
  | (_, pData) :: rest =>
      match pEltDestruct pData s with
      | Ret (_, s1) => llDestroy rest pEltDestruct s1
      | Fault => Fault
      | OutOfFuel => OutOfFuel
      end
  end.

(** destruct ALL rule sets that reside in the system: the list is destroyed
    and initialised anew, the default pointer cleared. *)
Definition destructAllActions (rt : runtime_t) : outcome (rsRetVal * runtime_t) :=
  match llDestroy (llRulesets (conf rt)) rulesetDestructForLinkedList rt with
  | Ret (RS_RET_OK, _, rt1) =>                   (* llInit: no elements *)
      Ret (RS_RET_OK, set_conf rt1 (set_pDflt (set_llRulesets (conf rt1) []) None))
  | Ret (iRet, l, rt1) => Ret (iRet, set_conf rt1 (set_llRulesets (conf rt1) l))
  | Fault => Fault
  | OutOfFuel => OutOfFuel
  end.

Module Script.

(** rainerscript.h: a statement of a script; [next] is the one member
    [addScript] writes. *)
Record cnfstmt : Type := Cnfstmt { next : option loc }.

(** The members [root] and [last] of a ruleset object. *)
Record script_t : Type := ScriptOf { root : option loc; last : option loc }.

(** Standard-Constructor: no script. *)
Definition rulesetConstruct_script : script_t := ScriptOf None None.

(** Add a script block to the current ruleset.  [stmts] are the statements
    by address; [script = None] is the NULL pointer, which the function does
    not test for.  The debug print of the chain is left out. *)
Definition addScript (pThis : script_t) (script : option loc)
    (stmts : gmap loc cnfstmt) : outcome (script_t * gmap loc cnfstmt) :=
  match last pThis with
  | None => Ret (ScriptOf script script, stmts)
  | Some l =>
      match stmts !! l with
      | None => Fault
      | Some _ =>
          Ret (ScriptOf (root pThis) script, <[l := Cnfstmt script]> stmts)
      end
  end.

End Script.

(** ** imtcp.c: the TCP input module *)

Module Imtcp.

(** The callbacks imtcp hands to the TCP server. *)
Inductive callback : Set :=
  | isPermittedHost
  | doRcvData
  | doOpenLstnSocks
  | onRegularClose
  | onErrClose.

(** Modelled from the spec: the TCP server class (tcpsrv.c) is not among the
    sources; section 4.5 has it as the object that is constructed, handed
    its callbacks and parameters, told the ports to listen on and
    finalized.  The server object is the sequence of calls made on it
    since [tcpsrv.Construct], oldest first; each of them succeeds. *)
Inductive tcpsrv_call : Type :=
  | SetCBIsPermittedHost (cb : callback)
  | SetCBRcvData (cb : callback)
  | SetCBOpenLstnSocks (cb : callback)
  | SetCBOnRegularClose (cb : callback)
  | SetCBOnErrClose (cb : callback)
  | SetKeepAlive (v : bool)
  | SetSessMax (v : Z)
  | SetLstnMax (v : Z)
  | SetDrvrMode (v : Z)
  | SetUseFlowControl (v : bool)
  | SetAddtlFrameDelim (v : Z)
  | SetbDisableLFDelim (v : bool)
  | SetNotificationOnRemoteClose (v : bool)
  | SetDrvrAuthMode (v : string)
  | SetDrvrPermPeers (v : list string)
  | SetRuleset (v : option loc)
  | SetInputName (v : string)
  | configureTCPListen (port : string) (bSuppOctetFram : bool)
  | ConstructFinalize.

(** Modelled from the spec: the server object (tcpsrv.h), see above. *)
Definition tcpsrv_t : Type := list tcpsrv_call.

(** Modelled from the spec: [tcpsrv.Construct] (tcpsrv.c) yields a server on
    which no call was made yet. *)
Definition tcpsrv_Construct : rsRetVal * tcpsrv_t := (RS_RET_OK, []).

(** Modelled from the spec: a call [c] of the tcpsrv interface (tcpsrv.c) on
    the server [pSrv]. *)
Definition tcpsrv (c : tcpsrv_call) (pSrv : tcpsrv_t) : rsRetVal * tcpsrv_t :=
  (RS_RET_OK, pSrv ++ [c]).

Record instanceConf_t : Type := InstanceConf {
  pszBindPort : string;              (* port to bind to *)
  pszBindRuleset : option string;    (* name of ruleset to bind to *)
  pBindRuleset : option loc;         (* ruleset to bind listener to *)
  pszInputName : option string;      (* value for inputname property *)
  bSuppOctetFram : bool
}.

Definition set_pBindRuleset (i : instanceConf_t) (p : option loc) : instanceConf_t :=
  InstanceConf (pszBindPort i) (pszBindRuleset i) p (pszInputName i) (bSuppOctetFram i).

(** [root] is the chain of instances from [root] along [next]. *)
Record modConfData_t : Type := ModConfData {
  root : list instanceConf_t;
  iTCPSessMax : Z;
  iTCPLstnMax : Z;
  iStrmDrvrMode : Z;
  iAddtlFrameDelim : Z;
  bDisableLFDelim : bool;
  bUseFlowControl : bool;
  bKeepAlive : bool;
  bEmitMsgOnClose : bool;
  pszStrmDrvrAuthMode : option string
}.

Definition set_root (m : modConfData_t) (l : list instanceConf_t) : modConfData_t :=
  ModConfData l (iTCPSessMax m) (iTCPLstnMax m) (iStrmDrvrMode m)
    (iAddtlFrameDelim m) (bDisableLFDelim m) (bUseFlowControl m) (bKeepAlive m)
    (bEmitMsgOnClose m) (pszStrmDrvrAuthMode m).

(** The module's static data, and the runtime whose ruleset registry
    ([pModConf->pConf]) and error log it uses.  [pPermPeersRoot = []] is
    the NULL root. *)
Record module_t : Type := Module_ {
  pOurTcpsrv : option tcpsrv_t;
  pPermPeersRoot : list string;
  runModConf : option modConfData_t;
  rt : runtime_t
}.

Definition set_pOurTcpsrv (m : module_t) (s : option tcpsrv_t) : module_t :=
  Module_ s (pPermPeersRoot m) (runModConf m) (rt m).
Definition set_runModConf (m : module_t) (c : option modConfData_t) : module_t :=
  Module_ (pOurTcpsrv m) (pPermPeersRoot m) c (rt m).
Definition set_rt (m : module_t) (r : runtime_t) : module_t :=
  Module_ (pOurTcpsrv m) (pPermPeersRoot m) (runModConf m) r.

(** The state right after [modInit]. *)
Definition modInit (r : runtime_t) : module_t := Module_ None [] None r.

(** [CHKiRet(c); k]: the calls on the server object in sequence, up to the
    first that does not report [RS_RET_OK]. *)
Definition CHKiRet (c k : tcpsrv_t → rsRetVal * tcpsrv_t)
    : tcpsrv_t → rsRetVal * tcpsrv_t :=
  λ pSrv, match c pSrv with
          | (RS_RET_OK, pSrv1) => k pSrv1
          | (iRet, pSrv1) => (iRet, pSrv1)
          end.

Infix ">->" := CHKiRet (at level 65, right associativity).

Definition skip : tcpsrv_t → rsRetVal * tcpsrv_t := λ pSrv, (RS_RET_OK, pSrv).

(** The part of [addListner] run when there is no server yet, from the
    server constructed on. *)
Definition addListner_init (modConf : modConfData_t) (peers : list string)
    : tcpsrv_t → rsRetVal * tcpsrv_t :=
  (* callbacks *)
  tcpsrv (SetCBIsPermittedHost isPermittedHost) >->
  tcpsrv (SetCBRcvData doRcvData) >->
  tcpsrv (SetCBOpenLstnSocks doOpenLstnSocks) >->
  tcpsrv (SetCBOnRegularClose onRegularClose) >->
  tcpsrv (SetCBOnErrClose onErrClose) >->
  (* params *)
  tcpsrv (SetKeepAlive (bKeepAlive modConf)) >->
  tcpsrv (SetSessMax (iTCPSessMax modConf)) >->
  tcpsrv (SetLstnMax (iTCPLstnMax modConf)) >->
  tcpsrv (SetDrvrMode (iStrmDrvrMode modConf)) >->
  tcpsrv (SetUseFlowControl (bUseFlowControl modConf)) >->
  tcpsrv (SetAddtlFrameDelim (iAddtlFrameDelim modConf)) >->
  tcpsrv (SetbDisableLFDelim (bDisableLFDelim modConf)) >->
  tcpsrv (SetNotificationOnRemoteClose (bEmitMsgOnClose modConf)) >->
  (* now set optional params, but only if they were actually configured *)
  (match pszStrmDrvrAuthMode modConf with
   | Some mode => tcpsrv (SetDrvrAuthMode mode)
   | None => skip
   end) >->
  (match peers with
   | _ :: _ => tcpsrv (SetDrvrPermPeers peers)
   | [] => skip
   end).

(** initialized, now add socket and listener params *)
Definition addListner_port (inst : instanceConf_t)
    : tcpsrv_t → rsRetVal * tcpsrv_t :=
  tcpsrv (SetRuleset (pBindRuleset inst)) >->
  tcpsrv (SetInputName (default "imtcp" (pszInputName inst))) >->
  tcpsrv (configureTCPListen (pszBindPort inst) (bSuppOctetFram inst)).

Definition addListner (modConf : modConfData_t) (inst : instanceConf_t)
    (m : module_t) : rsRetVal * module_t :=
  let '(iRet, srv) :=
    match pOurTcpsrv m with
    | None =>
        match tcpsrv_Construct with
        | (RS_RET_OK, srv0) =>
            let '(iRet1, srv1) :=
              (addListner_init modConf (pPermPeersRoot m) >->
               addListner_port inst) srv0 in
            (iRet1, Some srv1)
        | (iRet0, _) => (iRet0, None)
        end
    | Some srv0 =>
        let '(iRet1, srv1) := addListner_port inst srv0 in (iRet1, Some srv1)
    end in
  let m1 := set_pOurTcpsrv m srv in
  (* finalize_it *)
  if decide (iRet = RS_RET_OK) then (iRet, m1)
  else (iRet, set_rt m1 (LogError 0 NO_ERRCODE
                           "imtcp: error %d trying to add listener" [] (rt m1))).

(** function to generate error message if framework does not find
    requested ruleset *)
Definition std_checkRuleset_genErrMsg (inst : instanceConf_t) (r : runtime_t)
    : runtime_t :=
  LogError 0 NO_ERRCODE
    "imtcp: ruleset '%s' for port %s not found - using default ruleset instead"
    [default EmptyString (pszBindRuleset inst); pszBindPort inst] r.

(** Modelled from the spec: [std_checkRuleset] (im-helper.h) is not among the
    sources.  Section 4.8: the instance is bound to the ruleset of its
    bind-ruleset name; if the name is unknown, a warning is logged and the
    instance uses the default ruleset ([pBindRuleset = NULL]). *)
Definition std_checkRuleset (inst : instanceConf_t) (r : runtime_t)
    : instanceConf_t * runtime_t :=
  match pszBindRuleset inst with
  | None => (set_pBindRuleset inst None, r)
  | Some name =>
      match rulesetGetRuleset r name with
      | (RS_RET_OK, p) => (set_pBindRuleset inst p, r)
      | _ => (set_pBindRuleset inst None, std_checkRuleset_genErrMsg inst r)
      end
  end.

Fixpoint checkCnf_loop (insts : list instanceConf_t) (r : runtime_t)
    : list instanceConf_t * runtime_t :=
  match insts with
  | [] => ([], r)
  | inst :: next =>
      let '(inst1, r1) := std_checkRuleset inst r in
      let '(next1, r2) := checkCnf_loop next r1 in
      (inst1 :: next1, r2)
  end.

Definition checkCnf (pModConf : modConfData_t) (m : module_t)
    : rsRetVal * modConfData_t * module_t :=
  let '(insts, r1) := checkCnf_loop (root pModConf) (rt m) in
  let pModConf1 := set_root pModConf insts in
  match root pModConf1 with
  | [] =>
      (RS_RET_NO_LISTNERS, pModConf1,
       set_rt m (LogError 0 (ErrCode RS_RET_NO_LISTNERS)
         "imtcp: module loaded, but no listeners defined - no input will be gathered"
         [] r1))
  | _ :: _ => (RS_RET_OK, pModConf1, set_rt m r1)
  end.

Definition activateCnfPrePrivDrop (pModConf : modConfData_t) (m : module_t)
    : rsRetVal * module_t :=
  let m0 := set_runModConf m (Some pModConf) in
  (* the code addListner returns is not looked at *)
  let m1 := fold_left (λ acc inst, (addListner pModConf inst acc).2)
                      (root pModConf) m0 in
  match pOurTcpsrv m1 with
  | None => (RS_RET_NO_RUN, m1)
  | Some srv =>
      let '(iRet, srv1) := tcpsrv ConstructFinalize srv in
      (iRet, set_pOurTcpsrv m1 (Some srv1))
  end.

End Imtcp.

(** ** imtcp.c: the legacy config system *)

Module ImtcpLoad.
Import Imtcp.










Definition set_pPermPeersRoot (m : module_t) (l : list string) : module_t :=
  Module_ (pOurTcpsrv m) l (runModConf m) (rt m).

(** Modelled from the spec: [net.AddPermittedPeer] (net.c) is not among the
    sources; the module holds the permitted peers in an ordered sequence, to
    which the directive appends. *)
Definition AddPermittedPeer (root : list string) (pszID : string)
    : rsRetVal * list string :=
  (RS_RET_OK, root ++ [pszID]).

(** set permitted peer *)
Definition setPermittedPeer (pszID : string) (m : module_t) : rsRetVal * module_t :=
  match AddPermittedPeer (pPermPeersRoot m) pszID with
  | (RS_RET_OK, l) => (RS_RET_OK, set_pPermPeersRoot m l)
  | (iRet, _) => (iRet, m)
  end.

End ImtcpLoad.

(** * Notions the properties are stated with *)

(** ** ruleset.c: the registry *)

(** [name] is registered for the ruleset at [p]: the list of rulesets has an
    entry for [p] whose key equals [name] up to case. *)
Definition registered (rt : runtime_t) (name : string) (p : loc) : Prop :=
  ∃ k, (Some k, p) ∈ llRulesets (conf rt) ∧ strcasecmp name k = 0%Z.

Definition warning_no_actions : logmsg_t :=
  LogMsg 0 NO_ERRCODE "warning: selector line without actions will be discarded" [].

Definition error_no_curr_ruleset : logmsg_t :=
  LogMsg 0 (ErrCode RS_RET_NO_CURR_RULESET)
    "error: currently no specific ruleset specified, thus a queue can not be added to it" [].

Definition error_queue_exists : logmsg_t :=
  LogMsg 0 (ErrCode RS_RET_RULES_QUEUE_EXISTS)
    "error: ruleset already has a main queue, can not add another one" [].

Definition error_parser_unknown (name : string) : logmsg_t :=
  LogMsg 0 (ErrCode RS_RET_PARSER_NOT_FOUND)
    "error: parser '%s' unknown at this time (maybe defined too late in rsyslog.conf?)"
    [name].

(** ** imtcp.c *)

Section ImtcpNotions.
Import Imtcp.

(** The ports the server was told to listen on, in the order of the
    calls. *)
Definition listenPorts (srv : tcpsrv_t) : list (string * bool) :=
  omap (λ c, match c with
             | configureTCPListen port octet => Some (port, octet)
             | _ => None
             end) srv.

Definition finalized (srv : tcpsrv_t) : Prop :=
  ∃ calls, srv = calls ++ [ConstructFinalize].

Definition error_no_listeners : logmsg_t :=
  LogMsg 0 (ErrCode RS_RET_NO_LISTNERS)
    "imtcp: module loaded, but no listeners defined - no input will be gathered" [].

Definition modConf_empty : modConfData_t :=
  ModConfData [] 200 20 0 (-1) false false false false None.

Definition modConf_one : modConfData_t :=
  set_root modConf_empty [InstanceConf "10514" None None None true].

End ImtcpNotions.

(** ** ruleset.c: the batch router *)

Definition rs_of (e : batch_obj_t) : option loc := pRuleset (pUsrp e).
Definition discarded (e : batch_obj_t) : Prop := state e = BATCH_STATE_DISC.
Definition discard (e : batch_obj_t) : batch_obj_t := BatchObj (pUsrp e) BATCH_STATE_DISC.

#[global] Instance discarded_dec e : Decision (discarded e).
Proof. unfold discarded. apply _. Defined.

(** What one partition pass for [curr] does to an element of the batch. *)
Definition mark (curr : option loc) (e : batch_obj_t) : batch_obj_t :=
  if decide (rs_of e = curr) then discard e else e.

(** The number of leading elements that are DISCARDED. *)
Fixpoint discPrefix (l : list batch_obj_t) : nat :=
  match l with
  | e :: l' => if decide (discarded e) then S (discPrefix l') else 0
  | [] => 0
  end.

(** [l] without its leading elements that satisfy [P]. *)
Fixpoint dropWhile {A : Type} (P : A → Prop) `{!∀ x, Decision (P x)}
    (l : list A) : list A :=
  match l with
  | x :: l' => if decide (P x) then dropWhile P l' else l
  | [] => []
  end.

(** The distinct elements of [l] in the order of their first occurrence. *)
Fixpoint firstOcc {A : Type} `{!EqDecision A} (l : list A) : list A :=
  match l with
  | [] => []
  | x :: l' => x :: filter (λ y, y ≠ x) (firstOcc l')
  end.

(** Whether some element of [suf] belongs to another ruleset than [curr]. *)
Definition others (curr : option loc) (suf : list batch_obj_t) : bool :=
  existsb (λ e, bool_decide (rs_of e ≠ curr)) suf.

(** Section 4.7 of the spec in closed form: one sub-batch per ruleset that has
    an element not DISCARDED, in the order those rulesets first occur among
    such elements; the sub-batch of a ruleset holds its elements from the
    first one not DISCARDED on, in the order of the batch; it has room for
    as many elements as the batch holds, is flagged single-ruleset and
    shares the shutdown flag. *)
Definition liveRulesets (l : list batch_obj_t) : list (option loc) :=
  firstOcc (rs_of <$> filter (λ e, ¬ discarded e) l).

Definition subBatchOf (b : batch_t) (r : option loc) : batch_t :=
  Batch (nElem b)
        (dropWhile discarded (filter (λ e, rs_of e = r) (pElem b)))
        true (pbShutdownImmediate b).

Definition subBatches (b : batch_t) : list batch_t :=
  subBatchOf b <$> liveRulesets (pElem b).

(** The batches [subs] handed one after the other to [pb]. *)
Fixpoint feed {W : Type} (pb : batch_t → W → outcome (rsRetVal * batch_t * W))
    (subs : list batch_t) (w : W) : outcome W :=
  match subs with
  | [] => Ret w
  | sb :: rest =>
      match pb sb w with
      | Ret (_, _, w1) => feed pb rest w1
      | Fault => Fault
      | OutOfFuel => OutOfFuel
      end
  end.

(** A [processBatch] that only notes the batch it is handed. *)
Definition record_call (sb : batch_t) (log : list batch_t)
    : outcome (rsRetVal * batch_t * list batch_t) :=
  Ret (RS_RET_OK, sb, log ++ [sb]).

(** The batches [processBatchMultiRuleset] hands to [processBatch] when run
    on [b], in the order of the calls. *)
Definition dispatched (b : batch_t) : list batch_t :=
  match processBatchMultiRuleset record_call b [] with
  | Ret (_, _, log) => log
  | _ => []
  end.

Definition indexed (l : list batch_obj_t) : list (nat * batch_obj_t) :=
  imap (λ i e, (i, e)) l.

Definition subIndexed (l : list batch_obj_t) (r : option loc)
    : list (nat * batch_obj_t) :=
  dropWhile (λ p, discarded p.2) (filter (λ p, rs_of p.2 = r) (indexed l)).

(** The places in the batch of the elements of each sub-batch. *)
Definition subIndices (b : batch_t) : list (list nat) :=
  (λ r, (subIndexed (pElem b) r).*1) <$> liveRulesets (pElem b).

(** A [rule.ProcessBatch] that only notes the rule and the batch it is
    handed. *)
Definition record_rule (r : rule_t) (b : batch_t) (log : list (rule_t * batch_t))
    : rsRetVal * batch_t * list (rule_t * batch_t) :=
  (RS_RET_OK, b, log ++ [(r, b)]).

Section RunRules.
Context {W : Type}.
Variable rule_ProcessBatch : rule_t → batch_t → W → rsRetVal * batch_t * W.

(** The rules applied one after the other, each to the batch as the rule
    before left it. *)
Fixpoint runRules (rules : list rule_t) (b : batch_t) (w : W) : batch_t * W :=
  match rules with
  | [] => (b, w)
  | r :: rest =>
      let '(_, b1, w1) := rule_ProcessBatch r b w in runRules rest b1 w1
  end.

End RunRules.

(** ** Configurations and batches to try the properties on *)

Definition rt_one_ruleset : runtime_t :=
  Runtime (Rulesets [(Some "RSYSLOG_DefaultRuleset", 1)] (Some 1) (Some 1))
          {[ 1 := Ruleset (Some "RSYSLOG_DefaultRuleset") [] None None ]}
          [Parser "rsyslog.rfc5424"] [].

Definition rt_two_rulesets : runtime_t :=
  Runtime (Rulesets [(Some "RSYSLOG_DefaultRuleset", 1); (Some "remote", 2)]
                    (Some 2) (Some 1))
          {[ 1 := Ruleset (Some "RSYSLOG_DefaultRuleset") [] None None;
             2 := Ruleset (Some "remote") [] None None ]}
          [] [].

Definition rt_no_current : runtime_t :=
  Runtime (Rulesets [] None None) ∅ [] [].

Definition rt_with_queue : runtime_t :=
  Runtime (Rulesets [(Some "remote", 1)] (Some 1) (Some 1))
          {[ 1 := Ruleset (Some "remote") [] (Some (Queue "remote")) None ]}
          [] [].

Definition rt_fresh : runtime_t :=
  Runtime (Rulesets [] None None)
          {[ 1 := Ruleset (Some "first") [] None None;
             2 := Ruleset (Some "second") [] None None ]}
          [] [].

Definition rdy (id : nat) (r : option loc) : batch_obj_t :=
  BatchObj (Msg id r) BATCH_STATE_RDY.
Definition disc (id : nat) (r : option loc) : batch_obj_t :=
  BatchObj (Msg id r) BATCH_STATE_DISC.

(** Scenario 5 of the spec: rulesets [A, B, A, B, A]. *)
Definition batch_ABABA : batch_t :=
  Batch 8 [rdy 0 (Some 1); rdy 1 (Some 2); rdy 2 (Some 1); rdy 3 (Some 2);
           rdy 4 (Some 1)] false (Some 7).

(** A batch whose first element is DISCARDED at entry. *)
Definition batch_dABdA : batch_t :=
  Batch 8 [disc 0 (Some 1); rdy 1 (Some 2); rdy 2 (Some 1); disc 3 (Some 2);
           rdy 4 None] false None.

Definition rt_two_rules : runtime_t :=
  Runtime (Rulesets [(Some "RSYSLOG_DefaultRuleset", 1)] (Some 1) (Some 1))
          {[ 1 := Ruleset (Some "RSYSLOG_DefaultRuleset")
                    [(None, Rule [(None, Action "omfile")]);
                     (None, Rule [(None, Action "omfwd"); (None, Action "omfile")])]
                    None None ]}
          [] [].

Definition batch_default : batch_t :=
  Batch 4 [rdy 0 None; rdy 1 None] true None.

(** ** Further notions *)

(** Every pointer the config holds (the entries of the list of rulesets, the
    current and the default ruleset) names a ruleset object. *)
Definition consistent (rt : runtime_t) : Prop :=
  (∀ k p, (k, p) ∈ llRulesets (conf rt) → is_Some (objs rt !! p))
  ∧ (∀ p, pCurr (conf rt) = Some p → is_Some (objs rt !! p))
  ∧ (∀ p, pDflt (conf rt) = Some p → is_Some (objs rt !! p)).

(** The rules [rules] added one after the other, by [addRule], to the
    ruleset [pThis]. *)
Fixpoint addRules (pThis : loc) (rules : list rule_t) (rt : runtime_t)
    : outcome runtime_t :=
  match rules with
  | [] => Ret rt
  | r :: rest =>
      match addRule pThis r rt with
      | Ret (_, _, rt1) => addRules pThis rest rt1
      | Fault => Fault
      | OutOfFuel => OutOfFuel
      end
  end.

(** A rule with at least one action. *)
Definition hasActions (r : rule_t) : Prop := length (llActList r) ≠ 0.

#[global] Instance hasActions_dec r : Decision (hasActions r).
Proof. unfold hasActions. apply _. Defined.

(** The rules of the rulesets in the list [l], in the order of the list and,
    within a ruleset, of its rule list. *)
Definition rulesOf (rt : runtime_t) (l : linkedList_t loc) : list rule_t :=
  p ← l.*2; match objs rt !! p with
            | Some this => (llRules this).*2
            | None => []
            end.

Section VisitRules.
Context {F P W : Type}.
Variable rule_IterateAllActions : rule_t → F → P → W → rsRetVal * W.

(** [rule.IterateAllActions] called on the rules one after the other: the
    state the last call leaves, and the first return code that is not
    [RS_RET_OK], if any. *)
Fixpoint visitRules (pFunc : F) (pParam : P) (rules : list rule_t) (w : W)
    : rsRetVal * W :=
  match rules with
  | [] => (RS_RET_OK, w)
  | r :: rest =>
      let '(iRet, w1) := rule_IterateAllActions r pFunc pParam w in
      let '(iRetRest, w2) := visitRules pFunc pParam rest w1 in
      (if decide (iRet = RS_RET_OK) then iRetRest else iRet, w2)
  end.

End VisitRules.

(** A [rule.IterateAllActions] that only notes the rule it is called on. *)
Definition record_visit {F P : Type} (r : rule_t) (pFunc : F) (pParam : P)
    (log : list rule_t) : rsRetVal * list rule_t :=
  (RS_RET_OK, log ++ [r]).

(** The ruleset a message of ruleset [r] is processed by: [r] itself, the
    default ruleset when [r] is NULL. *)
Definition resolve (rt : runtime_t) (r : option loc) : option loc :=
  match r with
  | Some p => Some p
  | None => pDflt (conf rt)
  end.

(** Its rules, in the order of its rule list. *)
Definition rulesFor (rt : runtime_t) (r : option loc) : list rule_t :=
  match resolve rt r ≫= (objs rt !!.) with
  | Some this => (llRules this).*2
  | None => []
  end.

Section ImtcpCalls.
Import Imtcp.

(** The calls that set a new server up: the five callbacks, the parameters of
    the module config, and the two optional ones when they are configured. *)
Definition initCalls (modConf : modConfData_t) (peers : list string)
    : list tcpsrv_call :=
  [SetCBIsPermittedHost isPermittedHost; SetCBRcvData doRcvData;
   SetCBOpenLstnSocks doOpenLstnSocks; SetCBOnRegularClose onRegularClose;
   SetCBOnErrClose onErrClose;
   SetKeepAlive (bKeepAlive modConf); SetSessMax (iTCPSessMax modConf);
   SetLstnMax (iTCPLstnMax modConf); SetDrvrMode (iStrmDrvrMode modConf);
   SetUseFlowControl (bUseFlowControl modConf);
   SetAddtlFrameDelim (iAddtlFrameDelim modConf);
   SetbDisableLFDelim (bDisableLFDelim modConf);
   SetNotificationOnRemoteClose (bEmitMsgOnClose modConf)]
  ++ match pszStrmDrvrAuthMode modConf with
     | Some mode => [SetDrvrAuthMode mode]
     | None => []
     end
  ++ match peers with
     | _ :: _ => [SetDrvrPermPeers peers]
     | [] => []
     end.

(** The calls that add the listener of one instance. *)
Definition portCalls (inst : instanceConf_t) : list tcpsrv_call :=
  [SetRuleset (pBindRuleset inst);
   SetInputName (default "imtcp" (pszInputName inst));
   configureTCPListen (pszBindPort inst) (bSuppOctetFram inst)].

(** The rulesets the server was handed, in the order of the calls. *)
Definition rulesetsSet (srv : tcpsrv_t) : list (option loc) :=
  omap (λ c, match c with
             | SetRuleset p => Some p
             | _ => None
             end) srv.

(** What [std_checkRuleset] makes of an instance: bound to the ruleset
    registered under its bind-ruleset name, to none when it has no such
    name or the name is not registered. *)
Definition bound (r : runtime_t) (inst : instanceConf_t) : instanceConf_t :=
  set_pBindRuleset inst
    (name ← pszBindRuleset inst;
     match rulesetGetRuleset r name with
     | (RS_RET_OK, p) => p
     | _ => None
     end).

(** An instance whose bind-ruleset name is not registered. *)
Definition unknownRuleset (r : runtime_t) (inst : instanceConf_t) : Prop :=
  ∃ name, pszBindRuleset inst = Some name
          ∧ (rulesetGetRuleset r name).1 ≠ RS_RET_OK.

#[global] Instance unknownRuleset_dec r inst : Decision (unknownRuleset r inst).
Proof.
  unfold unknownRuleset. destruct (pszBindRuleset inst) as [name|].
  - destruct (decide ((rulesetGetRuleset r name).1 = RS_RET_OK)) as [Heq|Hne].
    + right. intros (n & [= <-] & Hn). done.
    + left. by exists name.
  - right. by intros (n & [=] & _).
Defined.

Definition warning_ruleset_not_found (inst : instanceConf_t) : logmsg_t :=
  LogMsg 0 NO_ERRCODE
    "imtcp: ruleset '%s' for port %s not found - using default ruleset instead"
    [default EmptyString (pszBindRuleset inst); pszBindPort inst].

End ImtcpCalls.

Section ImtcpLoadNotions.
Import Imtcp ImtcpLoad.



End ImtcpLoadNotions.

(** The script blocks [ss] added one after the other by [addScript]. *)
Fixpoint addScripts (ss : list loc) (pThis : Script.script_t)
    (stmts : gmap loc Script.cnfstmt)
    : outcome (Script.script_t * gmap loc Script.cnfstmt) :=
  match ss with
  | [] => Ret (pThis, stmts)
  | s :: rest =>
      match Script.addScript pThis (Some s) stmts with
      | Ret (p1, stmts1) => addScripts rest p1 stmts1
      | Fault => Fault
      | OutOfFuel => OutOfFuel
      end
  end.

(** The statements [l] form a chain: the [next] of each is the one after it
    in [l], that of the last is NULL. *)
Fixpoint linked (stmts : gmap loc Script.cnfstmt) (l : list loc) : Prop :=
  match l with
  | [] => True
  | a :: t => stmts !! a = Some (Script.Cnfstmt (head t)) ∧ linked stmts t
  end.

(** ** Further configurations and batches *)

Definition rt_first_registered : runtime_t :=
  Runtime (Rulesets [(Some "First", 1)] (Some 1) (Some 1))
          {[ 1 := Ruleset (Some "First") [] None None;
             2 := Ruleset (Some "first") [] None None ]}
          [] [].

(** A registry entry whose ruleset object is not there. *)
Definition rt_dangling : runtime_t :=
  Runtime (Rulesets [(Some "gone", 3)] None None) ∅ [] [].

(** The module right after [modInit] and one permitted-peer directive. *)
Definition mod_one_peer : Imtcp.module_t :=
  (ImtcpLoad.setPermittedPeer "*.example.net" (Imtcp.modInit rt_no_current)).2.

(** * Properties *)

(** ** The linked list *)

Lemma llFind_not_found {D : Type} (cmpOp : string → string → Z)
    (l : linkedList_t D) (key : string) :
  (∀ k d, (Some k, d) ∈ l → cmpOp key k ≠ 0%Z) →
  llFind cmpOp l key = (RS_RET_NOT_FOUND, None).
Proof.
  induction l as [|[[k|] d] l IH]; intros Hno; simpl; [done| |].
  - destruct (Z.eqb_spec (cmpOp key k) 0) as [Heq|_].
    + exfalso. apply (Hno k d); [left | exact Heq].
    + apply IH. intros k' d' Hin. apply (Hno k' d'). by right.
  - apply IH. intros k' d' Hin. apply (Hno k' d'). by right.
Qed.

Lemma llFind_found {D : Type} (cmpOp : string → string → Z)
    (l : linkedList_t D) (key : string) (d : D) :
  (∃ k, (Some k, d) ∈ l ∧ cmpOp key k = 0%Z) →
  (∀ k d', (Some k, d') ∈ l → cmpOp key k = 0%Z → d' = d) →
  llFind cmpOp l key = (RS_RET_OK, Some d).
Proof.
  induction l as [|[[k|] e] l IH]; intros (k0 & Hin & Hk0) Huniq; simpl.
  - by apply elem_of_nil in Hin.
  - destruct (Z.eqb_spec (cmpOp key k) 0) as [Heq|Hne].
    + f_equal. f_equal. apply (Huniq k e); [left | exact Heq].
    + apply IH.
      * exists k0. split; [|exact Hk0].
        apply elem_of_cons in Hin as [Heq|Hin]; [|exact Hin].
        inversion Heq; subst. contradiction.
      * intros k' d' Hin' Hk'. apply (Huniq k' d'); [by right | exact Hk'].
  - apply IH.
    + exists k0. split; [|exact Hk0].
      apply elem_of_cons in Hin as [Heq|Hin]; [inversion Heq | exact Hin].
    + intros k' d' Hin' Hk'. apply (Huniq k' d'); [by right | exact Hk'].
Qed.

Lemma llExecFunc_app {D P S : Type} (l1 l2 : linkedList_t D)
    (f : D → P → S → rsRetVal * P * S) (p : P) (s : S) :
  (llExecFunc (l1 ++ l2) f p s).1.2 =
    (llExecFunc l2 f (llExecFunc l1 f p s).1.2 (llExecFunc l1 f p s).2).1.2
  ∧ (llExecFunc (l1 ++ l2) f p s).2 =
    (llExecFunc l2 f (llExecFunc l1 f p s).1.2 (llExecFunc l1 f p s).2).2.
Proof.
  revert p s. induction l1 as [|[k d] l1 IH]; intros p s; simpl; [done|].
  destruct (f d p s) as [[iRet p1] s1] eqn:Hf.
  specialize (IH p1 s1).
  destruct (llExecFunc (l1 ++ l2) f p1 s1) as [[iR2 p2] s2].
  destruct (llExecFunc l1 f p1 s1) as [[iR3 p3] s3]. simpl in *.
  exact IH.
Qed.

(** ** ruleset.c: the registry *)

(** C4. For every ruleset and every rule whose action list is empty, addRule
    emits a warning, does not append the rule and leaves the ruleset's rule
    list (indeed every ruleset object and the registry) unchanged; a rule
    with at least one action is appended at the end of the rule list, and
    nothing is logged. *)
Theorem addRule_discards_or_appends (rt : runtime_t) (pThis : loc)
    (this : ruleset_t) (pRule : rule_t) :
  objs rt !! pThis = Some this →
  (llActList pRule = [] →
     ∃ rt', addRule pThis pRule rt = Ret (RS_RET_OK, None, rt')
       ∧ errlog rt' = errlog rt ++ [warning_no_actions]
       ∧ objs rt' = objs rt ∧ conf rt' = conf rt)
  ∧ (llActList pRule ≠ [] →
     ∃ rt' this', addRule pThis pRule rt = Ret (RS_RET_OK, Some pRule, rt')
       ∧ objs rt' !! pThis = Some this'
       ∧ llRules this' = llRules this ++ [(None, pRule)]
       ∧ pszName this' = pszName this ∧ pQueue this' = pQueue this
       ∧ pParserLst this' = pParserLst this
       ∧ (∀ q, q ≠ pThis → objs rt' !! q = objs rt !! q)
       ∧ errlog rt' = errlog rt ∧ conf rt' = conf rt).
Proof.
  intros Hthis. unfold addRule. rewrite Hthis. simpl. split.
  - intros Hnil. rewrite Hnil. simpl. eexists. split; [reflexivity|]. done.
  - intros Hne. destruct (llActList pRule) as [|a l] eqn:Hl; [done|]. simpl.
    eexists _, _. split; [reflexivity|]. simpl.
    split; [apply lookup_insert_eq|].
    repeat split; try done.
    intros q Hq. by apply lookup_insert_ne.
Qed.

Lemma addRule_discards_or_appends_witness :
  (∃ rt', addRule 1 (Rule []) rt_one_ruleset = Ret (RS_RET_OK, None, rt')
     ∧ errlog rt' = [warning_no_actions]
     ∧ objs rt' = objs rt_one_ruleset ∧ conf rt' = conf rt_one_ruleset)
  ∧ (∃ rt' this',
       addRule 1 (Rule [(None, Action "omfile")]) rt_one_ruleset
         = Ret (RS_RET_OK, Some (Rule [(None, Action "omfile")]), rt')
       ∧ objs rt' !! 1 = Some this'
       ∧ llRules this' = [(None, Rule [(None, Action "omfile")])]).
Proof.
  split.
  - destruct (addRule_discards_or_appends rt_one_ruleset 1
               (Ruleset (Some "RSYSLOG_DefaultRuleset") [] None None) (Rule []))
      as [H _]; [reflexivity|].
    apply H. reflexivity.
  - destruct (addRule_discards_or_appends rt_one_ruleset 1
               (Ruleset (Some "RSYSLOG_DefaultRuleset") [] None None)
               (Rule [(None, Action "omfile")]))
      as [_ H]; [reflexivity|].
    destruct H as (rt' & this' & H1 & H2 & H3 & _); [discriminate|].
    exists rt', this'. auto.
Defined.

(** C5. For every name not present in the ruleset registry, SetDefaultRuleset
    and SetCurrRuleset are silent no-ops: they hand back the runtime as it
    was (default and current pointer, registry, objects, error log).  For a
    name that is present, the pointer is set to the unique ruleset of that
    name and nothing else changes. *)
Theorem SetRuleset_by_name (rt : runtime_t) (name : string) :
  ((∀ p, ¬ registered rt name p) →
     (SetDefaultRuleset name rt).2 = rt ∧ (SetCurrRuleset name rt).2 = rt)
  ∧ (∀ p, registered rt name p → (∀ q, registered rt name q → q = p) →
     SetDefaultRuleset name rt
       = (RS_RET_OK, Runtime (Rulesets (llRulesets (conf rt)) (pCurr (conf rt)) (Some p))
                             (objs rt) (parserRoot rt) (errlog rt))
     ∧ SetCurrRuleset name rt
       = (RS_RET_OK, Runtime (Rulesets (llRulesets (conf rt)) (Some p) (pDflt (conf rt)))
                             (objs rt) (parserRoot rt) (errlog rt))).
Proof.
  split.
  - intros Hno.
    assert (rulesetGetRuleset rt name = (RS_RET_NOT_FOUND, None)) as Hfind.
    { apply llFind_not_found. intros k d Hin Hk. apply (Hno d). by exists k. }
    unfold SetDefaultRuleset, SetCurrRuleset. by rewrite Hfind.
  - intros p Hreg Huniq.
    assert (rulesetGetRuleset rt name = (RS_RET_OK, Some p)) as Hfind.
    { apply llFind_found; [exact Hreg|].
      intros k d Hin Hk. apply Huniq. by exists k. }
    unfold SetDefaultRuleset, SetCurrRuleset. by rewrite Hfind.
Qed.

Lemma registered_remote q : registered rt_two_rulesets "REMOTE" q → q = 2.
Proof.
  intros (k & Hin & Hk). cbn in Hin.
  apply elem_of_cons in Hin as [Heq|Hin].
  { inversion Heq; subst. vm_compute in Hk. discriminate. }
  apply elem_of_cons in Hin as [Heq|Hin]; [by inversion Heq|].
  by apply elem_of_nil in Hin.
Defined.

Lemma registered_none q : ¬ registered rt_two_rulesets "local" q.
Proof.
  intros (k & Hin & Hk). cbn in Hin.
  apply elem_of_cons in Hin as [Heq|Hin].
  { inversion Heq; subst. vm_compute in Hk. discriminate. }
  apply elem_of_cons in Hin as [Heq|Hin].
  { inversion Heq; subst. vm_compute in Hk. discriminate. }
  by apply elem_of_nil in Hin.
Defined.

Lemma SetRuleset_by_name_witness :
  ((SetDefaultRuleset "local" rt_two_rulesets).2 = rt_two_rulesets
   ∧ (SetCurrRuleset "local" rt_two_rulesets).2 = rt_two_rulesets)
  ∧ pDflt (conf (SetDefaultRuleset "REMOTE" rt_two_rulesets).2) = Some 2
  ∧ pCurr (conf (SetCurrRuleset "REMOTE" rt_two_rulesets).2) = Some 2.
Proof.
  split.
  - apply (proj1 (SetRuleset_by_name rt_two_rulesets "local")).
    exact registered_none.
  - destruct (proj2 (SetRuleset_by_name rt_two_rulesets "REMOTE") 2) as [Hd Hc].
    + exists "remote". split; [|reflexivity]. cbn. right. left.
    + exact registered_remote.
    + rewrite Hd, Hc. split; reflexivity.
Defined.

(** C6. doRulesetCreateQueue fails with RS_RET_NO_CURR_RULESET when no current
    ruleset is set and with RS_RET_RULES_QUEUE_EXISTS when the current
    ruleset already owns a queue; in both cases the error is logged and
    every ruleset object (so the current ruleset's queue field) and the
    registry stay as they were.  Otherwise a queue is constructed for the
    current ruleset exactly when the directive value is not 0; with the
    value 0 nothing changes. *)
Theorem doRulesetCreateQueue_cases (rt : runtime_t) (pNewVal : Z) :
  (pCurr (conf rt) = None →
     ∃ rt', doRulesetCreateQueue pNewVal rt = Ret (RS_RET_NO_CURR_RULESET, rt')
       ∧ objs rt' = objs rt ∧ conf rt' = conf rt
       ∧ errlog rt' = errlog rt ++ [error_no_curr_ruleset])
  ∧ (∀ p cur q, pCurr (conf rt) = Some p → objs rt !! p = Some cur →
     pQueue cur = Some q →
     ∃ rt', doRulesetCreateQueue pNewVal rt = Ret (RS_RET_RULES_QUEUE_EXISTS, rt')
       ∧ objs rt' = objs rt ∧ conf rt' = conf rt
       ∧ errlog rt' = errlog rt ++ [error_queue_exists])
  ∧ (∀ p cur, pCurr (conf rt) = Some p → objs rt !! p = Some cur →
     pQueue cur = None →
     (pNewVal = 0%Z → doRulesetCreateQueue pNewVal rt = Ret (RS_RET_OK, rt))
     ∧ (pNewVal ≠ 0%Z →
        ∃ rt' cur' q, doRulesetCreateQueue pNewVal rt = Ret (RS_RET_OK, rt')
          ∧ objs rt' !! p = Some cur' ∧ pQueue cur' = Some q
          ∧ pszName cur' = pszName cur ∧ llRules cur' = llRules cur
          ∧ pParserLst cur' = pParserLst cur
          ∧ (∀ a, a ≠ p → objs rt' !! a = objs rt !! a)
          ∧ conf rt' = conf rt ∧ errlog rt' = errlog rt)).
Proof.
  unfold doRulesetCreateQueue. split; [|split].
  - intros ->. eexists. split; [reflexivity|]. done.
  - intros p cur q -> -> ->. eexists. split; [reflexivity|]. done.
  - intros p cur -> -> ->. split.
    + intros ->. reflexivity.
    + intros Hne. destruct (decide (pNewVal = 0%Z)) as [|_]; [done|]. simpl.
      eexists _, _, _. split; [reflexivity|]. simpl.
      split; [apply lookup_insert_eq|].
      repeat split; try done.
      intros a Ha. by apply lookup_insert_ne.
Qed.

Lemma doRulesetCreateQueue_cases_witness :
  (∃ rt', doRulesetCreateQueue 1 rt_no_current = Ret (RS_RET_NO_CURR_RULESET, rt')
     ∧ objs rt' = objs rt_no_current)
  ∧ (∃ rt', doRulesetCreateQueue 1 rt_with_queue = Ret (RS_RET_RULES_QUEUE_EXISTS, rt')
     ∧ objs rt' = objs rt_with_queue)
  ∧ doRulesetCreateQueue 0 rt_one_ruleset = Ret (RS_RET_OK, rt_one_ruleset)
  ∧ (∃ rt' cur' q, doRulesetCreateQueue 1 rt_one_ruleset = Ret (RS_RET_OK, rt')
     ∧ objs rt' !! 1 = Some cur' ∧ pQueue cur' = Some q).
Proof.
  split; [|split; [|split]].
  - destruct (proj1 (doRulesetCreateQueue_cases rt_no_current 1))
      as (rt' & H1 & H2 & _); [reflexivity|]. by exists rt'.
  - destruct (proj1 (proj2 (doRulesetCreateQueue_cases rt_with_queue 1))
               1 (Ruleset (Some "remote") [] (Some (Queue "remote")) None)
               (Queue "remote"))
      as (rt' & H1 & H2 & _); [reflexivity ..|]. by exists rt'.
  - apply (proj2 (proj2 (doRulesetCreateQueue_cases rt_one_ruleset 0))
             1 (Ruleset (Some "RSYSLOG_DefaultRuleset") [] None None));
      reflexivity.
  - destruct (proj2 (proj2 (doRulesetCreateQueue_cases rt_one_ruleset 1))
               1 (Ruleset (Some "RSYSLOG_DefaultRuleset") [] None None))
      as [_ H]; [reflexivity ..|].
    destruct H as (rt' & cur' & q & H1 & H2 & H3 & _); [discriminate|].
    by exists rt', cur', q.
Defined.

Lemma FindParser_unknown (root : list parser_t) (name : string) :
  (∀ p, p ∈ root → pName p ≠ name) →
  FindParser root name = (RS_RET_PARSER_NOT_FOUND, None).
Proof.
  induction root as [|p root IH]; intros Hno; simpl; [done|].
  destruct (decide (pName p = name)) as [Heq|_].
  - exfalso. apply (Hno p); [left | exact Heq].
  - apply IH. intros q Hq. apply Hno. by right.
Qed.

(** C7. What doRulesetAddParser does for a parser name that is not
    registered: it logs the error under the code RS_RET_PARSER_NOT_FOUND and
    leaves the current ruleset's parser list (every ruleset object and the
    registry) unchanged, but the code it returns is RS_RET_NO_CURR_RULESET,
    not RS_RET_PARSER_NOT_FOUND. *)
Theorem doRulesetAddParser_unknown_parser (rt : runtime_t) (name : string) (p : loc) :
  pCurr (conf rt) = Some p →
  (∀ q, q ∈ parserRoot rt → pName q ≠ name) →
  ∃ rt', doRulesetAddParser name rt = Ret (RS_RET_NO_CURR_RULESET, rt')
    ∧ errlog rt' = errlog rt ++ [error_parser_unknown name]
    ∧ objs rt' = objs rt ∧ conf rt' = conf rt
    ∧ RS_RET_NO_CURR_RULESET ≠ RS_RET_PARSER_NOT_FOUND.
Proof.
  intros Hcur Hno. unfold doRulesetAddParser. rewrite Hcur. simpl.
  rewrite (FindParser_unknown _ _ Hno). eexists. split; [reflexivity|]. done.
Qed.

Lemma doRulesetAddParser_unknown_parser_witness :
  ∃ rt', doRulesetAddParser "rsyslog.nosuch" rt_one_ruleset
           = Ret (RS_RET_NO_CURR_RULESET, rt')
    ∧ errlog rt' = [error_parser_unknown "rsyslog.nosuch"]
    ∧ objs rt' = objs rt_one_ruleset.
Proof.
  destruct (doRulesetAddParser_unknown_parser rt_one_ruleset "rsyslog.nosuch" 1)
    as (rt' & H1 & H2 & H3 & _).
  - reflexivity.
  - intros q Hq. cbn in Hq. apply list_elem_of_singleton in Hq. by subst.
  - by exists rt'.
Defined.

(** A registered parser is added to the current ruleset's list. *)
Lemma doRulesetAddParser_known :
  ∃ rt' cur', doRulesetAddParser "rsyslog.rfc5424" rt_one_ruleset = Ret (RS_RET_OK, rt')
    ∧ objs rt' !! 1 = Some cur'
    ∧ pParserLst cur' = Some [Parser "rsyslog.rfc5424"].
Proof. eexists _, _. split; [reflexivity|]. split; reflexivity. Qed.

(** C8. For every config and every ruleset object r with a name,
    rulesetConstructFinalize appends r (keyed by its name) to the registry,
    makes r the current ruleset, makes r the default ruleset if no default
    was set, and leaves a default that was set as it is: the default is the
    first ruleset finalized and no later finalize overwrites it. *)
Theorem rulesetConstructFinalize_registers (rt : runtime_t) (pThis : loc)
    (this : ruleset_t) (name : string) :
  objs rt !! pThis = Some this →
  pszName this = Some name →
  ∃ rt', rulesetConstructFinalize pThis rt = Ret (RS_RET_OK, rt')
    ∧ llRulesets (conf rt') = llRulesets (conf rt) ++ [(Some name, pThis)]
    ∧ pCurr (conf rt') = Some pThis
    ∧ (pDflt (conf rt) = None → pDflt (conf rt') = Some pThis)
    ∧ (pDflt (conf rt) ≠ None → pDflt (conf rt') = pDflt (conf rt))
    ∧ pDflt (conf rt') ≠ None
    ∧ objs rt' = objs rt ∧ errlog rt' = errlog rt.
Proof.
  intros Hthis Hname. unfold rulesetConstructFinalize, ustrdup.
  rewrite Hthis, Hname. simpl.
  eexists. split; [reflexivity|].
  destruct (pDflt (conf rt)) as [d|] eqn:Hd; simpl; rewrite ?Hd;
    repeat split; try done.
Qed.

Lemma rulesetConstructFinalize_registers_witness :
  ∃ rt1 rt2,
    rulesetConstructFinalize 1 rt_fresh = Ret (RS_RET_OK, rt1)
    ∧ rulesetConstructFinalize 2 rt1 = Ret (RS_RET_OK, rt2)
    ∧ llRulesets (conf rt2) = [(Some "first", 1); (Some "second", 2)]
    ∧ pCurr (conf rt1) = Some 1 ∧ pCurr (conf rt2) = Some 2
    ∧ pDflt (conf rt1) = Some 1 ∧ pDflt (conf rt2) = Some 1.
Proof.
  destruct (rulesetConstructFinalize_registers rt_fresh 1
              (Ruleset (Some "first") [] None None) "first")
    as (rt1 & E1 & L1 & C1 & D1 & _ & N1 & O1 & _); [reflexivity ..|].
  destruct (rulesetConstructFinalize_registers rt1 2
              (Ruleset (Some "second") [] None None) "second")
    as (rt2 & E2 & L2 & C2 & _ & D2 & _); [by rewrite O1 | reflexivity |].
  exists rt1, rt2. repeat split; try assumption.
  - by rewrite L2, L1.
  - by apply D1.
  - rewrite (D2 N1). by apply D1.
Defined.

(** ** imtcp.c *)

Section ImtcpFacts.
Import Imtcp.

Lemma listenPorts_app (s1 s2 : tcpsrv_t) :
  listenPorts (s1 ++ s2) = listenPorts s1 ++ listenPorts s2.
Proof. apply omap_app. Qed.

Lemma addListner_init_ok (modConf : modConfData_t) (peers : list string)
    (srv : tcpsrv_t) :
  ∃ calls, addListner_init modConf peers srv = (RS_RET_OK, srv ++ calls)
    ∧ listenPorts calls = [].
Proof.
  unfold addListner_init, CHKiRet, tcpsrv, skip.
  destruct (pszStrmDrvrAuthMode modConf), peers; simpl;
    rewrite <- ?(assoc_L (++)); simpl; eexists; (split; [reflexivity|]);
    reflexivity.
Qed.

Lemma addListner_port_ok (inst : instanceConf_t) (srv : tcpsrv_t) :
  addListner_port inst srv =
    (RS_RET_OK, srv ++ [SetRuleset (pBindRuleset inst);
                        SetInputName (default "imtcp" (pszInputName inst));
                        configureTCPListen (pszBindPort inst) (bSuppOctetFram inst)]).
Proof.
  unfold addListner_port, CHKiRet, tcpsrv. simpl.
  by rewrite <- !(assoc_L (++)).
Qed.

(** [addListner] leaves a server behind, with one more port. *)
Lemma addListner_ok (modConf : modConfData_t) (inst : instanceConf_t)
    (m : module_t) :
  ∃ srv, addListner modConf inst m = (RS_RET_OK, set_pOurTcpsrv m (Some srv))
    ∧ listenPorts srv
      = listenPorts (default [] (pOurTcpsrv m))
          ++ [(pszBindPort inst, bSuppOctetFram inst)].
Proof.
  unfold addListner. destruct (pOurTcpsrv m) as [srv0|] eqn:Hsrv.
  - rewrite addListner_port_ok. simpl. eexists. split; [reflexivity|].
    by rewrite listenPorts_app.
  - unfold tcpsrv_Construct, CHKiRet at 1.
    destruct (addListner_init_ok modConf (pPermPeersRoot m) []) as (calls & -> & Hp).
    rewrite addListner_port_ok. simpl. eexists. split; [reflexivity|].
    by rewrite listenPorts_app, Hp.
Qed.

Lemma addListner_fold (modConf : modConfData_t) (insts : list instanceConf_t)
    (m : module_t) :
  insts ≠ [] →
  ∃ srv, fold_left (λ acc inst, (addListner modConf inst acc).2) insts m
           = set_pOurTcpsrv m (Some srv)
    ∧ listenPorts srv
      = listenPorts (default [] (pOurTcpsrv m))
          ++ map (λ i, (pszBindPort i, bSuppOctetFram i)) insts.
Proof.
  revert m. induction insts as [|inst insts IH]; intros m Hne; [done|].
  simpl. destruct (addListner_ok modConf inst m) as (srv1 & -> & Hp1). simpl.
  destruct insts as [|inst2 insts].
  - simpl. by exists srv1.
  - destruct (IH (set_pOurTcpsrv m (Some srv1))) as (srv & -> & Hp); [done|].
    exists srv. split; [done|].
    rewrite Hp. simpl. rewrite Hp1. by rewrite <- (assoc_L (++)).
Qed.

Lemma checkCnf_empty (pModConf : modConfData_t) (m : module_t) :
  root pModConf = [] →
  ∃ m', checkCnf pModConf m = (RS_RET_NO_LISTNERS, pModConf, m')
    ∧ errlog (rt m') = errlog (rt m) ++ [error_no_listeners]
    ∧ pOurTcpsrv m' = pOurTcpsrv m.
Proof.
  intros Hroot. unfold checkCnf. rewrite Hroot. simpl.
  eexists. split.
  - f_equal. f_equal. destruct pModConf; simpl in *; by subst.
  - done.
Qed.

Lemma activateCnfPrePrivDrop_empty (pModConf : modConfData_t) (m : module_t) :
  root pModConf = [] → pOurTcpsrv m = None →
  ∃ m', activateCnfPrePrivDrop pModConf m = (RS_RET_NO_RUN, m')
    ∧ pOurTcpsrv m' = None ∧ rt m' = rt m.
Proof.
  intros Hroot Hsrv. unfold activateCnfPrePrivDrop. rewrite Hroot. simpl.
  rewrite Hsrv. eexists. split; [reflexivity|]. done.
Qed.

(** C9. For every module config with an empty list of listener
    instances, activation fails with the no-listeners error and no TCP
    server is constructed: the config check (checkCnf) logs and returns
    the no-listeners code RS_RET_NO_LISTNERS, and the activation proper
    (activateCnfPrePrivDrop, no server being there yet) leaves through
    the branch taken when no server exists after the instance loop,
    which aborts with RS_RET_NO_RUN, constructs no TCP server and logs
    nothing more; this holds for the two run one after the other as
    well.  With at least one instance, activation constructs a server,
    tells it the port of every instance in order, finalizes it and
    succeeds. *)
Theorem activation_without_and_with_listeners (pModConf : modConfData_t)
    (m : module_t) :
  (root pModConf = [] →
     ∃ m', checkCnf pModConf m = (RS_RET_NO_LISTNERS, pModConf, m')
       ∧ errlog (rt m') = errlog (rt m) ++ [error_no_listeners]
       ∧ pOurTcpsrv m' = pOurTcpsrv m)
  ∧ (root pModConf = [] → pOurTcpsrv m = None →
     ∃ m', activateCnfPrePrivDrop pModConf m = (RS_RET_NO_RUN, m')
       ∧ pOurTcpsrv m' = None ∧ rt m' = rt m)
  ∧ (root pModConf = [] → pOurTcpsrv m = None →
     ∃ m1 m2, checkCnf pModConf m = (RS_RET_NO_LISTNERS, pModConf, m1)
       ∧ activateCnfPrePrivDrop pModConf m1 = (RS_RET_NO_RUN, m2)
       ∧ pOurTcpsrv m2 = None
       ∧ errlog (rt m2) = errlog (rt m) ++ [error_no_listeners])
  ∧ (root pModConf ≠ [] → pOurTcpsrv m = None →
     ∃ m' srv, activateCnfPrePrivDrop pModConf m = (RS_RET_OK, m')
       ∧ pOurTcpsrv m' = Some srv ∧ finalized srv
       ∧ listenPorts srv
         = map (λ i, (pszBindPort i, bSuppOctetFram i)) (root pModConf)).
Proof.
  split; [|split; [|split]].
  - apply checkCnf_empty.
  - apply activateCnfPrePrivDrop_empty.
  - intros Hroot Hsrv.
    destruct (checkCnf_empty pModConf m Hroot) as (m1 & Hchk & Hlog & Hsrv1).
    destruct (activateCnfPrePrivDrop_empty pModConf m1 Hroot)
      as (m2 & Hact & Hnone & Hrt); [by rewrite Hsrv1|].
    exists m1, m2. split; [done|]. split; [done|]. split; [done|].
    by rewrite Hrt.
  - intros Hroot Hsrv. unfold activateCnfPrePrivDrop.
    destruct (addListner_fold pModConf (root pModConf)
                (set_runModConf m (Some pModConf)) Hroot) as (srv & -> & Hp).
    simpl in *. rewrite Hsrv in Hp. simpl in Hp.
    eexists _, _. split; [reflexivity|]. simpl.
    split; [reflexivity|]. split; [by exists srv|].
    rewrite listenPorts_app, Hp. simpl. by rewrite (right_id_L [] (++)).
Qed.

Lemma activation_without_and_with_listeners_witness :
  (∃ m', checkCnf modConf_empty (modInit rt_no_current)
           = (RS_RET_NO_LISTNERS, modConf_empty, m')
     ∧ errlog (rt m') = [error_no_listeners])
  ∧ (∃ m', activateCnfPrePrivDrop modConf_empty (modInit rt_no_current)
             = (RS_RET_NO_RUN, m')
       ∧ pOurTcpsrv m' = None)
  ∧ (∃ m1 m2, checkCnf modConf_empty (modInit rt_no_current)
                = (RS_RET_NO_LISTNERS, modConf_empty, m1)
       ∧ activateCnfPrePrivDrop modConf_empty m1 = (RS_RET_NO_RUN, m2)
       ∧ pOurTcpsrv m2 = None
       ∧ errlog (rt m2) = [error_no_listeners])
  ∧ (∃ m' srv, activateCnfPrePrivDrop modConf_one (modInit rt_no_current)
                 = (RS_RET_OK, m')
       ∧ pOurTcpsrv m' = Some srv ∧ finalized srv
       ∧ listenPorts srv = [("10514", true)]).
Proof.
  pose proof (activation_without_and_with_listeners modConf_empty
                (modInit rt_no_current)) as (H1 & H2 & H3 & _).
  pose proof (activation_without_and_with_listeners modConf_one
                (modInit rt_no_current)) as (_ & _ & _ & H4).
  split; [|split; [|split]].
  - destruct H1 as (m' & Hc & Hl & _); [reflexivity|]. by exists m'.
  - destruct H2 as (m' & Ha & Hn & _); [reflexivity ..|]. by exists m'.
  - destruct H3 as (m1 & m2 & Hc & Ha & Hn & Hl); [reflexivity ..|].
    by exists m1, m2.
  - destruct H4 as (m' & srv & Ha & Hs & Hf & Hp);
      [discriminate | reflexivity |]. by exists m', srv.
Defined.

End ImtcpFacts.

(** ** ruleset.c: the batch router *)

(** *** Lists of batch elements *)

Lemma discard_discarded e : discarded e → discard e = e.
Proof. destruct e as [u s]. unfold discarded, discard. simpl. by intros ->. Qed.

Lemma copy_eq e : BatchObj (pUsrp e) (state e) = e.
Proof. by destruct e. Qed.

Lemma mark_rs curr e : rs_of (mark curr e) = rs_of e.
Proof. unfold mark. by destruct (decide _). Qed.

Lemma mark_discarded curr e : discarded e → mark curr e = e.
Proof. intros H. unfold mark. destruct (decide _); [by apply discard_discarded|done]. Qed.

Lemma discard_mark curr e : discard (mark curr e) = discard e.
Proof. unfold mark. by destruct (decide _). Qed.

Lemma set_pElem_id b : set_pElem b (pElem b) = b.
Proof. by destruct b. Qed.

Lemma set_pElem_twice b l1 l2 : set_pElem (set_pElem b l1) l2 = set_pElem b l2.
Proof. done. Qed.

(** [discPrefix] splits the list into DISCARDED elements and a rest that is
    empty or starts with an element still to be processed. *)
Lemma discPrefix_split l :
  ∃ pre suf, l = pre ++ suf ∧ length pre = discPrefix l ∧ Forall discarded pre
    ∧ (suf = [] ∨ ∃ e0 rest, suf = e0 :: rest ∧ ¬ discarded e0).
Proof.
  induction l as [|e l (pre & suf & -> & Hlen & Hpre & Hsuf)].
  - exists [], []. simpl. auto.
  - simpl. destruct (decide (discarded e)) as [Hd|Hd].
    + exists (e :: pre), suf. simpl. rewrite Hlen. auto.
    + exists [], (e :: pre ++ suf). simpl. repeat split; auto.
      right. by exists e, (pre ++ suf).
Qed.

(** *** The two inner loops *)

Lemma searchUnprocessed_spec (b : batch_t) (n i : nat) :
  (nElem b ≤ n + i)%nat →
  searchUnprocessed n b i = (i + discPrefix (drop i (pElem b)))%nat.
Proof.
  unfold nElem. revert i. induction n as [|n IH]; intros i Hn; simpl.
  - rewrite drop_ge by lia. simpl. lia.
  - destruct (pElem b !! i) as [e|] eqn:He.
    + rewrite (drop_S _ _ _ He). simpl.
      destruct (decide (state e = BATCH_STATE_DISC)) as [Hd|Hd];
        destruct (decide (discarded e)) as [Hd'|Hd']; try done; try lia.
      rewrite IH by lia. lia.
    + apply lookup_ge_None in He. rewrite drop_ge by lia. simpl. lia.
Qed.

Lemma partitionLoop_spec (curr : option loc) (suf pre : list batch_obj_t)
    (n : nat) (b s : batch_t) (h : bool) :
  pElem b = pre ++ suf → (length suf ≤ n)%nat →
  partitionLoop n curr (length pre) b s h =
    Ret (set_pElem b (pre ++ (mark curr <$> suf)),
         set_pElem s (pElem s ++ filter (λ e, rs_of e = curr) suf),
         h || others curr suf).
Proof.
  revert pre n b s h. induction suf as [|e suf IH]; intros pre n b s h Hb Hn.
  - simpl. rewrite filter_nil. rewrite !(right_id_L [] (++)) in *. rewrite <- Hb.
    rewrite !set_pElem_id, orb_false_r.
    destruct n as [|n]; simpl; [done|].
    rewrite lookup_ge_None_2; done.
  - destruct n as [|n]; simpl in Hn; [lia|]. simpl.
    unfold batchElemGetRuleset. rewrite Hb, list_lookup_middle by done. simpl.
    fold (rs_of e). unfold mark at 1.
    destruct (decide (rs_of e = curr)) as [Heq|Hne].
    + rewrite filter_cons_True by done.
      assert (S (length pre) = length (pre ++ [discard e])) as ->
        by (rewrite length_app; simpl; lia).
      rewrite (IH (pre ++ [discard e]) n); cycle 1.
      * simpl. rewrite insert_app_r_alt, Nat.sub_diag by done. simpl.
        by rewrite <- (assoc_L (++)).
      * lia.
      * rewrite !set_pElem_twice. simpl. rewrite copy_eq.
        rewrite <- !(assoc_L (++)). simpl.
        rewrite bool_decide_eq_false_2 by (intros ?; done). done.
    + rewrite filter_cons_False by done.
      assert (S (length pre) = length (pre ++ [e])) as ->
        by (rewrite length_app; simpl; lia).
      rewrite (IH (pre ++ [e]) n b s true); cycle 1.
      * by rewrite Hb, <- (assoc_L (++)).
      * lia.
      * rewrite <- !(assoc_L (++)). simpl.
        rewrite bool_decide_eq_true_2 by done. by rewrite orb_true_r.
Qed.

(** *** First occurrences and leading elements *)

Section ListFacts.
Context {A : Type} `{!EqDecision A}.

Lemma firstOcc_elem_of (l : list A) (x : A) : x ∈ firstOcc l ↔ x ∈ l.
Proof.
  induction l as [|y l IH]; simpl; [done|].
  rewrite !elem_of_cons, list_elem_of_filter, IH.
  destruct (decide (x = y)) as [Heq|Hne]; [by split; left|].
  split.
  - intros [Hx|[_ Hx]]; [by left | by right].
  - intros [Hx|Hx]; [by left | by right].
Qed.

Lemma NoDup_firstOcc (l : list A) : NoDup (firstOcc l).
Proof.
  induction l as [|y l IH]; simpl; [constructor|].
  constructor.
  - rewrite list_elem_of_filter. by intros [Hy _].
  - by apply NoDup_filter.
Qed.

Lemma filter_comm (P Q : A → Prop) `{!∀ x, Decision (P x)}
    `{!∀ x, Decision (Q x)} (l : list A) :
  filter P (filter Q l) = filter Q (filter P l).
Proof.
  induction l as [|y l IH]; [done|].
  rewrite !filter_cons.
  destruct (decide (Q y)), (decide (P y)); rewrite ?filter_cons;
    repeat (destruct (decide _); try done); by rewrite IH.
Qed.

Lemma filter_all (P : A → Prop) `{!∀ x, Decision (P x)} (l : list A) :
  Forall P l → filter P l = l.
Proof.
  induction 1 as [|y l Hy Hl IH]; [done|].
  by rewrite filter_cons_True, IH.
Qed.

Lemma filter_none (P : A → Prop) `{!∀ x, Decision (P x)} (l : list A) :
  Forall (λ x, ¬ P x) l → filter P l = [].
Proof.
  induction 1 as [|y l Hy Hl IH]; [done|].
  by rewrite filter_cons_False.
Qed.

Lemma firstOcc_filter (P : A → Prop) `{!∀ x, Decision (P x)} (l : list A) :
  firstOcc (filter P l) = filter P (firstOcc l).
Proof.
  induction l as [|y l IH]; [done|].
  rewrite filter_cons. destruct (decide (P y)) as [Hy|Hy]; simpl.
  - rewrite filter_cons_True by done. f_equal.
    rewrite IH. apply filter_comm.
  - rewrite filter_cons_False by done.
    rewrite filter_comm, <- IH.
    symmetry. apply filter_all. apply Forall_forall.
    intros x Hx ->. apply firstOcc_elem_of, list_elem_of_filter in Hx.
    by destruct Hx as [Hp _].
Qed.

Lemma dropWhile_elem_of (P : A → Prop) `{!∀ x, Decision (P x)}
    (l : list A) (x : A) :
  x ∈ l → ¬ P x → x ∈ dropWhile P l.
Proof.
  induction l as [|y l IH]; intros Hx Hnp; simpl; [done|].
  destruct (decide (P y)) as [Hy|Hy]; [|done].
  apply elem_of_cons in Hx as [->|Hx]; [done|]. by apply IH.
Qed.

Lemma dropWhile_sublist (P : A → Prop) `{!∀ x, Decision (P x)} (l : list A) :
  dropWhile P l `sublist_of` l.
Proof.
  induction l as [|y l IH]; simpl; [done|].
  destruct (decide (P y)); [by apply sublist_cons | done].
Qed.

Lemma dropWhile_app (P : A → Prop) `{!∀ x, Decision (P x)}
    (pre : list A) (x : A) (rest : list A) :
  Forall P pre → ¬ P x → dropWhile P (pre ++ x :: rest) = x :: rest.
Proof.
  induction 1 as [|y l Hy Hl IH]; intros Hx; simpl.
  - by destruct (decide (P x)).
  - destruct (decide (P y)); [by apply IH | done].
Qed.

Lemma dropWhile_all (P : A → Prop) `{!∀ x, Decision (P x)} (l : list A) :
  Forall P l → dropWhile P l = [].
Proof.
  induction 1 as [|y l Hy Hl IH]; simpl; [done|].
  by destruct (decide (P y)).
Qed.

End ListFacts.

Lemma dropWhile_fmap {A B : Type} (f : A → B) (P : B → Prop)
    `{!∀ y, Decision (P y)} (l : list A) :
  f <$> dropWhile (λ x, P (f x)) l = dropWhile P (f <$> l).
Proof.
  induction l as [|x l IH]; simpl; [done|].
  destruct (decide (P (f x))); [exact IH | done].
Qed.

Lemma filter_fmap {A B : Type} (f : A → B) (P : B → Prop) (Q : A → Prop)
    `{!∀ y, Decision (P y)} `{!∀ x, Decision (Q x)} (l : list A) :
  (∀ x, Q x ↔ P (f x)) →
  f <$> filter Q l = filter P (f <$> l).
Proof.
  intros HQ. induction l as [|x l IH]; [done|].
  rewrite fmap_cons, !filter_cons.
  destruct (decide (Q x)) as [Hx|Hx], (decide (P (f x))) as [Hy|Hy].
  - rewrite fmap_cons. f_equal. exact IH.
  - by apply HQ in Hx.
  - by apply HQ in Hy.
  - exact IH.
Qed.

(** *** The partition, told by the spec *)

Lemma filter_live_mark (curr : option loc) (l : list batch_obj_t) :
  filter (λ e, ¬ discarded e) (mark curr <$> l)
  = filter (λ e, rs_of e ≠ curr) (filter (λ e, ¬ discarded e) l).
Proof.
  induction l as [|e l IH]; [done|].
  rewrite fmap_cons.
  destruct (decide (rs_of e = curr)) as [Heq|Hne].
  - assert (mark curr e = discard e) as -> by (unfold mark; by rewrite decide_True).
    rewrite filter_cons_False by (intros H; by apply H).
    etrans; [exact IH|]. destruct (decide (discarded e)) as [Hd|Hd].
    + by rewrite (filter_cons_False _ e) by (intros H; by apply H).
    + rewrite (filter_cons_True _ e) by done.
      by rewrite filter_cons_False by (intros H; by apply H).
  - assert (mark curr e = e) as -> by (unfold mark; by rewrite decide_False).
    destruct (decide (discarded e)) as [Hd|Hd].
    + rewrite !(filter_cons_False _ e) by (intros H; by apply H). exact IH.
    + rewrite !(filter_cons_True (λ e, ¬ discarded e) e) by done.
      rewrite filter_cons_True by done. f_equal. exact IH.
Qed.

Lemma filter_rs_mark (curr r : option loc) (l : list batch_obj_t) :
  r ≠ curr →
  filter (λ e, rs_of e = r) (mark curr <$> l) = filter (λ e, rs_of e = r) l.
Proof.
  intros Hr. induction l as [|e l IH]; [done|].
  rewrite fmap_cons, !filter_cons, IH, mark_rs.
  destruct (decide (rs_of e = r)) as [Heq|Hne]; [|done].
  unfold mark. rewrite decide_False by congruence. done.
Qed.

Lemma mark_all_discarded (curr : option loc) (l : list batch_obj_t) :
  Forall discarded l → mark curr <$> l = l.
Proof.
  induction 1 as [|e l He Hl IH]; [done|].
  by rewrite fmap_cons, IH, mark_discarded.
Qed.

Lemma discard_all_discarded (l : list batch_obj_t) :
  Forall discarded l → discard <$> l = l.
Proof.
  induction 1 as [|e l He Hl IH]; [done|].
  by rewrite fmap_cons, IH, discard_discarded.
Qed.

Lemma liveRulesets_none (l : list batch_obj_t) :
  Forall discarded l → liveRulesets l = [].
Proof.
  intros H. unfold liveRulesets. rewrite filter_none; [done|].
  eapply Forall_impl; [exact H|]. intros e He Hn. by apply Hn.
Qed.

(** The first ruleset served and what is left for the later passes. *)
Lemma liveRulesets_step (pre rest : list batch_obj_t) (e0 : batch_obj_t) :
  Forall discarded pre → ¬ discarded e0 →
  liveRulesets (pre ++ e0 :: rest)
  = rs_of e0 :: liveRulesets (mark (rs_of e0) <$> (pre ++ e0 :: rest)).
Proof.
  intros Hpre He0. unfold liveRulesets.
  rewrite filter_live_mark.
  rewrite filter_app, filter_cons_True by done.
  rewrite (filter_none _ pre)
    by (eapply Forall_impl; [exact Hpre|]; intros e He Hn; by apply Hn).
  simpl. f_equal.
  rewrite filter_cons_False by (intros H; by apply H).
  rewrite <- firstOcc_filter.
  f_equal. symmetry. by apply filter_fmap.
Qed.

Lemma liveRulesets_live (l : list batch_obj_t) (r : option loc) :
  r ∈ liveRulesets l ↔ ∃ e, e ∈ l ∧ ¬ discarded e ∧ rs_of e = r.
Proof.
  unfold liveRulesets. rewrite firstOcc_elem_of, list_elem_of_fmap.
  split.
  - intros (e & -> & He). apply list_elem_of_filter in He as [Hl He].
    by exists e.
  - intros (e & He & Hl & <-). exists e. split; [done|].
    by apply list_elem_of_filter.
Qed.

Lemma subBatchOf_first (b : batch_t) (pre rest : list batch_obj_t)
    (e0 : batch_obj_t) :
  pElem b = pre ++ e0 :: rest → Forall discarded pre → ¬ discarded e0 →
  subBatchOf b (rs_of e0)
  = Batch (nElem b) (filter (λ e, rs_of e = rs_of e0) (e0 :: rest)) true
          (pbShutdownImmediate b).
Proof.
  intros Hb Hpre He0. unfold subBatchOf. f_equal.
  rewrite Hb, filter_app, filter_cons_True by done.
  rewrite dropWhile_app; [done| |done].
  apply Forall_forall. intros e He. apply list_elem_of_filter in He as [_ He].
  by eapply Forall_forall in Hpre.
Qed.

Lemma subBatches_step (b : batch_t) (pre rest : list batch_obj_t)
    (e0 : batch_obj_t) :
  pElem b = pre ++ e0 :: rest → Forall discarded pre → ¬ discarded e0 →
  subBatches b
  = subBatchOf b (rs_of e0)
    :: subBatches (set_pElem b (mark (rs_of e0) <$> pElem b)).
Proof.
  intros Hb Hpre He0. unfold subBatches.
  rewrite Hb at 1. rewrite (liveRulesets_step pre rest e0 Hpre He0).
  rewrite fmap_cons. f_equal. simpl. rewrite <- Hb.
  apply list_eq_Forall2. apply Forall2_fmap, Forall_Forall2_diag.
  apply Forall_forall. intros r Hr.
  apply liveRulesets_live in Hr as (e & He & Hlive & Hrs).
  assert (r ≠ rs_of e0) as Hne.
  { intros ->. apply list_elem_of_fmap in He as (e' & -> & He').
    rewrite mark_rs in Hrs. apply Hlive. unfold mark.
    by rewrite decide_True. }
  unfold subBatchOf, nElem. simpl.
  by rewrite length_fmap, filter_rs_mark.
Qed.

Lemma discard_mark_all (curr : option loc) (l : list batch_obj_t) :
  discard <$> (mark curr <$> l) = discard <$> l.
Proof.
  rewrite <- list_fmap_compose. apply list_fmap_ext.
  intros i e _. apply discard_mark.
Qed.

Lemma live_count_mark (pre rest : list batch_obj_t) (e0 : batch_obj_t) :
  ¬ discarded e0 →
  (length (filter (λ e, ¬ discarded e) (mark (rs_of e0) <$> (pre ++ e0 :: rest)))
   < length (filter (λ e, ¬ discarded e) (pre ++ e0 :: rest)))%nat.
Proof.
  intros He0. rewrite filter_live_mark.
  apply (length_filter_lt _ _ e0).
  - apply list_elem_of_filter. split; [done|].
    apply elem_of_app. right. left.
  - intros H. by apply H.
Qed.

Lemma others_false (curr : option loc) (l : list batch_obj_t) :
  others curr l = false → Forall (λ e, rs_of e = curr) l.
Proof.
  induction l as [|e l IH]; simpl; [done|].
  intros H. apply orb_false_elim in H as [He Hl].
  constructor; [|by apply IH].
  apply bool_decide_eq_false in He. by destruct (decide (rs_of e = curr)).
Qed.

(** *** The do-while loop *)

Section LoopFacts.
Context {W : Type}.
Variable pb : batch_t → W → outcome (rsRetVal * batch_t * W).

(** With fuel for one pass more than there are elements still to be
    processed, the loop hands the sub-batches of the spec to [pb], one
    after the other, and leaves every element of the batch DISCARDED. *)
Lemma multiRulesetLoop_spec (fuel : nat) (b : batch_t) (w : W) :
  (length (filter (λ e, ¬ discarded e) (pElem b)) < fuel)%nat →
  multiRulesetLoop pb fuel b w =
    match feed pb (subBatches b) w with
    | Ret w' => Ret (RS_RET_OK, set_pElem b (discard <$> pElem b), w')
    | Fault => Fault
    | OutOfFuel => OutOfFuel
    end.
Proof.
  revert b w. induction fuel as [|fuel IH]; intros b w Hfuel; [lia|].
  simpl. rewrite searchUnprocessed_spec by lia. rewrite drop_0. simpl.
  destruct (discPrefix_split (pElem b))
    as (pre & suf & Hb & Hlen & Hpre & [->|(e0 & rest & -> & He0)]).
  - (* no element left *)
    rewrite (right_id_L [] (++)) in Hb. subst pre.
    rewrite <- Hlen. unfold nElem. rewrite decide_True by done.
    unfold subBatches. rewrite liveRulesets_none by done. simpl.
    rewrite discard_all_discarded by done.
    by rewrite set_pElem_id.
  - (* a pass for the ruleset of [e0] *)
    assert (pElem b !! length pre = Some e0) as Hlook
      by (rewrite Hb; by apply list_lookup_middle).
    rewrite <- Hlen.
    rewrite decide_False
      by (unfold nElem; rewrite Hb, length_app; simpl; lia).
    simpl. unfold batchElemGetRuleset. rewrite Hlook. simpl.
    fold (rs_of e0).
    rewrite (partitionLoop_spec (rs_of e0) (e0 :: rest) pre) ; cycle 1.
    { exact Hb. }
    { unfold nElem. rewrite Hb, length_app. lia. }
    remember (others (rs_of e0) (e0 :: rest)) as oth eqn:Hoth.
    symmetry in Hoth.
    simpl pElem. rewrite (app_nil_l (filter _ _)).
    assert (pre ++ (mark (rs_of e0) <$> e0 :: rest)
            = mark (rs_of e0) <$> pElem b) as Hmark.
    { by rewrite Hb, fmap_app, (mark_all_discarded _ pre). }
    rewrite Hmark.
    rewrite (subBatches_step b pre rest e0 Hb Hpre He0).
    rewrite (subBatchOf_first b pre rest e0 Hb Hpre He0). simpl feed.
    unfold batchSetSingleRuleset, set_pElem at 2, set_pbShutdownImmediate.
    simpl.
    destruct (pb _ w) as [[[iRet sb'] w1]| |]; [|done|done].
    destruct oth.
    + simpl. rewrite IH.
      * simpl. by rewrite discard_mark_all.
      * simpl. rewrite Hb.
        pose proof (live_count_mark pre rest e0 He0) as Hlt.
        rewrite Hb in Hfuel. lia.
    + simpl.
      apply others_false in Hoth.
      assert (Forall discarded (mark (rs_of e0) <$> pElem b)) as Hall.
      { rewrite <- Hmark. apply Forall_app. split; [done|].
        apply Forall_fmap. eapply Forall_impl; [exact Hoth|].
        intros e He. unfold mark. simpl. by rewrite decide_True. }
      unfold subBatches. simpl pElem. rewrite liveRulesets_none by done.
      simpl. f_equal. f_equal. f_equal. f_equal.
      rewrite <- (discard_mark_all (rs_of e0)).
      by rewrite discard_all_discarded.
Qed.

(** [nElem + 1] passes are enough. *)
Lemma multiRulesetLoop_fuel (b : batch_t) (w : W) :
  processBatchMultiRuleset pb b w =
    match feed pb (subBatches b) w with
    | Ret w' => Ret (RS_RET_OK, set_pElem b (discard <$> pElem b), w')
    | Fault => Fault
    | OutOfFuel => OutOfFuel
    end.
Proof.
  unfold processBatchMultiRuleset. apply multiRulesetLoop_spec.
  pose proof (length_filter (λ e, ¬ discarded e) (pElem b)).
  unfold nElem. lia.
Qed.

End LoopFacts.

(** *** What is handed to processBatch *)

Lemma feed_record_call (subs log : list batch_t) :
  feed record_call subs log = Ret (log ++ subs).
Proof.
  revert log. induction subs as [|sb subs IH]; intros log; simpl.
  - by rewrite (right_id_L [] (++)).
  - by rewrite IH, <- (assoc_L (++)).
Qed.

Lemma dispatched_subBatches (b : batch_t) : dispatched b = subBatches b.
Proof.
  unfold dispatched. by rewrite multiRulesetLoop_fuel, feed_record_call.
Qed.

(** Whatever [processBatch] is, the run of [processBatchMultiRuleset] is
    the batches of [dispatched] handed to it one after the other, each once,
    the return codes dropped; then every element of the batch is
    DISCARDED and the code is [RS_RET_OK]. *)
Lemma processBatchMultiRuleset_run {W : Type}
    (pb : batch_t → W → outcome (rsRetVal * batch_t * W)) (b : batch_t) (w : W) :
  processBatchMultiRuleset pb b w =
    match feed pb (dispatched b) w with
    | Ret w' => Ret (RS_RET_OK, set_pElem b (discard <$> pElem b), w')
    | Fault => Fault
    | OutOfFuel => OutOfFuel
    end.
Proof. rewrite dispatched_subBatches. apply multiRulesetLoop_fuel. Qed.

(** *** The elements of the sub-batches by their place in the batch *)

Lemma indexed_snd (l : list batch_obj_t) : (indexed l).*2 = l.
Proof.
  apply list_eq. intros i. unfold indexed.
  rewrite list_lookup_fmap, list_lookup_imap. by destruct (l !! i).
Qed.

Lemma indexed_fst (l : list batch_obj_t) : (indexed l).*1 = seq 0 (length l).
Proof.
  apply list_eq. intros i. unfold indexed.
  rewrite list_lookup_fmap, list_lookup_imap.
  destruct (l !! i) as [e|] eqn:He; simpl.
  - symmetry. apply lookup_seq. split; [done|]. by eapply lookup_lt_Some.
  - symmetry. apply lookup_seq_ge. by apply lookup_ge_None.
Qed.

Lemma elem_of_indexed (l : list batch_obj_t) (i : nat) (e : batch_obj_t) :
  (i, e) ∈ indexed l ↔ l !! i = Some e.
Proof.
  unfold indexed. rewrite elem_of_lookup_imap. split.
  - intros (j & y & Heq & Hl). by inversion Heq; subst.
  - intros Hl. by exists i, e.
Qed.

Lemma sublist_fmap {A B : Type} (f : A → B) (l1 l2 : list A) :
  l1 `sublist_of` l2 → f <$> l1 `sublist_of` f <$> l2.
Proof.
  induction 1 as [|x l1 l2 H IH|x l1 l2 H IH]; simpl.
  - constructor.
  - by constructor.
  - by constructor.
Qed.

Lemma StronglySorted_sublist {A : Type} (R : A → A → Prop) (l1 l2 : list A) :
  l1 `sublist_of` l2 → StronglySorted R l2 → StronglySorted R l1.
Proof.
  induction 1 as [|x l1 l2 H IH|x l1 l2 H IH]; intros Hs.
  - constructor.
  - apply StronglySorted_cons in Hs as [Hx Hs]. constructor; [by apply IH|].
    apply Forall_forall. intros y Hy.
    eapply Forall_forall in Hx; [exact Hx|]. by eapply elem_of_sublist.
  - apply StronglySorted_cons in Hs as [_ Hs]. by apply IH.
Qed.

Lemma StronglySorted_seq (j n : nat) : StronglySorted lt (seq j n).
Proof.
  revert j. induction n as [|n IH]; intros j; simpl; constructor; [apply IH|].
  apply Forall_forall. intros k Hk. apply elem_of_seq in Hk. lia.
Qed.

Lemma subIndexed_sublist (l : list batch_obj_t) (r : option loc) :
  subIndexed l r `sublist_of` indexed l.
Proof.
  unfold subIndexed. etrans.
  - apply dropWhile_sublist.
  - apply sublist_filter.
Qed.

Lemma subIndexed_snd (l : list batch_obj_t) (r : option loc) :
  (subIndexed l r).*2 = dropWhile discarded (filter (λ e, rs_of e = r) l).
Proof.
  unfold subIndexed.
  rewrite (dropWhile_fmap snd discarded).
  rewrite (filter_fmap snd (λ e, rs_of e = r) (λ p, rs_of p.2 = r)) by done.
  by rewrite indexed_snd.
Qed.

Lemma subIndexed_elem (l : list batch_obj_t) (r : option loc) (i : nat)
    (e : batch_obj_t) :
  (i, e) ∈ subIndexed l r → l !! i = Some e ∧ rs_of e = r.
Proof.
  intros H. unfold subIndexed in H.
  assert ((i, e) ∈ filter (λ p, rs_of p.2 = r) (indexed l)) as Hf.
  { eapply elem_of_sublist; [exact H|]. apply dropWhile_sublist. }
  apply list_elem_of_filter in Hf as [Hr Hin].
  by apply elem_of_indexed in Hin.
Qed.

Lemma subIndexed_lookup (l : list batch_obj_t) (r : option loc) :
  Forall2 (λ i e, l !! i = Some e) (subIndexed l r).*1 (subIndexed l r).*2.
Proof.
  apply Forall2_fmap, Forall_Forall2_diag, Forall_forall.
  intros [i e] H. by apply subIndexed_elem in H as [H _].
Qed.

Lemma subIndexed_sorted (l : list batch_obj_t) (r : option loc) :
  StronglySorted lt (subIndexed l r).*1.
Proof.
  eapply StronglySorted_sublist.
  - apply sublist_fmap, subIndexed_sublist.
  - rewrite indexed_fst. apply StronglySorted_seq.
Qed.

Lemma subIndexed_live (l : list batch_obj_t) (i : nat) (e : batch_obj_t) :
  l !! i = Some e → ¬ discarded e → (i, e) ∈ subIndexed l (rs_of e).
Proof.
  intros Hl He. unfold subIndexed. apply dropWhile_elem_of; [|done].
  apply list_elem_of_filter. split; [done|]. by apply elem_of_indexed.
Qed.

Lemma NoDup_join_fmap {A B : Type} (f : A → list B) (l : list A) :
  NoDup l → (∀ x, x ∈ l → NoDup (f x)) →
  (∀ x1 x2 y, x1 ∈ l → x2 ∈ l → y ∈ f x1 → y ∈ f x2 → x1 = x2) →
  NoDup (mjoin (f <$> l)).
Proof.
  induction 1 as [|x l Hx Hl IH]; intros Hf Hinj; simpl; [constructor|].
  apply NoDup_app. split; [|split].
  - apply Hf. left.
  - intros y Hy Hy'. apply list_elem_of_join in Hy' as (k & Hyk & Hk).
    apply list_elem_of_fmap in Hk as (x' & -> & Hx').
    assert (x = x') as <-; [|done].
    apply (Hinj x x' y); [left | by right | done | done].
  - apply IH.
    + intros x' Hx'. apply Hf. by right.
    + intros x1 x2 y H1 H2. apply Hinj; by right.
Qed.

Lemma subIndices_NoDup (b : batch_t) : NoDup (mjoin (subIndices b)).
Proof.
  unfold subIndices. apply NoDup_join_fmap.
  - apply NoDup_firstOcc.
  - intros r _.
    eapply sublist_NoDup; [|apply sublist_fmap, subIndexed_sublist].
    rewrite indexed_fst. apply NoDup_seq.
  - intros r1 r2 i _ _ H1 H2.
    apply list_elem_of_fmap in H1 as ([i1 e1] & -> & H1).
    apply list_elem_of_fmap in H2 as ([i2 e2] & Hi & H2). simpl in Hi. subst i2.
    apply subIndexed_elem in H1 as [Hl1 <-].
    apply subIndexed_elem in H2 as [Hl2 <-].
    congruence.
Qed.

Lemma subIndices_cover (b : batch_t) (i : nat) (e : batch_obj_t) :
  pElem b !! i = Some e → ¬ discarded e → i ∈ mjoin (subIndices b).
Proof.
  intros Hl He. apply list_elem_of_join.
  exists (subIndexed (pElem b) (rs_of e)).*1. split.
  - apply list_elem_of_fmap. exists (i, e). split; [done|].
    by apply subIndexed_live.
  - unfold subIndices. apply list_elem_of_fmap. exists (rs_of e). split; [done|].
    apply liveRulesets_live. exists e. split; [|done].
    by eapply list_elem_of_lookup_2.
Qed.

Lemma subIndices_range (b : batch_t) (i : nat) :
  i ∈ mjoin (subIndices b) → (i < nElem b)%nat.
Proof.
  intros H. apply list_elem_of_join in H as (k & Hi & Hk).
  unfold subIndices in Hk. apply list_elem_of_fmap in Hk as (r & -> & _).
  apply list_elem_of_fmap in Hi as ([j e] & -> & H).
  apply subIndexed_elem in H as [Hl _]. by eapply lookup_lt_Some.
Qed.

(** Sub-batch and places, ruleset by ruleset. *)
Lemma dispatched_indices (b : batch_t) :
  Forall2 (λ sb idx,
             Forall2 (λ i e, pElem b !! i = Some e) idx (pElem sb)
             ∧ StronglySorted lt idx)
          (dispatched b) (subIndices b).
Proof.
  rewrite dispatched_subBatches. unfold subBatches, subIndices.
  apply Forall2_fmap, Forall_Forall2_diag, Forall_forall. intros r _.
  simpl. rewrite <- subIndexed_snd. split.
  - apply subIndexed_lookup.
  - apply subIndexed_sorted.
Qed.

Lemma subBatchOf_uniform (b : batch_t) (r : option loc) :
  Forall (λ e, rs_of e = r) (pElem (subBatchOf b r)).
Proof.
  simpl. apply Forall_forall. intros e He.
  assert (e ∈ filter (λ e, rs_of e = r) (pElem b)) as Hf
    by (eapply elem_of_sublist; [exact He | apply dropWhile_sublist]).
  by apply list_elem_of_filter in Hf as [Hr _].
Qed.

Lemma subBatchOf_nonempty (b : batch_t) (r : option loc) :
  r ∈ liveRulesets (pElem b) → pElem (subBatchOf b r) ≠ [].
Proof.
  intros Hr. apply liveRulesets_live in Hr as (e & He & Hlive & Hrs).
  assert (e ∈ pElem (subBatchOf b r)) as Hin.
  { simpl. apply dropWhile_elem_of; [|done]. by apply list_elem_of_filter. }
  intros Hnil. rewrite Hnil in Hin. by apply elem_of_nil in Hin.
Qed.

Lemma subBatchOf_sublist (b : batch_t) (r : option loc) :
  pElem (subBatchOf b r) `sublist_of` pElem b.
Proof. simpl. etrans; [apply dropWhile_sublist | apply sublist_filter]. Qed.

(** The sub-batches against the rulesets they are for. *)
Lemma dispatched_rulesets (b : batch_t) :
  Forall2 (λ sb r, sb = subBatchOf b r ∧ r ∈ liveRulesets (pElem b))
          (dispatched b) (liveRulesets (pElem b)).
Proof.
  rewrite dispatched_subBatches. unfold subBatches.
  apply Forall2_fmap_l, Forall_Forall2_diag, Forall_forall. by intros r Hr.
Qed.

Lemma feed_ext {W : Type} (pb1 pb2 : batch_t → W → outcome (rsRetVal * batch_t * W))
    (subs : list batch_t) (w : W) :
  Forall (λ sb, ∀ w0, pb1 sb w0 = pb2 sb w0) subs →
  feed pb1 subs w = feed pb2 subs w.
Proof.
  intros H. revert w. induction H as [|sb subs Hsb Hsubs IH]; intros w; simpl.
  - done.
  - rewrite Hsb. destruct (pb2 sb w) as [[[iRet b'] w1]| |]; auto.
Qed.

Lemma feed_returns {W : Type} (pb : batch_t → W → outcome (rsRetVal * batch_t * W))
    (subs : list batch_t) (w : W) :
  Forall (λ sb, ∀ w0, returns (pb sb w0)) subs → returns (feed pb subs w).
Proof.
  intros H. revert w. induction H as [|sb subs Hsb Hsubs IH]; intros w; simpl.
  - by exists w.
  - destruct (Hsb w) as ([[iRet b'] w1] & ->). apply IH.
Qed.

Lemma dispatched_single (b : batch_t) :
  Forall (λ sb, bSingleRuleset sb = true) (dispatched b).
Proof.
  rewrite dispatched_subBatches. unfold subBatches.
  apply Forall_fmap, Forall_forall. by intros r _.
Qed.

(** *** processBatch *)

Section ProcessBatchFacts.
Context {W : Type}.
Variable rule_ProcessBatch : rule_t → batch_t → W → rsRetVal * batch_t * W.
Variable batchGetRuleset : batch_t → option loc.

Lemma llExecFunc_runRules (l : linkedList_t rule_t) (b : batch_t) (w : W) :
  ∃ iRet,
    llExecFunc l (processBatchDoRules rule_ProcessBatch) b w
    = (iRet, (runRules rule_ProcessBatch l.*2 b w).1, (runRules rule_ProcessBatch l.*2 b w).2).
Proof.
  revert b w. induction l as [|[k r] l IH]; intros b w; simpl.
  - by exists RS_RET_OK.
  - unfold processBatchDoRules at 1.
    destruct (rule_ProcessBatch r b w) as [[iRet b1] w1].
    destruct (IH b1 w1) as (iRet' & ->). by eexists.
Qed.

(** A call depth of [2] is as good as any greater one. *)
Lemma processBatch_depth (d : nat) (rt : runtime_t) (b : batch_t) (w : W) :
  processBatch rule_ProcessBatch batchGetRuleset (S (S d)) rt b w
  = processBatch rule_ProcessBatch batchGetRuleset 2 rt b w.
Proof.
  simpl. destruct (bSingleRuleset b); [done|].
  rewrite !processBatchMultiRuleset_run.
  rewrite (feed_ext _ (processBatch rule_ProcessBatch batchGetRuleset 1 rt)); [done|].
  eapply Forall_impl; [apply dispatched_single|].
  intros sb Hsb w0. simpl. by rewrite Hsb.
Qed.

End ProcessBatchFacts.

(** C1. For every batch (so for every batch with single_ruleset = false),
    after processBatchMultiRuleset has returned, every element that was not
    DISCARDED at entry has been copied into exactly one sub-batch, every
    sub-batch is flagged single-ruleset and holds elements of one ruleset
    only, and no element is in two sub-batches: there are lists of places
    [idx], one per sub-batch handed to processBatch, naming the elements
    copied into it; no place occurs twice in them, and every place of an
    element not DISCARDED at entry occurs.  Each sub-batch is handed to
    processBatch once: whatever processBatch is, the run is the sub-batches
    fed to it one after the other. *)
Theorem processBatchMultiRuleset_partition (b : batch_t) :
  ∃ idx : list (list nat),
    Forall2 (λ sb places,
               bSingleRuleset sb = true
               ∧ (∃ r, Forall (λ e, rs_of e = r) (pElem sb))
               ∧ Forall2 (λ i e, pElem b !! i = Some e) places (pElem sb))
            (dispatched b) idx
    ∧ NoDup (mjoin idx)
    ∧ (∀ i e, pElem b !! i = Some e → state e ≠ BATCH_STATE_DISC →
         i ∈ mjoin idx)
    ∧ (∀ i, i ∈ mjoin idx → (i < nElem b)%nat)
    ∧ (∀ (W : Type) (pb : batch_t → W → outcome (rsRetVal * batch_t * W)) (w : W),
         processBatchMultiRuleset pb b w =
           match feed pb (dispatched b) w with
           | Ret w' => Ret (RS_RET_OK, set_pElem b (discard <$> pElem b), w')
           | Fault => Fault
           | OutOfFuel => OutOfFuel
           end)
    ∧ (∀ (W : Type) (rule_ProcessBatch : rule_t → batch_t → W → rsRetVal * batch_t * W)
         (batchGetRuleset : batch_t → option loc) (d : nat) (rt : runtime_t) (w : W),
         bSingleRuleset b = false →
         processBatch rule_ProcessBatch batchGetRuleset (S (S d)) rt b w =
           match feed (processBatch rule_ProcessBatch batchGetRuleset 1 rt)
                      (dispatched b) w with
           | Ret w' => Ret (RS_RET_OK, set_pElem b (discard <$> pElem b), w')
           | Fault => Fault
           | OutOfFuel => OutOfFuel
           end).
Proof.
  exists (subIndices b). split; [|split; [|split; [|split; [|split]]]].
  - pose proof (dispatched_indices b) as Hidx.
    pose proof (dispatched_rulesets b) as Hrs.
    pose proof (dispatched_single b) as Hsingle.
    apply Forall2_same_length_lookup. split.
    { by eapply Forall2_length. }
    intros k sb places Hsb His.
    destruct (Forall2_lookup_l _ _ _ _ _ Hrs Hsb) as (r & _ & -> & _).
    split; [done|]. split.
    + exists r. apply subBatchOf_uniform.
    + by destruct (Forall2_lookup_lr _ _ _ _ _ _ Hidx Hsb His) as [H _].
  - apply subIndices_NoDup.
  - intros i e Hl He. by eapply subIndices_cover.
  - apply subIndices_range.
  - intros W pb w. apply processBatchMultiRuleset_run.
  - intros W rule_ProcessBatch batchGetRuleset d rt w Hmulti.
    rewrite processBatch_depth. simpl. rewrite Hmulti.
    apply processBatchMultiRuleset_run.
Qed.

Lemma processBatchMultiRuleset_partition_witness :
  ∃ idx : list (list nat),
    Forall2 (λ sb places,
               Forall2 (λ i e, pElem batch_dABdA !! i = Some e) places (pElem sb))
            (dispatched batch_dABdA) idx
    ∧ NoDup (mjoin idx)
    ∧ 1 ∈ mjoin idx ∧ 2 ∈ mjoin idx ∧ 4 ∈ mjoin idx
    ∧ (∀ i, i ∈ mjoin idx → (i < 5)%nat).
Proof.
  destruct (processBatchMultiRuleset_partition batch_dABdA)
    as (idx & H1 & H2 & H3 & H4 & _ & H6).
  pose proof (H6 _ record_rule batchGetRuleset_first 0 rt_two_rules []
                 eq_refl) as _.
  exists idx. split.
  { eapply Forall2_impl; [exact H1|]. by intros sb places (_ & _ & H). }
  split; [exact H2|].
  split; [by apply (H3 1 (rdy 1 (Some 2)))|].
  split; [by apply (H3 2 (rdy 2 (Some 1)))|].
  split; [by apply (H3 4 (rdy 4 None))|].
  exact H4.
Defined.

(** C2. For every batch, processBatchMultiRuleset hands the sub-batches to
    processBatch in the order in which their rulesets are first encountered,
    that is first occur among the elements not DISCARDED at entry (among
    all elements, when none is DISCARDED at entry); the sub-batch of a
    ruleset is not empty and holds, in the order of the batch, the elements
    of that ruleset from the first one not DISCARDED on.  The batch with
    rulesets [A, B, A, B, A] yields the sub-batch of A with its three
    elements in their order, then that of B with its two. *)
Theorem processBatchMultiRuleset_order (b : batch_t) :
  Forall2 (λ sb r,
             pElem sb ≠ []
             ∧ Forall (λ e, rs_of e = r) (pElem sb)
             ∧ pElem sb = dropWhile discarded (filter (λ e, rs_of e = r) (pElem b))
             ∧ pElem sb `sublist_of` pElem b)
          (dispatched b)
          (firstOcc (rs_of <$> filter (λ e, ¬ discarded e) (pElem b)))
  ∧ (Forall (λ e, ¬ discarded e) (pElem b) →
       firstOcc (rs_of <$> filter (λ e, ¬ discarded e) (pElem b))
       = firstOcc (rs_of <$> pElem b))
  ∧ dispatched batch_ABABA
    = [Batch 5 [rdy 0 (Some 1); rdy 2 (Some 1); rdy 4 (Some 1)] true (Some 7);
       Batch 5 [rdy 1 (Some 2); rdy 3 (Some 2)] true (Some 7)].
Proof.
  split; [|split].
  - eapply Forall2_impl; [apply dispatched_rulesets|].
    intros sb r [-> Hr]. split; [by apply subBatchOf_nonempty|].
    split; [apply subBatchOf_uniform|]. split; [done|].
    apply subBatchOf_sublist.
  - intros Hall. by rewrite filter_all.
  - by vm_compute.
Qed.

Lemma processBatchMultiRuleset_order_witness :
  firstOcc (rs_of <$> filter (λ e, ¬ discarded e) (pElem batch_ABABA))
  = firstOcc (rs_of <$> pElem batch_ABABA)
  ∧ firstOcc (rs_of <$> pElem batch_ABABA) = [Some 1; Some 2].
Proof.
  split; [|reflexivity].
  apply (proj1 (proj2 (processBatchMultiRuleset_order batch_ABABA))).
  repeat constructor; discriminate.
Defined.

(** C10. For every batch, whatever processBatch is: when
    processBatchMultiRuleset returns, it returns RS_RET_OK and every element
    of the batch, those DISCARDED at entry included, has state DISCARDED,
    the user pointers and the other fields of the batch being as they were;
    it does return whenever processBatch returns on the single-ruleset
    batches it is handed.  One partition pass that starts at [iStart]
    leaves the elements before [iStart] alone and marks every element of
    the selected ruleset from [iStart] on DISCARDED. *)
Theorem processBatchMultiRuleset_discards_all {W : Type}
    (pb : batch_t → W → outcome (rsRetVal * batch_t * W)) (b : batch_t) (w : W) :
  (∀ iRet b' w', processBatchMultiRuleset pb b w = Ret (iRet, b', w') →
     iRet = RS_RET_OK
     ∧ Forall (λ e, state e = BATCH_STATE_DISC) (pElem b')
     ∧ pUsrp <$> pElem b' = pUsrp <$> pElem b
     ∧ maxElem b' = maxElem b ∧ bSingleRuleset b' = bSingleRuleset b
     ∧ pbShutdownImmediate b' = pbShutdownImmediate b)
  ∧ ((∀ sb w0, bSingleRuleset sb = true → returns (pb sb w0)) →
     returns (processBatchMultiRuleset pb b w))
  ∧ (∀ curr pre suf sngl h, pElem b = pre ++ suf →
     ∃ b1 sngl1 h1,
       partitionLoop (nElem b) curr (length pre) b sngl h = Ret (b1, sngl1, h1)
       ∧ take (length pre) (pElem b1) = pre
       ∧ Forall (λ e, rs_of e = curr → state e = BATCH_STATE_DISC)
                (drop (length pre) (pElem b1))).
Proof.
  split; [|split].
  - intros iRet b' w'. rewrite processBatchMultiRuleset_run.
    destruct (feed pb (dispatched b) w) as [w1| |]; [|done|done].
    intros [= <- <- <-]. simpl. split; [done|]. split.
    + apply Forall_fmap, Forall_forall. by intros e _.
    + split; [|done]. rewrite <- list_fmap_compose. by apply list_fmap_ext.
  - intros Hpb. rewrite processBatchMultiRuleset_run.
    destruct (feed_returns pb (dispatched b) w) as (w1 & ->).
    + eapply Forall_impl; [apply dispatched_single|].
      intros sb Hsb w0. by apply Hpb.
    + by eexists.
  - intros curr pre suf sngl h Hb.
    rewrite (partitionLoop_spec curr suf pre (nElem b) b sngl h Hb)
      by (unfold nElem; rewrite Hb, length_app; lia).
    eexists _, _, _. split; [reflexivity|]. simpl. split.
    + by rewrite take_app_length.
    + rewrite drop_app_length. apply Forall_fmap, Forall_forall.
      intros e _. unfold compose. intros Hr. rewrite mark_rs in Hr.
      unfold mark. by rewrite decide_True.
Qed.

Lemma processBatchMultiRuleset_discards_all_witness :
  (∃ b' log,
     processBatchMultiRuleset record_call batch_dABdA [] = Ret (RS_RET_OK, b', log)
     ∧ Forall (λ e, state e = BATCH_STATE_DISC) (pElem b')
     ∧ pUsrp <$> pElem b' = pUsrp <$> pElem batch_dABdA)
  ∧ (∃ b1 sngl1 h1,
       partitionLoop 5 (Some 2) 1 batch_dABdA (Batch 5 [] false None) false
       = Ret (b1, sngl1, h1)
       ∧ take 1 (pElem b1) = [disc 0 (Some 1)]
       ∧ Forall (λ e, rs_of e = Some 2 → state e = BATCH_STATE_DISC)
                (drop 1 (pElem b1))).
Proof.
  split; cycle 1.
  { apply (proj2 (proj2 (processBatchMultiRuleset_discards_all
                           record_call batch_dABdA []))
             (Some 2) [disc 0 (Some 1)]
             [rdy 1 (Some 2); rdy 2 (Some 1); disc 3 (Some 2); rdy 4 None]
             (Batch 5 [] false None) false).
    reflexivity. }
  destruct (proj1 (proj2 (processBatchMultiRuleset_discards_all
                            record_call batch_dABdA [])))
    as ([[iRet b'] log] & Hrun).
  { intros sb w0 _. by eexists. }
  destruct (proj1 (processBatchMultiRuleset_discards_all record_call batch_dABdA [])
              iRet b' log Hrun) as (-> & Hall & Hptr & _).
  by exists b', log.
Defined.

Lemma runRules_record_rule (rules : list rule_t) (b : batch_t)
    (log : list (rule_t * batch_t)) :
  runRules record_rule rules b log = (b, log ++ ((λ r, (r, b)) <$> rules)).
Proof.
  revert log. induction rules as [|r rules IH]; intros log; simpl.
  - by rewrite (right_id_L [] (++)).
  - by rewrite IH, <- (assoc_L (++)).
Qed.

(** C3. For every batch with single_ruleset = true, processBatch takes the
    batch's ruleset pointer, the default ruleset of the config when that
    pointer is NULL, and, the pointer naming a ruleset object, runs the
    rules of that ruleset in the order of its rule list, each on the whole
    batch as the rule before left it and before the next rule runs: batch
    and surroundings afterwards are those of the rules applied one after
    the other, and with a rule.ProcessBatch that only notes its arguments
    the notes are the rules in list order, each with the whole batch. *)
Theorem processBatch_single_ruleset {W : Type}
    (rule_ProcessBatch : rule_t → batch_t → W → rsRetVal * batch_t * W)
    (batchGetRuleset : batch_t → option loc)
    (depth : nat) (rt : runtime_t) (b : batch_t) (w : W)
    (a : loc) (this : ruleset_t) :
  bSingleRuleset b = true →
  batchGetRuleset b = Some a
    ∨ (batchGetRuleset b = None ∧ pDflt (conf rt) = Some a) →
  objs rt !! a = Some this →
  (∃ iRet,
     processBatch rule_ProcessBatch batchGetRuleset (S depth) rt b w
     = Ret (iRet, (runRules rule_ProcessBatch (llRules this).*2 b w).1,
                  (runRules rule_ProcessBatch (llRules this).*2 b w).2))
  ∧ (∀ log, ∃ iRet,
       processBatch record_rule batchGetRuleset (S depth) rt b log
       = Ret (iRet, b, log ++ ((λ r, (r, b)) <$> (llRules this).*2))).
Proof.
  intros Hsingle Hptr Hthis.
  assert (∀ (V : Type) (f : rule_t → batch_t → V → rsRetVal * batch_t * V) (v : V),
            processBatch f batchGetRuleset (S depth) rt b v
            = Ret (llExecFunc (llRules this) (processBatchDoRules f) b v)) as Hrun.
  { intros V f v. simpl. rewrite Hsingle.
    destruct Hptr as [->|[-> ->]]; by rewrite Hthis. }
  split.
  - rewrite Hrun.
    destruct (llExecFunc_runRules rule_ProcessBatch (llRules this) b w) as (iRet & ->).
    by exists iRet.
  - intros log. rewrite Hrun.
    destruct (llExecFunc_runRules record_rule (llRules this) b log) as (iRet & ->).
    exists iRet. by rewrite runRules_record_rule.
Qed.

Lemma processBatch_single_ruleset_witness :
  ∃ iRet,
    processBatch record_rule batchGetRuleset_first 1 rt_two_rules batch_default []
    = Ret (iRet, batch_default,
           [(Rule [(None, Action "omfile")], batch_default);
            (Rule [(None, Action "omfwd"); (None, Action "omfile")], batch_default)]).
Proof.
  destruct (processBatch_single_ruleset record_rule batchGetRuleset_first 0
              rt_two_rules batch_default [] 1
              (Ruleset (Some "RSYSLOG_DefaultRuleset")
                 [(None, Rule [(None, Action "omfile")]);
                  (None, Rule [(None, Action "omfwd"); (None, Action "omfile")])]
                 None None)) as [_ H].
  - reflexivity.
  - right. split; reflexivity.
  - reflexivity.
  - destruct (H []) as (iRet & HiRet). exists iRet. exact HiRet.
Defined.

(** * Further properties *)

(** ** ruleset.c: the registry *)

Lemma strcasecmp_refl (s : string) : strcasecmp s s = 0%Z.
Proof.
  induction s as [|c s IH]; simpl; [done|].
  by rewrite Z.sub_diag, IH.
Qed.

Lemma llFind_cases {D : Type} (cmpOp : string → string → Z)
    (l : linkedList_t D) (key : string) :
  llFind cmpOp l key = (RS_RET_NOT_FOUND, None)
  ∨ ∃ d, llFind cmpOp l key = (RS_RET_OK, Some d).
Proof.
  induction l as [|[[k|] d] l IH]; simpl; [by left| |done].
  destruct (cmpOp key k =? 0)%Z; [right; by exists d | done].
Qed.

Lemma llFind_app {D : Type} (cmpOp : string → string → Z)
    (l1 l2 : linkedList_t D) (key : string) :
  llFind cmpOp (l1 ++ l2) key =
    match llFind cmpOp l1 key with
    | (RS_RET_OK, r) => (RS_RET_OK, r)
    | _ => llFind cmpOp l2 key
    end.
Proof.
  induction l1 as [|[[k|] d] l1 IH]; simpl; [done| |done].
  by destruct (cmpOp key k =? 0)%Z.
Qed.

Lemma rulesetConstructFinalize_eq (rt : runtime_t) (pThis : loc)
    (this : ruleset_t) (name : string) :
  objs rt !! pThis = Some this →
  pszName this = Some name →
  rulesetConstructFinalize pThis rt =
    Ret (RS_RET_OK,
         Runtime (Rulesets (llRulesets (conf rt) ++ [(Some name, pThis)])
                           (Some pThis)
                           (match pDflt (conf rt) with
                            | None => Some pThis
                            | Some d => Some d
                            end))
                 (objs rt) (parserRoot rt) (errlog rt)).
Proof.
  intros Hthis Hname. unfold rulesetConstructFinalize, ustrdup.
  rewrite Hthis, Hname. simpl.
  destruct (pDflt (conf rt)) as [d|] eqn:Hd;
    unfold set_conf, set_pCurr, set_pDflt, set_llRulesets; simpl; by rewrite ?Hd.
Qed.

(** X1. Register, then look up.  After rulesetConstructFinalize of a named
    ruleset object, a lookup (rulesetGetRuleset) under a key that equals
    the name up to case and matched no entry before yields that object -
    so does the lookup under the name itself - and SetDefaultRuleset with
    that key makes it the default ruleset. *)
Theorem rulesetConstructFinalize_then_GetRuleset (rt : runtime_t) (pThis : loc)
    (this : ruleset_t) (name key : string) :
  objs rt !! pThis = Some this →
  pszName this = Some name →
  strcasecmp key name = 0%Z →
  rulesetGetRuleset rt key = (RS_RET_NOT_FOUND, None) →
  ∃ rt', rulesetConstructFinalize pThis rt = Ret (RS_RET_OK, rt')
    ∧ rulesetGetRuleset rt' key = (RS_RET_OK, Some pThis)
    ∧ (rulesetGetRuleset rt name = (RS_RET_NOT_FOUND, None) →
       rulesetGetRuleset rt' name = (RS_RET_OK, Some pThis))
    ∧ (SetDefaultRuleset key rt').1 = RS_RET_OK
    ∧ pDflt (conf (SetDefaultRuleset key rt').2) = Some pThis
    ∧ SetCurrRuleset key rt' = (RS_RET_OK, rt').
Proof.
  intros Hthis Hname Hkey Hnew.
  rewrite (rulesetConstructFinalize_eq rt pThis this name Hthis Hname).
  eexists. split; [reflexivity|].
  set (rt' := Runtime _ _ _ _).
  assert (∀ k, strcasecmp k name = 0%Z →
               rulesetGetRuleset rt k = (RS_RET_NOT_FOUND, None) →
               rulesetGetRuleset rt' k = (RS_RET_OK, Some pThis)) as Hfind.
  { intros k Hk Hno. unfold rulesetGetRuleset in *. simpl.
    rewrite llFind_app, Hno. simpl. by rewrite Hk. }
  split; [by apply Hfind|].
  split; [intros Hno; apply Hfind; [apply strcasecmp_refl | exact Hno]|].
  unfold SetDefaultRuleset, SetCurrRuleset. rewrite (Hfind key Hkey Hnew).
  done.
Qed.

Lemma rulesetConstructFinalize_then_GetRuleset_witness :
  ∃ rt', rulesetConstructFinalize 2 rt_fresh = Ret (RS_RET_OK, rt')
    ∧ rulesetGetRuleset rt' "SECOND" = (RS_RET_OK, Some 2)
    ∧ rulesetGetRuleset rt' "second" = (RS_RET_OK, Some 2).
Proof.
  destruct (rulesetConstructFinalize_then_GetRuleset rt_fresh 2
              (Ruleset (Some "second") [] None None) "second" "SECOND")
    as (rt' & H1 & H2 & H3 & _); [reflexivity ..|].
  exists rt'. split; [exact H1|]. split; [exact H2|].
  apply H3. reflexivity.
Defined.

(** X2. A lookup that found a ruleset before rulesetConstructFinalize finds
    the same ruleset afterwards, and a key that does not equal the new
    name up to case is looked up as before.  So a ruleset finalized under a
    name that is already registered is registered as well, but no lookup
    yields it: names are not checked for uniqueness, the first registered
    wins. *)
Theorem rulesetConstructFinalize_keeps_lookups (rt : runtime_t) (pThis : loc)
    (this : ruleset_t) (name : string) :
  objs rt !! pThis = Some this →
  pszName this = Some name →
  ∃ rt', rulesetConstructFinalize pThis rt = Ret (RS_RET_OK, rt')
    ∧ (∀ key q, rulesetGetRuleset rt key = (RS_RET_OK, Some q) →
         rulesetGetRuleset rt' key = (RS_RET_OK, Some q))
    ∧ (∀ key, strcasecmp key name ≠ 0%Z →
         rulesetGetRuleset rt' key = rulesetGetRuleset rt key)
    ∧ (∀ q, rulesetGetRuleset rt name = (RS_RET_OK, Some q) →
         (Some name, pThis) ∈ llRulesets (conf rt')
         ∧ rulesetGetRuleset rt' name = (RS_RET_OK, Some q)).
Proof.
  intros Hthis Hname.
  rewrite (rulesetConstructFinalize_eq rt pThis this name Hthis Hname).
  eexists. split; [reflexivity|].
  set (rt' := Runtime _ _ _ _).
  assert (∀ key, rulesetGetRuleset rt' key =
                 match rulesetGetRuleset rt key with
                 | (RS_RET_OK, r) => (RS_RET_OK, r)
                 | _ => if (strcasecmp key name =? 0)%Z
                        then (RS_RET_OK, Some pThis)
                        else (RS_RET_NOT_FOUND, None)
                 end) as Hfind.
  { intros key. unfold rulesetGetRuleset. simpl. rewrite llFind_app.
    destruct (llFind strcasecmp (llRulesets (conf rt)) key) as [[] r]; done. }
  split; [|split].
  - intros key q Hq. by rewrite Hfind, Hq.
  - intros key Hne. rewrite Hfind.
    destruct (llFind_cases strcasecmp (llRulesets (conf rt)) key)
      as [Hno|(d & Hd)]; unfold rulesetGetRuleset in *.
    + rewrite Hno. by destruct (Z.eqb_spec (strcasecmp key name) 0).
    + by rewrite Hd.
  - intros q Hq. split.
    + simpl. apply elem_of_app. right. left.
    + by rewrite Hfind, Hq.
Qed.

Lemma rulesetConstructFinalize_keeps_lookups_witness :
  ∃ rt', rulesetConstructFinalize 2 rt_first_registered = Ret (RS_RET_OK, rt')
    ∧ (Some "first", 2) ∈ llRulesets (conf rt')
    ∧ rulesetGetRuleset rt' "first" = (RS_RET_OK, Some 1)
    ∧ rulesetGetRuleset rt' "other" = (RS_RET_NOT_FOUND, None).
Proof.
  destruct (rulesetConstructFinalize_keeps_lookups rt_first_registered 2
              (Ruleset (Some "first") [] None None) "first")
    as (rt' & H1 & _ & H3 & H4); [reflexivity ..|].
  exists rt'. split; [exact H1|].
  destruct (H4 1) as [H5 H6]; [reflexivity|].
  split; [exact H5|]. split; [exact H6|].
  rewrite H3; [reflexivity|]. by vm_compute.
Defined.

Lemma llFind_elem {D : Type} (cmpOp : string → string → Z)
    (l : linkedList_t D) (key : string) (d : D) :
  llFind cmpOp l key = (RS_RET_OK, Some d) →
  ∃ k, (Some k, d) ∈ l ∧ cmpOp key k = 0%Z.
Proof.
  induction l as [|[[k|] e] l IH]; simpl; [done| |].
  - destruct (Z.eqb_spec (cmpOp key k) 0) as [Hk|Hk].
    + intros [= ->]. exists k. split; [left | exact Hk].
    + intros H. destruct (IH H) as (k' & Hin & Hk'). exists k'. split; [by right|done].
  - intros H. destruct (IH H) as (k' & Hin & Hk'). exists k'. split; [by right|done].
Qed.

Lemma FindParser_cases (root : list parser_t) (name : string) :
  FindParser root name = (RS_RET_PARSER_NOT_FOUND, None)
  ∨ ∃ p, FindParser root name = (RS_RET_OK, Some p) ∧ p ∈ root ∧ pName p = name.
Proof.
  induction root as [|p root IH]; simpl; [by left|].
  destruct (decide (pName p = name)) as [Hp|Hp].
  - right. exists p. split; [done|]. split; [left | done].
  - destruct IH as [IH|(q & Hq & Hin & Hn)]; [by left|].
    right. exists q. split; [done|]. split; [by right | done].
Qed.

Lemma consistent_same (rt rt' : runtime_t) :
  conf rt' = conf rt →
  (∀ p, is_Some (objs rt !! p) → is_Some (objs rt' !! p)) →
  consistent rt → consistent rt'.
Proof.
  intros Hconf Hobjs (Hll & Hcur & Hdflt). unfold consistent. rewrite Hconf.
  split; [|split].
  - intros k p Hin. apply Hobjs. by eapply Hll.
  - intros p Hp. apply Hobjs. by apply Hcur.
  - intros p Hp. apply Hobjs. by apply Hdflt.
Qed.

Lemma is_Some_insert (h : gmap loc ruleset_t) (a p : loc) (x : ruleset_t) :
  is_Some (h !! p) → is_Some (<[a := x]> h !! p).
Proof.
  intros Hp. destruct (decide (a = p)) as [->|Hne].
  - rewrite lookup_insert_eq. by eexists.
  - by rewrite lookup_insert_ne.
Qed.

(** X3. The operations of the config load keep the config consistent: if
    every pointer of the config (registry entries, current and default
    ruleset) names a ruleset object, it does so after addRule,
    SetDefaultRuleset, SetCurrRuleset, rulesetConstructFinalize, setName,
    doRulesetCreateQueue and doRulesetAddParser; and on a consistent config
    the two directive handlers return (doRulesetAddParser when a current
    ruleset is set): no pointer they follow dangles. *)
Theorem consistent_preserved (rt : runtime_t) :
  consistent rt →
  (∀ pThis pRule iRet ppRule rt',
     addRule pThis pRule rt = Ret (iRet, ppRule, rt') → consistent rt')
  ∧ (∀ name, consistent (SetDefaultRuleset name rt).2
             ∧ consistent (SetCurrRuleset name rt).2)
  ∧ (∀ pThis iRet rt',
       rulesetConstructFinalize pThis rt = Ret (iRet, rt') → consistent rt')
  ∧ (∀ pThis name iRet rt', setName pThis name rt = Ret (iRet, rt') → consistent rt')
  ∧ (∀ pNewVal, ∃ iRet rt',
       doRulesetCreateQueue pNewVal rt = Ret (iRet, rt') ∧ consistent rt')
  ∧ (∀ name, pCurr (conf rt) ≠ None →
       ∃ iRet rt', doRulesetAddParser name rt = Ret (iRet, rt') ∧ consistent rt').
Proof.
  intros Hc. pose proof Hc as (Hll & Hcur & Hdflt).
  split; [|split; [|split; [|split; [|split]]]].
  - intros pThis pRule iRet ppRule rt'. unfold addRule.
    destruct (objs rt !! pThis) as [this|] eqn:Hthis; [|done]. simpl.
    destruct (decide (length (llActList pRule) = 0)) as [Hz|Hz].
    + intros [= <- <- <-]. by apply (consistent_same rt).
    + intros [= <- <- <-]. apply (consistent_same rt); [done| |done].
      intros p. apply is_Some_insert.
  - intros name. unfold SetDefaultRuleset, SetCurrRuleset, rulesetGetRuleset.
    destruct (llFind_cases strcasecmp (llRulesets (conf rt)) name)
      as [->|(d & Hd)]; [done|].
    rewrite Hd. apply llFind_elem in Hd as (k & Hin & _).
    split; (split; [|split]); simpl; try done.
    + intros p [= <-]. by eapply Hll.
    + intros p [= <-]. by eapply Hll.
  - intros pThis iRet rt'.
    destruct (objs rt !! pThis) as [this|] eqn:Hthis;
      [|unfold rulesetConstructFinalize; by rewrite Hthis].
    destruct (pszName this) as [name|] eqn:Hname;
      [|unfold rulesetConstructFinalize, ustrdup; by rewrite Hthis, Hname].
    rewrite (rulesetConstructFinalize_eq rt pThis this name Hthis Hname).
    intros [= <- <-]. split; [|split]; simpl.
    + intros k p Hin. apply elem_of_app in Hin as [Hin|Hin]; [by eapply Hll|].
      apply list_elem_of_singleton in Hin. inversion Hin; subst. by eexists.
    + intros p [= <-]. by eexists.
    + intros p. destruct (pDflt (conf rt)) as [d|] eqn:Hd.
      * intros [= <-]. by apply Hdflt.
      * intros [= <-]. by eexists.
  - intros pThis name iRet rt'. unfold setName.
    destruct (objs rt !! pThis) as [this|] eqn:Hthis; [|done]. simpl.
    intros [= <- <-]. apply (consistent_same rt); [done| |done].
    intros p. apply is_Some_insert.
  - intros pNewVal. unfold doRulesetCreateQueue.
    destruct (pCurr (conf rt)) as [p|] eqn:Hp.
    + destruct (Hcur p eq_refl) as (cur & Hcurobj). rewrite Hcurobj.
      destruct (pQueue cur) as [q|].
      * eexists _, _. split; [reflexivity|]. by apply (consistent_same rt).
      * destruct (decide (pNewVal = 0%Z)).
        -- by eexists _, _.
        -- simpl. eexists _, _. split; [reflexivity|].
           apply (consistent_same rt); [done| |done].
           intros a. apply is_Some_insert.
    + eexists _, _. split; [reflexivity|]. by apply (consistent_same rt).
  - intros name Hp. unfold doRulesetAddParser.
    destruct (pCurr (conf rt)) as [p|] eqn:Hpc; [|done]. simpl.
    destruct (FindParser_cases (parserRoot rt) name) as [->|(q & -> & _)].
    + eexists _, _. split; [reflexivity|]. by apply (consistent_same rt).
    + destruct (Hcur p eq_refl) as (cur & Hcurobj). rewrite Hcurobj.
      destruct (pParserLst cur); simpl; eexists _, _; (split; [reflexivity|]);
        (apply (consistent_same rt); [done| |done]);
        intros a; apply is_Some_insert.
Qed.

Lemma consistent_rt_one_ruleset : consistent rt_one_ruleset.
Proof.
  split; [|split].
  - intros k p Hin. cbn in Hin. apply list_elem_of_singleton in Hin.
    inversion Hin; subst. by eexists.
  - intros p [= <-]. by eexists.
  - intros p [= <-]. by eexists.
Defined.

Lemma consistent_preserved_witness :
  (∃ iRet rt', doRulesetCreateQueue 1 rt_one_ruleset = Ret (iRet, rt') ∧ consistent rt')
  ∧ (∃ iRet rt', doRulesetAddParser "rsyslog.rfc5424" rt_one_ruleset = Ret (iRet, rt')
       ∧ consistent rt')
  ∧ consistent (SetDefaultRuleset "rsyslog_defaultruleset" rt_one_ruleset).2.
Proof.
  destruct (consistent_preserved rt_one_ruleset consistent_rt_one_ruleset)
    as (_ & H2 & _ & _ & H5 & H6).
  split; [apply H5|]. split; [by apply H6|]. apply H2.
Defined.

(** X4. A ruleset-private queue, once created, is what GetRulesetQueue
    hands out for that ruleset, and it stays: when the current ruleset has
    no queue and the directive's value is not 0, doRulesetCreateQueue
    succeeds; before, GetRulesetQueue of the ruleset yields the main
    message queue, afterwards the new queue, named after the ruleset
    ([ruleset] when it has no name); for every other ruleset the answer
    is as before; and any further directive, whatever its value (also 0),
    fails with RS_RET_RULES_QUEUE_EXISTS and leaves the queue in place. *)
Theorem doRulesetCreateQueue_then_GetRulesetQueue (rt : runtime_t) (p : loc)
    (cur : ruleset_t) (pNewVal : Z) (pMsgQueue : option qqueue_t) :
  pCurr (conf rt) = Some p →
  objs rt !! p = Some cur →
  pQueue cur = None →
  pNewVal ≠ 0%Z →
  let q := Queue (default "[ruleset]" (pszName cur)) in
  ∃ rt', doRulesetCreateQueue pNewVal rt = Ret (RS_RET_OK, rt')
    ∧ GetRulesetQueue pMsgQueue p rt = Ret pMsgQueue
    ∧ GetRulesetQueue pMsgQueue p rt' = Ret (Some q)
    ∧ (∀ p', p' ≠ p →
         GetRulesetQueue pMsgQueue p' rt' = GetRulesetQueue pMsgQueue p' rt)
    ∧ (∀ v, ∃ rt'', doRulesetCreateQueue v rt' = Ret (RS_RET_RULES_QUEUE_EXISTS, rt'')
         ∧ objs rt'' = objs rt' ∧ conf rt'' = conf rt'
         ∧ GetRulesetQueue pMsgQueue p rt'' = Ret (Some q)).
Proof.
  intros Hp Hcur Hq Hv q.
  assert (Hrun : doRulesetCreateQueue pNewVal rt
                 = Ret (RS_RET_OK, set_objs rt (<[p := set_pQueue cur (Some q)]> (objs rt)))).
  { unfold doRulesetCreateQueue. rewrite Hp, Hcur, Hq.
    by rewrite decide_False by done. }
  eexists. split; [exact Hrun|].
  split; [|split; [|split]].
  - unfold GetRulesetQueue. by rewrite Hcur, Hq.
  - unfold GetRulesetQueue. simpl. by rewrite lookup_insert_eq.
  - intros p' Hne. unfold GetRulesetQueue. simpl.
    by rewrite lookup_insert_ne.
  - intros v. unfold doRulesetCreateQueue. simpl. rewrite Hp.
    rewrite lookup_insert_eq. simpl.
    eexists. split; [reflexivity|]. split; [done|]. split; [done|].
    unfold GetRulesetQueue. simpl. by rewrite lookup_insert_eq.
Qed.

Lemma doRulesetCreateQueue_then_GetRulesetQueue_witness :
  ∃ rt', doRulesetCreateQueue 1 rt_two_rulesets = Ret (RS_RET_OK, rt')
    ∧ GetRulesetQueue (Some (Queue "main Q")) 2 rt' = Ret (Some (Queue "remote"))
    ∧ GetRulesetQueue (Some (Queue "main Q")) 1 rt' = Ret (Some (Queue "main Q"))
    ∧ ∃ rt'', doRulesetCreateQueue 0 rt' = Ret (RS_RET_RULES_QUEUE_EXISTS, rt'').
Proof.
  destruct (doRulesetCreateQueue_then_GetRulesetQueue rt_two_rulesets 2
              (Ruleset (Some "remote") [] None None) 1 (Some (Queue "main Q")))
    as (rt' & Hrun & _ & Hq & Hothers & Hagain);
    [reflexivity | reflexivity | reflexivity | lia |].
  exists rt'. split; [exact Hrun|]. split; [exact Hq|]. split.
  - rewrite (Hothers 1) by lia. reflexivity.
  - destruct (Hagain 0%Z) as (rt'' & H & _). by exists rt''.
Defined.

Lemma FindParser_found (root : list parser_t) (name : string) :
  Parser name ∈ root → FindParser root name = (RS_RET_OK, Some (Parser name)).
Proof.
  induction root as [|[n] root IH]; intros Hin; [by apply elem_of_nil in Hin|].
  simpl. destruct (decide (n = name)) as [->|Hne]; [done|].
  apply IH. apply elem_of_cons in Hin as [[= ->]|Hin]; done.
Qed.

(** The ruleset whose parser list a message gets: the one it is bound to,
    the default ruleset when it is bound to none. *)
Lemma GetParserList_eq (rt rt' : runtime_t) (pMsg : msg_t) :
  conf rt' = conf rt →
  (∀ a, default (pDflt (conf rt)) (Some <$> pRuleset pMsg) = Some a →
        pParserLst <$> (objs rt' !! a) = pParserLst <$> (objs rt !! a)) →
  GetParserList rt' pMsg = GetParserList rt pMsg.
Proof.
  intros Hconf Hobjs. unfold GetParserList. rewrite Hconf.
  destruct (pRuleset pMsg) as [a|]; simpl in Hobjs.
  - specialize (Hobjs a eq_refl).
    destruct (objs rt' !! a), (objs rt !! a); simpl in Hobjs; congruence.
  - destruct (pDflt (conf rt)) as [a|]; [|done].
    specialize (Hobjs a eq_refl).
    destruct (objs rt' !! a), (objs rt !! a); simpl in Hobjs; congruence.
Qed.

(** X5. A parser added to the current ruleset is what the messages of that
    ruleset are parsed with, and of no other: when a parser of the name is
    registered, doRulesetAddParser succeeds, and afterwards GetParserList
    yields, for every message whose ruleset (the one it is bound to, the
    default ruleset when bound to none) is the current one, the ruleset's
    earlier list with the parser at its end (the parser alone when the
    ruleset had the default parser list), and for every other message what
    it yielded before. *)
Theorem doRulesetAddParser_then_GetParserList (rt : runtime_t) (p : loc)
    (cur : ruleset_t) (name : string) :
  pCurr (conf rt) = Some p →
  objs rt !! p = Some cur →
  Parser name ∈ parserRoot rt →
  ∃ rt', doRulesetAddParser name rt = Ret (RS_RET_OK, rt')
    ∧ errlog rt' = errlog rt
    ∧ ∀ pMsg,
        let target := default (pDflt (conf rt)) (Some <$> pRuleset pMsg) in
        (target = Some p →
           GetParserList rt' pMsg
           = Ret (Some (default [] (pParserLst cur) ++ [Parser name])))
        ∧ (target ≠ Some p → GetParserList rt' pMsg = GetParserList rt pMsg).
Proof.
  intros Hp Hcur Hin.
  assert (Hrun : doRulesetAddParser name rt
            = Ret (RS_RET_OK,
                   set_objs rt (<[p := set_pParserLst cur
                       (Some (default [] (pParserLst cur) ++ [Parser name]))]>
                     (objs rt)))).
  { unfold doRulesetAddParser. rewrite Hp. simpl.
    rewrite (FindParser_found _ _ Hin), Hcur.
    by destruct (pParserLst cur). }
  eexists. split; [exact Hrun|]. split; [done|].
  intros pMsg target. split.
  - intros Ht. unfold GetParserList. subst target.
    destruct (pRuleset pMsg) as [a|]; simpl in *.
    + injection Ht as ->. by rewrite lookup_insert_eq.
    + rewrite Ht. by rewrite lookup_insert_eq.
  - intros Ht. apply GetParserList_eq; [done|].
    intros a Ha. simpl. rewrite lookup_insert_ne; [done|].
    intros ->. apply Ht. exact Ha.
Qed.

Lemma doRulesetAddParser_then_GetParserList_witness :
  ∃ rt', doRulesetAddParser "rsyslog.rfc5424" rt_one_ruleset = Ret (RS_RET_OK, rt')
    ∧ GetParserList rt' (Msg 0 None) = Ret (Some [Parser "rsyslog.rfc5424"])
    ∧ GetParserList rt' (Msg 1 (Some 1)) = Ret (Some [Parser "rsyslog.rfc5424"]).
Proof.
  destruct (doRulesetAddParser_then_GetParserList rt_one_ruleset 1
              (Ruleset (Some "RSYSLOG_DefaultRuleset") [] None None)
              "rsyslog.rfc5424")
    as (rt' & Hrun & _ & Hget);
    [reflexivity | reflexivity | by left |].
  exists rt'. split; [exact Hrun|]. split.
  - by apply (Hget (Msg 0 None)).
  - by apply (Hget (Msg 1 (Some 1))).
Defined.

Lemma addRules_spec (a : loc) (rules : list rule_t) (rt : runtime_t)
    (this : ruleset_t) :
  objs rt !! a = Some this →
  ∃ rt', addRules a rules rt = Ret rt'
    ∧ conf rt' = conf rt
    ∧ objs rt' !! a
      = Some (set_llRules this
                (llRules this ++ ((λ r, (None, r)) <$> filter hasActions rules)))
    ∧ (∀ q, q ≠ a → objs rt' !! q = objs rt !! q)
    ∧ errlog rt'
      = errlog rt
          ++ replicate (length (filter (λ r, ¬ hasActions r) rules)) warning_no_actions.
Proof.
  revert rt this. induction rules as [|r rules IH]; intros rt this Hthis.
  - exists rt. simpl. split; [done|]. split; [done|].
    split; [|split; [done|by rewrite (right_id_L [] (++))]].
    rewrite Hthis. f_equal. destruct this; unfold set_llRules; simpl.
    by rewrite (right_id_L [] (++)).
  - simpl. unfold addRule at 1. rewrite Hthis. simpl.
    destruct (decide (length (llActList r) = 0)) as [Hz|Hnz].
    + destruct (IH (LogError 0 NO_ERRCODE
                      "warning: selector line without actions will be discarded" [] rt)
                   this Hthis) as (rt' & Hrun & Hconf & Hobj & Hoth & Hlog).
      exists rt'. split; [exact Hrun|]. split; [exact Hconf|].
      rewrite (filter_cons_False hasActions) by (unfold hasActions; lia).
      split; [exact Hobj|]. split; [exact Hoth|].
      rewrite (filter_cons_True (λ r, ¬ hasActions r))
        by (unfold hasActions; lia).
      rewrite Hlog. simpl. by rewrite <- (assoc_L (++)).
    + destruct (IH (set_objs rt
                      (<[a := set_llRules this (llRules this ++ [(None, r)])]> (objs rt)))
                   (set_llRules this (llRules this ++ [(None, r)])))
        as (rt' & Hrun & Hconf & Hobj & Hoth & Hlog).
      { simpl. apply lookup_insert_eq. }
      exists rt'. split; [exact Hrun|]. split; [exact Hconf|].
      rewrite (filter_cons_True hasActions) by done.
      split; [|split].
      * rewrite Hobj. f_equal. unfold set_llRules. simpl.
        by rewrite <- (assoc_L (++)).
      * intros q Hq. rewrite (Hoth q Hq). simpl. by apply lookup_insert_ne.
      * rewrite (filter_cons_False (λ r, ¬ hasActions r)) by tauto.
        exact Hlog.
Qed.

(** X6. Rules run in the order in which they were added, and a rule
    without actions never runs: after the rules of a list have been added
    to a ruleset by addRule, one after the other, processBatch on a
    single-ruleset batch of that ruleset hands the batch to the rules the
    ruleset had before, then to the added rules that have at least one
    action, in the order of the list, and to nothing else; each rule
    without actions has left one warning in the error log, and the config
    and the other rulesets are as before. *)
Theorem addRule_then_processBatch (rt : runtime_t) (a : loc) (this : ruleset_t)
    (rules : list rule_t) (batchGetRuleset : batch_t → option loc)
    (depth : nat) (b : batch_t) :
  objs rt !! a = Some this →
  bSingleRuleset b = true →
  batchGetRuleset b = Some a →
  ∃ rt', addRules a rules rt = Ret rt'
    ∧ (∃ iRet,
         processBatch record_rule batchGetRuleset (S depth) rt' b []
         = Ret (iRet, b,
                (λ r, (r, b)) <$> ((llRules this).*2 ++ filter hasActions rules)))
    ∧ errlog rt'
      = errlog rt
          ++ replicate (length (filter (λ r, ¬ hasActions r) rules)) warning_no_actions
    ∧ conf rt' = conf rt
    ∧ (∀ q, q ≠ a → objs rt' !! q = objs rt !! q).
Proof.
  intros Hthis Hsingle Hptr.
  destruct (addRules_spec a rules rt this Hthis)
    as (rt' & Hrun & Hconf & Hobj & Hoth & Hlog).
  exists rt'. split; [exact Hrun|]. split; [|done].
  simpl. rewrite Hsingle, Hptr, Hobj.
  destruct (llExecFunc_runRules record_rule
              (llRules (set_llRules this
                 (llRules this ++ ((λ r, (None, r)) <$> filter hasActions rules))))
              b []) as (iRet & ->).
  exists iRet. rewrite runRules_record_rule. simpl.
  rewrite fmap_app, <- list_fmap_compose.
  do 4 f_equal. by rewrite list_fmap_id.
Qed.

Lemma addRule_then_processBatch_witness :
  ∃ rt', addRules 1 [Rule []; Rule [(None, Action "omfwd")]] rt_two_rules = Ret rt'
    ∧ (∃ iRet,
         processBatch record_rule batchGetRuleset_first 2 rt'
                      (Batch 4 [rdy 0 (Some 1)] true None) []
         = Ret (iRet, Batch 4 [rdy 0 (Some 1)] true None,
                (λ r, (r, Batch 4 [rdy 0 (Some 1)] true None))
                  <$> [Rule [(None, Action "omfile")];
                       Rule [(None, Action "omfwd"); (None, Action "omfile")];
                       Rule [(None, Action "omfwd")]]))
    ∧ errlog rt' = [warning_no_actions].
Proof.
  destruct (addRule_then_processBatch rt_two_rules 1
              (Ruleset (Some "RSYSLOG_DefaultRuleset")
                 [(None, Rule [(None, Action "omfile")]);
                  (None, Rule [(None, Action "omfwd"); (None, Action "omfile")])]
                 None None)
              [Rule []; Rule [(None, Action "omfwd")]]
              batchGetRuleset_first 1 (Batch 4 [rdy 0 (Some 1)] true None))
    as (rt' & Hrun & Hpb & Hlog & _); [reflexivity ..|].
  exists rt'. split; [exact Hrun|]. split; [exact Hpb|]. exact Hlog.
Defined.

Lemma llDestroy_rulesets (l : linkedList_t loc) (rt : runtime_t) :
  (∀ k p, (k, p) ∈ l → is_Some (objs rt !! p)) →
  NoDup l.*2 →
  ∃ rt1, llDestroy l rulesetDestructForLinkedList rt = Ret (RS_RET_OK, [], rt1)
    ∧ conf rt1 = conf rt ∧ parserRoot rt1 = parserRoot rt ∧ errlog rt1 = errlog rt
    ∧ ∀ q, objs rt1 !! q = if decide (q ∈ l.*2) then None else objs rt !! q.
Proof.
  revert rt. induction l as [|[k p] l IH]; intros rt Hall Hnd.
  - exists rt. simpl. repeat split; try done.
  - simpl in *. apply NoDup_cons in Hnd as [Hp Hnd].
    unfold rulesetDestructForLinkedList, rulesetDestruct.
    destruct (Hall k p) as (this & Hthis); [left|]. rewrite Hthis.
    destruct (IH (set_objs rt (delete p (objs rt)))) as (rt1 & Hrun & Hc & Hpr & Hl & Hobjs).
    { intros k' p' Hin. simpl. rewrite lookup_delete_ne.
      - eapply Hall. right. exact Hin.
      - intros ->. apply Hp. apply list_elem_of_fmap. by exists (k', p'). }
    { exact Hnd. }
    exists rt1. split; [exact Hrun|]. repeat split; try done.
    intros q. rewrite Hobjs. simpl.
    assert (Hiff : q ∈ p :: l.*2 ↔ q = p ∨ q ∈ l.*2) by apply elem_of_cons.
    repeat case_decide.
    + done.
    + exfalso. tauto.
    + destruct (decide (q = p)) as [->|Hne]; [apply lookup_delete_eq|tauto].
    + apply lookup_delete_ne. intros ->. tauto.
Qed.

(** X7. destructAllActions empties the registry but leaves the current
    ruleset pointer behind: when every registered pointer names a ruleset
    object and no object is registered twice, it returns RS_RET_OK; the
    list of rulesets is empty, so that no name is found any more; the
    default pointer is NULL; exactly the registered objects are gone; and
    [pCurr] is what it was, so that a current ruleset that was registered
    is now a pointer to a destructed object, on which the queue directive
    faults. *)
Theorem destructAllActions_clears (rt : runtime_t) :
  (∀ k p, (k, p) ∈ llRulesets (conf rt) → is_Some (objs rt !! p)) →
  NoDup (llRulesets (conf rt)).*2 →
  ∃ rt', destructAllActions rt = Ret (RS_RET_OK, rt')
    ∧ llRulesets (conf rt') = []
    ∧ (∀ name, rulesetGetRuleset rt' name = (RS_RET_NOT_FOUND, None))
    ∧ pDflt (conf rt') = None
    ∧ pCurr (conf rt') = pCurr (conf rt)
    ∧ (∀ q, objs rt' !! q
            = if decide (q ∈ (llRulesets (conf rt)).*2) then None else objs rt !! q)
    ∧ errlog rt' = errlog rt
    ∧ (∀ p pNewVal, pCurr (conf rt) = Some p → p ∈ (llRulesets (conf rt)).*2 →
         doRulesetCreateQueue pNewVal rt' = Fault).
Proof.
  intros Hall Hnd.
  destruct (llDestroy_rulesets (llRulesets (conf rt)) rt Hall Hnd)
    as (rt1 & Hrun & Hc & Hpr & Hl & Hobjs).
  unfold destructAllActions. rewrite Hrun.
  eexists. split; [reflexivity|]. simpl.
  split; [done|]. split; [done|]. split; [done|].
  split; [by rewrite Hc|]. split; [exact Hobjs|]. split; [exact Hl|].
  intros p v Hp Hin. unfold doRulesetCreateQueue. simpl. rewrite Hc, Hp.
  rewrite Hobjs. by rewrite decide_True.
Qed.

Lemma destructAllActions_clears_witness :
  ∃ rt', destructAllActions rt_two_rulesets = Ret (RS_RET_OK, rt')
    ∧ conf rt' = Rulesets [] (Some 2) None
    ∧ objs rt' !! 1 = None ∧ objs rt' !! 2 = None
    ∧ doRulesetCreateQueue 1 rt' = Fault.
Proof.
  destruct (destructAllActions_clears rt_two_rulesets)
    as (rt' & Hrun & Hll & _ & Hd & Hc & Hobjs & _ & Hq).
  - intros k p Hin. cbn in Hin.
    apply elem_of_cons in Hin as [Hin|Hin].
    + inversion Hin; subst. by eexists.
    + apply list_elem_of_singleton in Hin. inversion Hin; subst. by eexists.
  - cbn. apply NoDup_cons. split.
    + intros Hin. apply list_elem_of_singleton in Hin. discriminate.
    + apply NoDup_singleton.
  - exists rt'. split; [exact Hrun|]. split.
    + destruct (conf rt') as [l c d]. simpl in *. by subst.
    + split; [by rewrite (Hobjs 1)|]. split; [by rewrite (Hobjs 2)|].
      apply (Hq 2); [reflexivity|]. cbn. right. left.
Defined.

Section IterateFacts.
Context {F P W : Type}.
Variable rule_IterateAllActions : rule_t → F → P → W → rsRetVal * W.

Lemma visitRules_app (pFunc : F) (pParam : P) (l1 l2 : list rule_t) (w : W) :
  visitRules rule_IterateAllActions pFunc pParam (l1 ++ l2) w
  = (if decide ((visitRules rule_IterateAllActions pFunc pParam l1 w).1 = RS_RET_OK)
     then (visitRules rule_IterateAllActions pFunc pParam l2
             (visitRules rule_IterateAllActions pFunc pParam l1 w).2).1
     else (visitRules rule_IterateAllActions pFunc pParam l1 w).1,
     (visitRules rule_IterateAllActions pFunc pParam l2
        (visitRules rule_IterateAllActions pFunc pParam l1 w).2).2).
Proof.
  revert w. induction l1 as [|r l1 IH]; intros w; simpl.
  - by destruct (visitRules rule_IterateAllActions pFunc pParam l2 w).
  - destruct (rule_IterateAllActions r pFunc pParam w) as [iRet w1].
    rewrite IH.
    destruct (visitRules rule_IterateAllActions pFunc pParam l1 w1) as [i1 w2]. simpl.
    destruct (visitRules rule_IterateAllActions pFunc pParam l2 w2) as [i2 w3]. simpl.
    by repeat case_decide.
Qed.

Lemma llExecFunc_doIterateRulesetActions (l : linkedList_t rule_t)
    (pFunc : F) (pParam : P) (w : W) :
  llExecFunc l (doIterateRulesetActions rule_IterateAllActions) (pFunc, pParam) w
  = ((visitRules rule_IterateAllActions pFunc pParam l.*2 w).1, (pFunc, pParam),
     (visitRules rule_IterateAllActions pFunc pParam l.*2 w).2).
Proof.
  revert w. induction l as [|[k r] l IH]; intros w; simpl; [done|].
  unfold doIterateRulesetActions at 1. simpl.
  destruct (rule_IterateAllActions r pFunc pParam w) as [iRet w1].
  rewrite IH. simpl.
  by destruct (visitRules _ _ _ _ w1).
Qed.

Lemma llExecFunc_doIterateAllActions (rt : runtime_t) (l : linkedList_t loc)
    (pFunc : F) (pParam : P) (w : W) :
  (∀ k p, (k, p) ∈ l → is_Some (objs rt !! p)) →
  llExecFunc l (doIterateAllActions rule_IterateAllActions rt) (pFunc, pParam) (Ret w)
  = ((visitRules rule_IterateAllActions pFunc pParam (rulesOf rt l) w).1,
     (pFunc, pParam),
     Ret (visitRules rule_IterateAllActions pFunc pParam (rulesOf rt l) w).2).
Proof.
  revert w. induction l as [|[k p] l IH]; intros w Hall; [done|].
  destruct (Hall k p) as (this & Hthis); [left|].
  change (rulesOf rt ((k, p) :: l))
    with (match objs rt !! p with
          | Some this => (llRules this).*2
          | None => []
          end ++ rulesOf rt l).
  rewrite Hthis, visitRules_app. simpl.
  unfold doIterateAllActions at 1, iterateRulesetAllActions. simpl. rewrite Hthis.
  rewrite llExecFunc_doIterateRulesetActions.
  rewrite IH by (intros k' p' Hin; eapply Hall; right; exact Hin).
  done.
Qed.

Lemma llExecFunc_doIterateAllActions_stuck (rt : runtime_t) (l : linkedList_t loc)
    (pMyParam : F * P) (s : outcome W) :
  (∀ w, s ≠ Ret w) →
  (llExecFunc l (doIterateAllActions rule_IterateAllActions rt) pMyParam s).2 = s.
Proof.
  intros Hs. induction l as [|[k p] l IH]; [done|]. simpl.
  assert (doIterateAllActions rule_IterateAllActions rt p pMyParam s
          = (RS_RET_OK, pMyParam, s)) as ->.
  { destruct s as [w| |]; [by destruct (Hs w)|done|done]. }
  destruct (llExecFunc l (doIterateAllActions rule_IterateAllActions rt) pMyParam s)
    as [[i q] s']. simpl in *. done.
Qed.

Lemma llExecFunc_cons_state {D Q S : Type} (k : option string) (d : D)
    (l : linkedList_t D) (f : D → Q → S → rsRetVal * Q * S) (q : Q) (s : S) :
  (llExecFunc ((k, d) :: l) f q s).2
  = (llExecFunc l f (f d q s).1.2 (f d q s).2).2.
Proof.
  simpl. destruct (f d q s) as [[i q1] s1]. simpl.
  by destruct (llExecFunc l f q1 s1) as [[i' q2] s2].
Qed.

Lemma doIterateAllActions_param (rt : runtime_t) (p : loc) (pMyParam : F * P)
    (s : outcome W) :
  (doIterateAllActions rule_IterateAllActions rt p pMyParam s).1.2 = pMyParam.
Proof.
  unfold doIterateAllActions. destruct s as [w| |]; [|done|done].
  by destruct (iterateRulesetAllActions rule_IterateAllActions p pMyParam.1
                 pMyParam.2 rt w) as [[i w1]| |].
Qed.

Lemma doIterateAllActions_state (rt : runtime_t) (p : loc) (pMyParam : F * P)
    (w : W) :
  match objs rt !! p with
  | Some _ => ∃ w1, (doIterateAllActions rule_IterateAllActions rt p pMyParam (Ret w)).2
                    = Ret w1
  | None => (doIterateAllActions rule_IterateAllActions rt p pMyParam (Ret w)).2 = Fault
  end.
Proof.
  unfold doIterateAllActions, iterateRulesetAllActions.
  destruct (objs rt !! p) as [this|]; [|done].
  destruct (llExecFunc (llRules this) (doIterateRulesetActions rule_IterateAllActions)
              (pMyParam.1, pMyParam.2) w) as [[i q] w1].
  by exists w1.
Qed.

Lemma llExecFunc_doIterateAllActions_dangling (rt : runtime_t)
    (l : linkedList_t loc) (pMyParam : F * P) (w : W) :
  (∃ k p, (k, p) ∈ l ∧ objs rt !! p = None) →
  (llExecFunc l (doIterateAllActions rule_IterateAllActions rt) pMyParam (Ret w)).2
  = Fault.
Proof.
  revert w. induction l as [|[k p] l IH]; intros w (k0 & p0 & Hin & Hnone).
  - by apply elem_of_nil in Hin.
  - rewrite llExecFunc_cons_state, doIterateAllActions_param.
    pose proof (doIterateAllActions_state rt p pMyParam w) as Hst.
    destruct (objs rt !! p) as [this|] eqn:Hthis.
    + destruct Hst as (w1 & ->). apply IH.
      apply elem_of_cons in Hin as [Heq|Hin]; [|by exists k0, p0].
      inversion Heq; subst. congruence.
    + rewrite Hst. by apply llExecFunc_doIterateAllActions_stuck.
Qed.

End IterateFacts.

(** X8. iterateAllActions calls rule.IterateAllActions on every rule of
    every registered ruleset, once, in the order of the registry and,
    within a ruleset, of its rule list: when every registered pointer names
    a ruleset object, the result is that of calling it on those rules one
    after the other (the first return code that is not RS_RET_OK, and the
    state the last call leaves), and a rule.IterateAllActions that notes
    its rule has noted exactly those rules in that order; when some
    registered pointer names no object, the call faults. *)
Theorem iterateAllActions_visits {F P W : Type}
    (rule_IterateAllActions : rule_t → F → P → W → rsRetVal * W)
    (pFunc : F) (pParam : P) (rt : runtime_t) (w : W) :
  ((∀ k p, (k, p) ∈ llRulesets (conf rt) → is_Some (objs rt !! p)) →
     iterateAllActions rule_IterateAllActions pFunc pParam rt w
     = Ret (visitRules rule_IterateAllActions pFunc pParam
              (rulesOf rt (llRulesets (conf rt))) w)
     ∧ iterateAllActions record_visit pFunc pParam rt []
       = Ret (RS_RET_OK, rulesOf rt (llRulesets (conf rt))))
  ∧ ((∃ k p, (k, p) ∈ llRulesets (conf rt) ∧ objs rt !! p = None) →
     iterateAllActions rule_IterateAllActions pFunc pParam rt w = Fault).
Proof.
  split.
  - intros Hall. unfold iterateAllActions.
    rewrite !llExecFunc_doIterateAllActions by done.
    split.
    + by destruct (visitRules rule_IterateAllActions pFunc pParam
                     (rulesOf rt (llRulesets (conf rt))) w).
    + f_equal.
      assert (∀ rules log, visitRules (@record_visit F P) pFunc pParam rules log
                           = (RS_RET_OK, log ++ rules)) as Hrec.
      { induction rules as [|r rules IH]; intros log; simpl.
        - by rewrite (right_id_L [] (++)).
        - rewrite IH. by rewrite <- (assoc_L (++)). }
      by rewrite Hrec.
  - intros Hdang. unfold iterateAllActions.
    pose proof (llExecFunc_doIterateAllActions_dangling rule_IterateAllActions
                  rt (llRulesets (conf rt)) (pFunc, pParam) w Hdang) as Hf.
    destruct (llExecFunc (llRulesets (conf rt))
                (doIterateAllActions rule_IterateAllActions rt) (pFunc, pParam) (Ret w))
      as [[i q] s]. simpl in Hf. by subst.
Qed.

Lemma iterateAllActions_visits_witness :
  iterateAllActions (@record_visit unit unit) () () rt_two_rules []
  = Ret (RS_RET_OK,
         [Rule [(None, Action "omfile")];
          Rule [(None, Action "omfwd"); (None, Action "omfile")]])
  ∧ iterateAllActions (@record_visit unit unit) () () rt_dangling [] = Fault.
Proof.
  split.
  - apply (iterateAllActions_visits (@record_visit unit unit) () () rt_two_rules []).
    intros k p Hin. cbn in Hin. apply list_elem_of_singleton in Hin.
    inversion Hin; subst. by eexists.
  - apply (iterateAllActions_visits (@record_visit unit unit) () () rt_dangling []).
    exists (Some "gone"), 3. split; [by left | reflexivity].
Defined.

Lemma batchGetRuleset_first_subBatchOf (b : batch_t) (r : option loc) :
  r ∈ liveRulesets (pElem b) → batchGetRuleset_first (subBatchOf b r) = r.
Proof.
  intros Hr. pose proof (subBatchOf_nonempty b r Hr) as Hne.
  pose proof (subBatchOf_uniform b r) as Huni.
  unfold batchGetRuleset_first.
  destruct (pElem (subBatchOf b r)) as [|e l]; [done|].
  by apply Forall_cons in Huni as [He _].
Qed.

Section MixedFacts.
Context {W : Type}.
Variable rule_ProcessBatch : rule_t → batch_t → W → rsRetVal * batch_t * W.

Lemma processBatch_subBatchOf (d : nat) (rt : runtime_t) (b : batch_t)
    (r : option loc) (w : W) :
  r ∈ liveRulesets (pElem b) →
  is_Some (resolve rt r ≫= (objs rt !!.)) →
  ∃ iRet,
    processBatch rule_ProcessBatch batchGetRuleset_first (S d) rt (subBatchOf b r) w
    = Ret (iRet,
           (runRules rule_ProcessBatch (rulesFor rt r) (subBatchOf b r) w).1,
           (runRules rule_ProcessBatch (rulesFor rt r) (subBatchOf b r) w).2).
Proof.
  intros Hr [this Hthis].
  cbn [processBatch]. rewrite (batchGetRuleset_first_subBatchOf b r Hr).
  unfold rulesFor. rewrite Hthis. unfold resolve in Hthis.
  change (bSingleRuleset (subBatchOf b r)) with true. cbv iota.
  destruct r as [p|]; simpl in Hthis.
  - rewrite Hthis.
    destruct (llExecFunc_runRules rule_ProcessBatch (llRules this) (subBatchOf b (Some p)) w)
      as (iRet & ->). by exists iRet.
  - destruct (pDflt (conf rt)) as [p|]; [|done]. simpl in Hthis. rewrite Hthis.
    destruct (llExecFunc_runRules rule_ProcessBatch (llRules this) (subBatchOf b None) w)
      as (iRet & ->). by exists iRet.
Qed.

Lemma feed_processBatch_subBatches (d : nat) (rt : runtime_t) (b : batch_t)
    (l : list (option loc)) (w : W) :
  Forall (λ r, r ∈ liveRulesets (pElem b)
               ∧ is_Some (resolve rt r ≫= (objs rt !!.))) l →
  feed (processBatch rule_ProcessBatch batchGetRuleset_first (S d) rt)
       (subBatchOf b <$> l) w
  = Ret (foldl (λ w0 r,
                  (runRules rule_ProcessBatch (rulesFor rt r) (subBatchOf b r) w0).2)
               w l).
Proof.
  revert w. induction l as [|r l IH]; intros w Hall; [done|].
  apply Forall_cons in Hall as [[Hr Hres] Hall].
  rewrite fmap_cons. cbn [feed foldl].
  destruct (processBatch_subBatchOf d rt b r w Hr Hres) as (iRet & ->).
  by apply IH.
Qed.

End MixedFacts.

(** X9. A batch of mixed rulesets, end to end: when the single-ruleset
    flag is not set and every ruleset that has an element not DISCARDED
    (the default ruleset for elements bound to none) is a ruleset object,
    processBatch returns RS_RET_OK with every element DISCARDED, and what
    it has done is: for each such ruleset, in the order of first occurrence,
    the rules of that ruleset, in their order, applied to the sub-batch of
    that ruleset.  With a rule.ProcessBatch that notes its calls, the calls
    are exactly these: no rule is handed an element of another ruleset. *)
Theorem processBatch_mixed_rulesets {W : Type}
    (rule_ProcessBatch : rule_t → batch_t → W → rsRetVal * batch_t * W)
    (depth : nat) (rt : runtime_t) (b : batch_t) (w : W) :
  bSingleRuleset b = false →
  (∀ r, r ∈ liveRulesets (pElem b) → is_Some (resolve rt r ≫= (objs rt !!.))) →
  processBatch rule_ProcessBatch batchGetRuleset_first (S (S depth)) rt b w
  = Ret (RS_RET_OK, set_pElem b (discard <$> pElem b),
         foldl (λ w0 r,
                  (runRules rule_ProcessBatch (rulesFor rt r) (subBatchOf b r) w0).2)
               w (liveRulesets (pElem b)))
  ∧ ∀ log,
      processBatch record_rule batchGetRuleset_first (S (S depth)) rt b log
      = Ret (RS_RET_OK, set_pElem b (discard <$> pElem b),
             log ++ (r ← liveRulesets (pElem b);
                     (λ rule, (rule, subBatchOf b r)) <$> rulesFor rt r)).
Proof.
  intros Hflag Hres.
  assert (∀ (V : Type) (f : rule_t → batch_t → V → rsRetVal * batch_t * V) (v : V),
            processBatch f batchGetRuleset_first (S (S depth)) rt b v
            = Ret (RS_RET_OK, set_pElem b (discard <$> pElem b),
                   foldl (λ w0 r, (runRules f (rulesFor rt r) (subBatchOf b r) w0).2)
                         v (liveRulesets (pElem b)))) as Hrun.
  { intros V f v. cbn [processBatch]. rewrite Hflag.
    rewrite processBatchMultiRuleset_run, dispatched_subBatches. unfold subBatches.
    rewrite (feed_processBatch_subBatches f depth rt b); [done|].
    apply Forall_forall. intros r Hr. split; [done|by apply Hres]. }
  split; [apply Hrun|].
  intros log. rewrite Hrun. do 2 f_equal.
  clear Hrun Hres. revert log.
  induction (liveRulesets (pElem b)) as [|r l IH]; intros log.
  - simpl. by rewrite (right_id_L [] (++)).
  - cbn [foldl]. rewrite runRules_record_rule. cbn [snd].
    rewrite IH. rewrite bind_cons. by rewrite (assoc_L (++)).
Qed.

Lemma processBatch_mixed_rulesets_witness :
  processBatch record_rule batchGetRuleset_first 2 rt_two_rules
    (Batch 4 [rdy 0 (Some 1); disc 1 None; rdy 2 None] false None) []
  = Ret (RS_RET_OK,
         Batch 4 [disc 0 (Some 1); disc 1 None; disc 2 None] false None,
         [(Rule [(None, Action "omfile")], Batch 3 [rdy 0 (Some 1)] true None);
          (Rule [(None, Action "omfwd"); (None, Action "omfile")],
           Batch 3 [rdy 0 (Some 1)] true None);
          (Rule [(None, Action "omfile")], Batch 3 [rdy 2 None] true None);
          (Rule [(None, Action "omfwd"); (None, Action "omfile")],
           Batch 3 [rdy 2 None] true None)]).
Proof.
  apply (processBatch_mixed_rulesets (W := list (rule_t * batch_t)) record_rule 0
           rt_two_rules
           (Batch 4 [rdy 0 (Some 1); disc 1 None; rdy 2 None] false None) []).
  - reflexivity.
  - intros r Hr. vm_compute in Hr.
    apply elem_of_cons in Hr as [->|Hr]; [by eexists|].
    apply list_elem_of_singleton in Hr as ->. by eexists.
Defined.

Lemma discard_fmap_all_discarded (l : list batch_obj_t) :
  Forall discarded l → discard <$> l = l.
Proof.
  induction 1 as [|[u s] l He _ IH]; [done|].
  rewrite fmap_cons, IH. unfold discarded in He. simpl in He. by subst.
Qed.

Lemma Forall_discarded_discard (l : list batch_obj_t) :
  Forall discarded (discard <$> l).
Proof. apply Forall_fmap, Forall_forall. by intros e _. Qed.

(** X10. processBatchMultiRuleset does nothing to a batch that has no
    element left to process, and so does nothing the second time: when
    every element is DISCARDED (the empty batch included) it returns
    RS_RET_OK without calling processBatch, the batch and the state being
    as they were; and the batch any run returns is such a batch, so that
    running the function on it again, with any processBatch, makes no call
    and changes nothing. *)
Theorem processBatchMultiRuleset_idle {W : Type}
    (pb : batch_t → W → outcome (rsRetVal * batch_t * W)) (b : batch_t) (w : W) :
  (Forall discarded (pElem b) →
     dispatched b = [] ∧ processBatchMultiRuleset pb b w = Ret (RS_RET_OK, b, w))
  ∧ (∀ iRet b' w', processBatchMultiRuleset pb b w = Ret (iRet, b', w') →
       ∀ (pb2 : batch_t → W → outcome (rsRetVal * batch_t * W)) w2,
         dispatched b' = []
         ∧ processBatchMultiRuleset pb2 b' w2 = Ret (RS_RET_OK, b', w2)).
Proof.
  assert (Hidle : ∀ (f : batch_t → W → outcome (rsRetVal * batch_t * W)) b0 w0,
            Forall discarded (pElem b0) →
            dispatched b0 = []
            ∧ processBatchMultiRuleset f b0 w0 = Ret (RS_RET_OK, b0, w0)).
  { intros f b0 w0 Hall.
    assert (dispatched b0 = []) as Hd.
    { rewrite dispatched_subBatches. unfold subBatches.
      by rewrite liveRulesets_none. }
    split; [exact Hd|].
    rewrite processBatchMultiRuleset_run, Hd. simpl.
    rewrite discard_fmap_all_discarded by done. by rewrite set_pElem_id. }
  split; [apply Hidle|].
  intros iRet b' w'. rewrite processBatchMultiRuleset_run.
  destruct (feed pb (dispatched b) w) as [w1| |]; [|done|done].
  intros [= <- <- <-] pb2 w2. apply Hidle. simpl. apply Forall_discarded_discard.
Qed.

Lemma processBatchMultiRuleset_idle_witness :
  processBatchMultiRuleset record_call (Batch 4 [disc 0 (Some 1); disc 1 None] false None) []
  = Ret (RS_RET_OK, Batch 4 [disc 0 (Some 1); disc 1 None] false None, [])
  ∧ ∀ w2, processBatchMultiRuleset record_call
            (set_pElem batch_ABABA (discard <$> pElem batch_ABABA)) w2
          = Ret (RS_RET_OK, set_pElem batch_ABABA (discard <$> pElem batch_ABABA), w2).
Proof.
  split.
  - apply (processBatchMultiRuleset_idle record_call
             (Batch 4 [disc 0 (Some 1); disc 1 None] false None) []).
    repeat constructor.
  - intros w2.
    apply (proj2 (processBatchMultiRuleset_idle record_call batch_ABABA [])
             RS_RET_OK _ (dispatched batch_ABABA)); reflexivity.
Defined.

Lemma firstOcc_length {A : Type} `{!EqDecision A} (l : list A) :
  (length (firstOcc l) ≤ length l)%nat.
Proof.
  induction l as [|x l IH]; simpl; [done|].
  pose proof (length_filter (λ y, y ≠ x) (firstOcc l)). lia.
Qed.

Lemma subBatches_total (b : batch_t) (rs : list (option loc)) :
  length (mjoin (pElem <$> (subBatchOf b <$> rs)))
  = length (mjoin ((λ r, (subIndexed (pElem b) r).*1) <$> rs)).
Proof.
  induction rs as [|r rs IH]; [done|].
  rewrite !fmap_cons. cbn [mjoin list_join]. rewrite !length_app.
  f_equal; [|exact IH].
  simpl. rewrite <- subIndexed_snd. by rewrite !length_fmap.
Qed.

(** X11. The temporary batch never overflows, and the work is bounded by
    the batch: every sub-batch processBatchMultiRuleset hands to
    processBatch holds at least one element and at most as many as it has
    room for, which is the element count of the batch; it is flagged
    single-ruleset and carries the batch's shutdown flag pointer; there are
    at most as many sub-batches as the batch has elements not DISCARDED;
    and all sub-batches together hold at most as many elements as the
    batch. *)
Theorem dispatched_capacity (b : batch_t) :
  Forall (λ sb, (1 ≤ nElem sb ≤ maxElem sb)%nat
                ∧ maxElem sb = nElem b
                ∧ bSingleRuleset sb = true
                ∧ pbShutdownImmediate sb = pbShutdownImmediate b)
         (dispatched b)
  ∧ (length (dispatched b) ≤ length (filter (λ e, ¬ discarded e) (pElem b)))%nat
  ∧ (length (mjoin (pElem <$> dispatched b)) ≤ nElem b)%nat.
Proof.
  rewrite dispatched_subBatches. unfold subBatches. split; [|split].
  - apply Forall_fmap, Forall_forall. intros r Hr. simpl.
    split; [|done].
    pose proof (subBatchOf_nonempty b r Hr) as Hne.
    pose proof (sublist_length _ _ (subBatchOf_sublist b r)) as Hle.
    unfold nElem in *. simpl in *.
    destruct (dropWhile discarded (filter (λ e, rs_of e = r) (pElem b)));
      [done|simpl in *; lia].
  - rewrite length_fmap. unfold liveRulesets.
    etrans; [apply firstOcc_length|]. by rewrite length_fmap.
  - rewrite subBatches_total.
    change ((λ r, (subIndexed (pElem b) r).*1) <$> liveRulesets (pElem b))
      with (subIndices b).
    trans (length (seq 0 (nElem b))); [|by rewrite length_seq].
    apply submseteq_length, (NoDup_submseteq _ (seq 0 (nElem b)));
      [apply subIndices_NoDup|].
    intros i Hi. apply elem_of_seq. pose proof (subIndices_range b i Hi). lia.
Qed.

Lemma firstOcc_const {A : Type} `{!EqDecision A} (l : list A) (x : A) :
  Forall (λ y, y = x) l → l ≠ [] → firstOcc l = [x].
Proof.
  intros Hall Hne. destruct l as [|y l]; [done|].
  apply Forall_cons in Hall as [-> Hall]. simpl. f_equal.
  apply filter_none, Forall_forall. intros z Hz Hzx. apply Hzx.
  apply (proj1 (firstOcc_elem_of _ _)) in Hz.
  by apply (proj1 (Forall_forall _ _) Hall).
Qed.

(** X12. A batch of one ruleset that is not flagged as such is handed on in
    one piece: when every element of the batch belongs to the same ruleset
    and not all are DISCARDED, processBatchMultiRuleset calls processBatch
    exactly once, with the elements from the first that is not DISCARDED
    on, in a batch flagged single-ruleset; afterwards all elements are
    DISCARDED, whatever that call returned. *)
Theorem processBatchMultiRuleset_one_ruleset {W : Type}
    (pb : batch_t → W → outcome (rsRetVal * batch_t * W)) (b : batch_t)
    (r : option loc) (w : W) :
  Forall (λ e, rs_of e = r) (pElem b) →
  ¬ Forall discarded (pElem b) →
  let sb := Batch (nElem b) (dropWhile discarded (pElem b)) true
                  (pbShutdownImmediate b) in
  dispatched b = [sb]
  ∧ processBatchMultiRuleset pb b w
    = match pb sb w with
      | Ret (_, _, w1) => Ret (RS_RET_OK, set_pElem b (discard <$> pElem b), w1)
      | Fault => Fault
      | OutOfFuel => OutOfFuel
      end.
Proof.
  intros Huni Hlive sb.
  assert (dispatched b = [sb]) as Hd.
  { rewrite dispatched_subBatches. unfold subBatches, liveRulesets.
    rewrite (firstOcc_const _ r).
    - simpl. unfold subBatchOf, sb. by rewrite filter_all.
    - apply Forall_fmap, Forall_forall. intros e He.
      apply list_elem_of_filter in He as [_ He].
      by apply (proj1 (Forall_forall _ _) Huni).
    - intros Hnil. apply fmap_nil_inv in Hnil. apply Hlive.
      apply Forall_forall. intros e He.
      destruct (decide (discarded e)) as [Hdisc|Hnd]; [done|].
      assert (e ∈ filter (λ e, ¬ discarded e) (pElem b)) as Hin
        by (by apply list_elem_of_filter).
      rewrite Hnil in Hin. by apply elem_of_nil in Hin. }
  split; [exact Hd|].
  rewrite processBatchMultiRuleset_run, Hd. simpl.
  by destruct (pb sb w) as [[[i b1] w1]| |].
Qed.

Lemma processBatchMultiRuleset_one_ruleset_witness :
  dispatched (Batch 4 [disc 0 (Some 1); rdy 1 (Some 1); disc 2 (Some 1)] false None)
  = [Batch 3 [rdy 1 (Some 1); disc 2 (Some 1)] true None].
Proof.
  apply (processBatchMultiRuleset_one_ruleset record_call
           (Batch 4 [disc 0 (Some 1); rdy 1 (Some 1); disc 2 (Some 1)] false None)
           (Some 1) []).
  - repeat constructor.
  - intros Hall. apply Forall_cons in Hall as [_ Hall].
    apply Forall_cons in Hall as [Hrdy _]. discriminate Hrdy.
Defined.

Section ImtcpMoreFacts.
Import Imtcp.

Lemma addListner_init_eq (modConf : modConfData_t) (peers : list string)
    (srv : tcpsrv_t) :
  addListner_init modConf peers srv = (RS_RET_OK, srv ++ initCalls modConf peers).
Proof.
  unfold addListner_init, initCalls, CHKiRet, tcpsrv, skip.
  destruct (pszStrmDrvrAuthMode modConf), peers; simpl;
    rewrite <- ?(assoc_L (++)); reflexivity.
Qed.

Lemma addListner_eq (modConf : modConfData_t) (inst : instanceConf_t)
    (m : module_t) :
  addListner modConf inst m
  = (RS_RET_OK,
     set_pOurTcpsrv m
       (Some (default (initCalls modConf (pPermPeersRoot m)) (pOurTcpsrv m)
              ++ portCalls inst))).
Proof.
  unfold addListner. destruct (pOurTcpsrv m) as [srv0|] eqn:Hsrv.
  - by rewrite addListner_port_ok.
  - unfold tcpsrv_Construct, CHKiRet at 1.
    rewrite addListner_init_eq, addListner_port_ok. done.
Qed.

Lemma addListner_fold_some (modConf : modConfData_t) (insts : list instanceConf_t)
    (m : module_t) (srv : tcpsrv_t) :
  pOurTcpsrv m = Some srv →
  fold_left (λ acc inst, (addListner modConf inst acc).2) insts m
  = set_pOurTcpsrv m (Some (srv ++ (insts ≫= portCalls))).
Proof.
  revert m srv. induction insts as [|inst insts IH]; intros m srv Hsrv.
  - simpl. rewrite (right_id_L [] (++)). destruct m; simpl in *; by subst.
  - simpl. rewrite addListner_eq, Hsrv. simpl.
    rewrite (IH _ (srv ++ portCalls inst)) by done.
    unfold set_pOurTcpsrv. simpl. by rewrite <- !(assoc_L (++)).
Qed.

Lemma checkCnf_loop_eq (insts : list instanceConf_t) (r : runtime_t) :
  checkCnf_loop insts r
  = (bound r <$> insts,
     Runtime (conf r) (objs r) (parserRoot r)
       (errlog r ++ (warning_ruleset_not_found <$> filter (unknownRuleset r) insts))).
Proof.
  revert r. induction insts as [|inst insts IH]; intros r.
  - simpl. rewrite (right_id_L [] (++)). by destruct r.
  - simpl. unfold std_checkRuleset at 1.
    destruct (pszBindRuleset inst) as [name|] eqn:Hname.
    + destruct (rulesetGetRuleset r name) as [iRet p] eqn:Hget.
      assert (bound r inst
              = set_pBindRuleset inst (match iRet with RS_RET_OK => p | _ => None end))
        as Hb by (unfold bound; rewrite Hname; simpl; by rewrite Hget).
      destruct (decide (iRet = RS_RET_OK)) as [->|Hne].
      * rewrite IH, Hb.
        rewrite (filter_cons_False (unknownRuleset r)); [done|].
        intros (n & Hn & Hbad). rewrite Hname in Hn. injection Hn as <-.
        by rewrite Hget in Hbad.
      * assert (Hunk : unknownRuleset r inst).
        { exists name. split; [done|]. by rewrite Hget. }
        rewrite (filter_cons_True (unknownRuleset r)) by done.
        assert ((let '(inst1, r1) :=
                   match iRet with
                   | RS_RET_OK => (set_pBindRuleset inst p, r)
                   | _ => (set_pBindRuleset inst None, std_checkRuleset_genErrMsg inst r)
                   end in
                 let '(next1, r2) := checkCnf_loop insts r1 in (inst1 :: next1, r2))
                = (let '(next1, r2) :=
                     checkCnf_loop insts (std_checkRuleset_genErrMsg inst r) in
                   (set_pBindRuleset inst None :: next1, r2))) as ->
          by (by destruct iRet).
        rewrite IH. rewrite Hb.
        assert (match iRet with RS_RET_OK => p | _ => None end = None) as ->
          by (by destruct iRet).
        rewrite fmap_cons. simpl. rewrite <- (assoc_L (++)). done.
    + rewrite IH.
      rewrite (filter_cons_False (unknownRuleset r));
        [|by (intros (n & Hn & _); rewrite Hname in Hn)].
      unfold bound at 2. by rewrite Hname.
Qed.

Lemma activateCnfPrePrivDrop_trace (pModConf : modConfData_t) (m : module_t) :
  pOurTcpsrv m ≠ None ∨ root pModConf ≠ [] →
  activateCnfPrePrivDrop pModConf m
  = (RS_RET_OK,
     Module_ (Some (default (initCalls pModConf (pPermPeersRoot m)) (pOurTcpsrv m)
                    ++ (root pModConf ≫= portCalls) ++ [ConstructFinalize]))
             (pPermPeersRoot m) (Some pModConf) (rt m)).
Proof.
  intros Hsome. unfold activateCnfPrePrivDrop.
  destruct (pOurTcpsrv m) as [srv|] eqn:Hsrv.
  - rewrite (addListner_fold_some _ _ _ srv) by done. simpl.
    by rewrite <- (assoc_L (++)).
  - destruct Hsome as [?|Hroot]; [done|].
    destruct (root pModConf) as [|inst insts]; [done|].
    simpl. rewrite addListner_eq. simpl. rewrite Hsrv. simpl.
    rewrite (addListner_fold_some _ _ _
               (initCalls pModConf (pPermPeersRoot m) ++ portCalls inst)) by done.
    simpl. by rewrite <- !(assoc_L (++)).
Qed.

(** X13. The calls activation makes on the TCP server, exactly: when there
    is at least one instance or a server exists already,
    activateCnfPrePrivDrop returns RS_RET_OK and logs nothing; a server is
    set up at most once (a new one gets the five callbacks, the parameters
    of the module config and, only if configured, the authentication mode
    and the permitted peers, before any listener; an existing one is not
    set up again); then, for each instance in the order of the list, the
    ruleset, the input name (imtcp when the instance has none) and the
    port with its framing flag; and last of all ConstructFinalize. *)
Theorem activateCnfPrePrivDrop_calls (pModConf : modConfData_t) (m : module_t) :
  pOurTcpsrv m ≠ None ∨ root pModConf ≠ [] →
  activateCnfPrePrivDrop pModConf m
  = (RS_RET_OK,
     Module_ (Some (default (initCalls pModConf (pPermPeersRoot m)) (pOurTcpsrv m)
                    ++ (root pModConf ≫= portCalls) ++ [ConstructFinalize]))
             (pPermPeersRoot m) (Some pModConf) (rt m)).
Proof. apply activateCnfPrePrivDrop_trace. Qed.

Lemma activateCnfPrePrivDrop_calls_witness :
  activateCnfPrePrivDrop modConf_one mod_one_peer
  = (RS_RET_OK,
     Module_ (Some [SetCBIsPermittedHost isPermittedHost; SetCBRcvData doRcvData;
                    SetCBOpenLstnSocks doOpenLstnSocks;
                    SetCBOnRegularClose onRegularClose; SetCBOnErrClose onErrClose;
                    SetKeepAlive false; SetSessMax 200; SetLstnMax 20;
                    SetDrvrMode 0; SetUseFlowControl false;
                    SetAddtlFrameDelim (-1); SetbDisableLFDelim false;
                    SetNotificationOnRemoteClose false;
                    SetDrvrPermPeers ["*.example.net"];
                    SetRuleset None; SetInputName "imtcp";
                    configureTCPListen "10514" true;
                    ConstructFinalize])
             ["*.example.net"] (Some modConf_one) rt_no_current).
Proof.
  apply (activateCnfPrePrivDrop_calls modConf_one
           mod_one_peer).
  right. discriminate.
Defined.

Lemma rulesetsSet_app (s1 s2 : tcpsrv_t) :
  rulesetsSet (s1 ++ s2) = rulesetsSet s1 ++ rulesetsSet s2.
Proof. apply omap_app. Qed.

Lemma rulesetsSet_initCalls (modConf : modConfData_t) (peers : list string) :
  rulesetsSet (initCalls modConf peers) = [].
Proof. unfold initCalls. by destruct (pszStrmDrvrAuthMode modConf), peers. Qed.

Lemma rulesetsSet_portCalls (insts : list instanceConf_t) :
  rulesetsSet (insts ≫= portCalls) = pBindRuleset <$> insts.
Proof.
  induction insts as [|inst insts IH]; [done|].
  rewrite bind_cons, rulesetsSet_app, IH. done.
Qed.

(** X14. The config check binds every instance and never rejects a config
    that has one: checkCnf returns RS_RET_OK whenever the list of
    instances is not empty, whatever their bind-ruleset names; each
    instance is bound to the ruleset registered under its name (found up to
    letter case), to none, which stands for the default ruleset, when it has
    no name or the name is not registered; one warning is logged per
    instance whose name is not registered, in the order of the instances,
    and nothing else; ports, names and the ruleset registry are untouched.
    Activation then hands the server, per instance, exactly that
    binding. *)
Theorem checkCnf_binds (pModConf : modConfData_t) (m : module_t) :
  root pModConf ≠ [] →
  let pModConf' := set_root pModConf (bound (rt m) <$> root pModConf) in
  let rt' := Runtime (conf (rt m)) (objs (rt m)) (parserRoot (rt m))
               (errlog (rt m)
                ++ (warning_ruleset_not_found
                      <$> filter (unknownRuleset (rt m)) (root pModConf))) in
  checkCnf pModConf m = (RS_RET_OK, pModConf', set_rt m rt')
  ∧ (pOurTcpsrv m = None →
     ∃ m', activateCnfPrePrivDrop pModConf' (set_rt m rt') = (RS_RET_OK, m')
       ∧ rulesetsSet (default [] (pOurTcpsrv m'))
         = (λ inst, pBindRuleset (bound (rt m) inst)) <$> root pModConf).
Proof.
  intros Hroot pModConf' rt'.
  assert (Hchk : checkCnf pModConf m = (RS_RET_OK, pModConf', set_rt m rt')).
  { unfold checkCnf. rewrite checkCnf_loop_eq. simpl.
    destruct (root pModConf) as [|inst insts]; [done|]. reflexivity. }
  split; [exact Hchk|].
  intros Hsrv. eexists. split.
  - apply activateCnfPrePrivDrop_trace. right. simpl.
    destruct (root pModConf); [done|]. discriminate.
  - cbn [pOurTcpsrv default set_rt pPermPeersRoot]. rewrite Hsrv.
    cbn [default from_option]. unfold id.
    rewrite !rulesetsSet_app, rulesetsSet_initCalls, rulesetsSet_portCalls.
    simpl. rewrite (right_id_L [] (++)). by rewrite <- list_fmap_compose.
Qed.

Lemma checkCnf_binds_witness :
  ∃ pModConf' m',
    checkCnf (set_root modConf_empty
                [InstanceConf "514" (Some "REMOTE") None None true;
                 InstanceConf "10514" (Some "nosuch") None None true])
             (modInit rt_two_rulesets)
    = (RS_RET_OK, pModConf', m')
    ∧ pBindRuleset <$> root pModConf' = [Some 2; None]
    ∧ errlog (rt m')
      = [warning_ruleset_not_found (InstanceConf "10514" (Some "nosuch") None None true)].
Proof.
  eexists _, _. split.
  - apply (checkCnf_binds
             (set_root modConf_empty
                [InstanceConf "514" (Some "REMOTE") None None true;
                 InstanceConf "10514" (Some "nosuch") None None true])
             (modInit rt_two_rulesets)).
    discriminate.
  - split; reflexivity.
Defined.

End ImtcpMoreFacts.

Section ImtcpLoadFacts.
Import Imtcp ImtcpLoad.




End ImtcpLoadFacts.

Lemma linked_last (stmts : gmap loc Script.cnfstmt) (l : list loc) (a : loc) :
  linked stmts l → last l = Some a → stmts !! a = Some (Script.Cnfstmt None).
Proof.
  induction l as [|b t IH]; [done|].
  intros [Hb Ht] Hlast. destruct t as [|c t'].
  - simpl in *. by injection Hlast as <-.
  - apply IH; [done|]. by rewrite last_cons_cons in Hlast.
Qed.

Lemma linked_insert_ne (stmts : gmap loc Script.cnfstmt) (l : list loc)
    (a : loc) (x : Script.cnfstmt) :
  a ∉ l → linked stmts l → linked (<[a := x]> stmts) l.
Proof.
  induction l as [|b t IH]; [done|].
  intros Hnin [Hb Ht]. apply not_elem_of_cons in Hnin as [Hne Hnin].
  split; [by rewrite lookup_insert_ne|by apply IH].
Qed.

Lemma linked_snoc (stmts : gmap loc Script.cnfstmt) (l : list loc) (a s : loc) :
  NoDup (l ++ [s]) → linked stmts l → last l = Some a →
  stmts !! s = Some (Script.Cnfstmt None) →
  linked (<[a := Script.Cnfstmt (Some s)]> stmts) (l ++ [s]).
Proof.
  induction l as [|b t IH]; [done|].
  intros Hnd [Hb Ht] Hlast Hs.
  simpl in Hnd. apply NoDup_cons in Hnd as [Hb_nin Hnd].
  destruct t as [|c t'].
  - simpl in Hlast. injection Hlast as <-. simpl.
    split; [by rewrite lookup_insert_eq|].
    split; [|done]. rewrite lookup_insert_ne; [done|].
    intros ->. apply Hb_nin. left.
  - rewrite last_cons_cons in Hlast.
    assert (a ∈ c :: t') as Ha.
    { apply list_elem_of_lookup. exists (pred (length (c :: t'))).
      by rewrite <- last_lookup. }
    split.
    + rewrite lookup_insert_ne; [exact Hb|].
      intros ->. apply Hb_nin. apply elem_of_app. by left.
    + by apply IH.
Qed.

Lemma addScripts_spec (ss done : list loc) (pThis : Script.script_t)
    (stmts : gmap loc Script.cnfstmt) :
  Script.root pThis = head done → Script.last pThis = last done →
  linked stmts done → NoDup (done ++ ss) →
  (∀ a, a ∈ ss → stmts !! a = Some (Script.Cnfstmt None)) →
  ∃ stmts',
    addScripts ss pThis stmts
    = Ret (Script.ScriptOf (head (done ++ ss)) (last (done ++ ss)), stmts')
    ∧ linked stmts' (done ++ ss)
    ∧ ∀ a, a ∉ done ++ ss → stmts' !! a = stmts !! a.
Proof.
  revert done pThis stmts.
  induction ss as [|s ss IH]; intros done pThis stmts Hroot Hlast Hlinked Hnd Hnew.
  - exists stmts. rewrite (right_id_L [] (++)). simpl.
    split; [|done]. destruct pThis; simpl in *; by subst.
  - assert (Hs : stmts !! s = Some (Script.Cnfstmt None)) by (apply Hnew; left).
    assert (Hnd' : NoDup ((done ++ [s]) ++ ss)) by (by rewrite <- (assoc_L (++))).
    assert (Hnd_ds : NoDup (done ++ [s]))
      by (by apply NoDup_app in Hnd' as (? & _ & _)).
    simpl. unfold Script.addScript. rewrite Hlast.
    destruct (last done) as [l|] eqn:Hl.
    + rewrite (linked_last stmts done l Hlinked Hl).
      assert (Hl_in : l ∈ done).
      { apply list_elem_of_lookup. exists (pred (length done)).
        by rewrite <- last_lookup. }
      destruct (IH (done ++ [s]) (Script.ScriptOf (Script.root pThis) (Some s))
                  (<[l := Script.Cnfstmt (Some s)]> stmts))
        as (stmts' & Hrun & Hlk & Hout).
      * simpl. rewrite Hroot. by destruct done.
      * simpl. by rewrite last_snoc.
      * by apply linked_snoc.
      * exact Hnd'.
      * intros a Ha. rewrite lookup_insert_ne; [apply Hnew; by right|].
        intros ->. apply NoDup_app in Hnd as (_ & Hdisj & _).
        apply (Hdisj a Hl_in). by right.
      * exists stmts'. rewrite <- (assoc_L (++)) in Hrun, Hlk, Hout.
        split; [exact Hrun|]. split; [exact Hlk|].
        intros a Ha. rewrite (Hout a Ha). apply lookup_insert_ne.
        intros ->. apply Ha. apply elem_of_app. by left.
    + assert (done = []) as -> by (by destruct done using rev_ind;
                                     [|rewrite last_snoc in Hl]).
      destruct (IH [s] (Script.ScriptOf (Some s) (Some s)) stmts)
        as (stmts' & Hrun & Hlk & Hout); try done.
      * intros a Ha. apply Hnew. by right.
      * by exists stmts'.
Qed.

(** X17. addScript keeps the script of a ruleset a chain in the order of
    the additions: when distinct statements, each without successor, are
    added one after the other to a ruleset that has no script yet, no
    addition faults; afterwards [root] is the first statement and [last]
    the one added last, the [next] of every statement is the one added
    after it and that of the last is NULL, and no other statement has been
    written to.  The function does not test its argument for NULL: adding
    a NULL script to a ruleset clears [last], so that the next addition
    starts a new chain at [root] and the earlier one is lost. *)
Theorem addScript_chain (ss : list loc) (stmts : gmap loc Script.cnfstmt) :
  NoDup ss →
  (∀ a, a ∈ ss → stmts !! a = Some (Script.Cnfstmt None)) →
  (∃ stmts',
     addScripts ss Script.rulesetConstruct_script stmts
     = Ret (Script.ScriptOf (head ss) (last ss), stmts')
     ∧ linked stmts' ss
     ∧ ∀ a, a ∉ ss → stmts' !! a = stmts !! a)
  ∧ (∀ pThis l s x, Script.last pThis = Some l → stmts !! l = Some x →
       ∃ stmts1,
         Script.addScript pThis None stmts
         = Ret (Script.ScriptOf (Script.root pThis) None, stmts1)
         ∧ Script.addScript (Script.ScriptOf (Script.root pThis) None) (Some s) stmts1
           = Ret (Script.ScriptOf (Some s) (Some s), stmts1)).
Proof.
  intros Hnd Hnew. split.
  - by apply (addScripts_spec ss [] Script.rulesetConstruct_script stmts).
  - intros pThis l s x Hl Hx. unfold Script.addScript. rewrite Hl, Hx.
    by eexists.
Qed.

Lemma addScript_chain_witness :
  ∃ stmts',
    addScripts [7; 3; 5] Script.rulesetConstruct_script
      {[ 3 := Script.Cnfstmt None; 5 := Script.Cnfstmt None;
         7 := Script.Cnfstmt None ]}
    = Ret (Script.ScriptOf (Some 7) (Some 5), stmts')
    ∧ linked stmts' [7; 3; 5].
Proof.
  destruct (addScript_chain [7; 3; 5]
              {[ 3 := Script.Cnfstmt None; 5 := Script.Cnfstmt None;
                 7 := Script.Cnfstmt None ]})
    as [(stmts' & Hrun & Hlk & _) _].
  - by apply (bool_decide_unpack _).
  - intros a Ha. repeat (apply elem_of_cons in Ha as [->|Ha]; [reflexivity|]).
    by apply elem_of_nil in Ha.
  - by exists stmts'.
Defined.
